(** * Enclosing-wall visibility overlay (robocasa)

    A shallow embedding of
    [robocasa/wrappers/enclosing_wall_render_wrapper.py]:
    the layout wall registry, the geometry resolver, the overlay state
    machine of [EnclosingWallRenderWrapper] and the hot-key consumer of
    [EnclosingWallHotkeyHandler], together with the properties stated for
    them in the specification.

    Conventions.
    - Python values that come out of [yaml.safe_load] are values of [pyval].
    - A call either returns, raises, or (for the one [while] loop of the
      module, which is run on fuel) exhausts its fuel: type [outcome].
    - Methods that mutate [self] or the simulation are computations in the
      monad [M], which keeps the state reached when an exception escapes,
      as Python does.
    - The alpha channel holds floats.  The module only stores and copies
      them (it never computes with them), so they are modelled as
      rationals: [1.0] is [1%Q].  A store into [geom_rgba] converts the
      Python float to the element type of the buffer (float32 in MuJoCo),
      which rounds: the conversion is the field [geom_rgba_cast] of the
      model.  Reading an element back as a Python float is exact.  NaN and
      infinities are outside this model. *)

From Stdlib Require Import ZArith QArith.
From stdpp Require Import gmap strings list.

Local Open Scope Z_scope.
Local Open Scope nat_scope.

(** ** Outcomes of a call *)

Inductive exn : Type :=
  | TypeError
  | AttributeError
  | IndexError
  | OSError.

Inductive outcome (A : Type) : Type :=
  | Ret (a : A)
  | Raise (e : exn)
  | OutOfFuel.
Arguments Ret {A} a.
Arguments Raise {A} e.
Arguments OutOfFuel {A}.

Definition obind {A B} (c : outcome A) (k : A -> outcome B) : outcome B :=
  match c with
  | Ret a => k a
  | Raise e => Raise e
  | OutOfFuel => OutOfFuel
  end.

Notation "'let*' x ':=' c 'in' k" := (obind c (fun x => k))
  (at level 10, x name, c at level 100, k at level 200).

(** ** Python values (what a layout YAML file loads to) *)

#[warnings="-register-all"] Inductive pyval : Type :=
  | PNone
  | PBool (b : bool)
  | PInt (z : Z)
  | PStr (s : string)
  | PList (l : list pyval)
  | PDict (d : list (string * pyval)).

(** [bool(v)] *)
Definition truthy (v : pyval) : bool :=
  match v with
  | PNone => false
  | PBool b => b
  | PInt z => negb (Z.eqb z 0)
  | PStr s => negb (String.eqb s "")
  | PList l => match l with [] => false | _ => true end
  | PDict d => match d with [] => false | _ => true end
  end.

(** [v or default] *)
Definition py_or (v dflt : pyval) : pyval :=
  if truthy v then v else dflt.

(** [d[k]] on the entries of a dict, [None] when the key is absent *)
Fixpoint dict_lookup (d : list (string * pyval)) (k : string) : option pyval :=
  match d with
  | [] => None
  | (k', v) :: d' => if String.eqb k' k then Some v else dict_lookup d' k
  end.

(** [v.get(k, default)]: only dicts have [get] *)
Definition py_get (v : pyval) (k : string) (dflt : pyval) : outcome pyval :=
  match v with
  | PDict d => Ret (match dict_lookup d k with Some v => v | None => dflt end)
  | _ => Raise AttributeError
  end.

(** [o is True]: only the boolean [True] itself *)
Definition is_True (v : pyval) : bool :=
  match v with
  | PBool true => true
  | _ => false
  end.

(** [for x in v]: the elements of a list, the keys of a dict, the
    characters of a string; anything else is not iterable *)
Fixpoint chars (s : string) : list pyval :=
  match s with
  | EmptyString => []
  | String c s' => PStr (String c EmptyString) :: chars s'
  end.

Definition py_iter (v : pyval) : outcome (list pyval) :=
  match v with
  | PList l => Ret l
  | PDict d => Ret (map (fun kv => PStr (fst kv)) d)
  | PStr s => Ret (chars s)
  | _ => Raise TypeError
  end.

(** ** Layout wall registry *)

(** The list comprehension
    [[w.get("name") for w in walls if w.get("enclosing_wall", False) is True]] *)
Fixpoint enclosing_names_of (walls : list pyval) : outcome (list pyval) :=
  match walls with
  | [] => Ret []
  | w :: rest =>
      let* flag := py_get w "enclosing_wall" (PBool false) in
      if is_True flag then
        let* name := py_get w "name" PNone in
        let* names := enclosing_names_of rest in
        Ret (name :: names)
      else enclosing_names_of rest
  end.

(** What the external collaborators [SceneRegistry.get_layout_path],
    [open] and [yaml.safe_load] produce for a layout id: the loaded
    document, or the exception raised on the way. *)
Inductive loaded : Type :=
  | Loaded (v : pyval)
  | LoadFailed (e : exn).

Definition outcome_of_load (l : loaded) : outcome pyval :=
  match l with
  | Loaded v => Ret v
  | LoadFailed e => Raise e
  end.

(** [EnclosingWallRenderWrapper._get_enclosing_wall_names_from_layout] *)
Definition _get_enclosing_wall_names_from_layout
    (load_layout : Z -> loaded) (layout_id : Z) : outcome (list pyval) :=
  let* loaded := outcome_of_load (load_layout layout_id) in
  let layout_data := py_or loaded (PDict []) in
  let* room := py_get layout_data "room" PNone in
  let* walls_field := py_get (py_or room (PDict [])) "walls" PNone in
  let walls := py_or walls_field (PList []) in
  let* ws := py_iter walls in
  enclosing_names_of ws.

(** ** Name matching *)

(** [s.startswith(pre)] *)
Fixpoint startswith (s pre : string) {struct pre} : bool :=
  match pre, s with
  | EmptyString, _ => true
  | String _ _, EmptyString => false
  | String c pre', String d s' => Ascii.eqb c d && startswith s' pre'
  end.

(** [s[n:]] *)
Fixpoint string_drop (n : nat) (s : string) : string :=
  match n, s with
  | O, _ => s
  | S _, EmptyString => EmptyString
  | S n', String _ s' => string_drop n' s'
  end.

(** [s.endswith(suf)]: the tail of [s] of the length of [suf] is [suf] *)
Definition endswith (s suf : string) : bool :=
  (String.length suf <=? String.length s)
  && String.eqb (string_drop (String.length s - String.length suf) s) suf.

(** The condition of the two matching loops, for a wall name that is a
    string:
    [name == ename or name.startswith(ename + "_") or name.endswith("_" + ename)] *)
Definition name_matches (name ename : string) : bool :=
  String.eqb name ename
  || startswith name (ename +:+ "_")
  || endswith name ("_" +:+ ename).

(** The same condition for whatever the layout gave as a name.  A name that
    is not a string is never equal to [name], so [ename + "_"] is evaluated
    and raises. *)
Definition match_name (name : string) (ename : pyval) : outcome bool :=
  match ename with
  | PStr e => Ret (name_matches name e)
  | _ => Raise TypeError
  end.

(** [for ename in enclosing_names: if <condition>: ...; break] *)
Fixpoint matches_any (name : string) (enclosing_names : list pyval) : outcome bool :=
  match enclosing_names with
  | [] => Ret false
  | ename :: rest =>
      let* hit := match_name name ename in
      if hit then Ret true else matches_any name rest
  end.

(** ** The scene graph *)

(** What the module uses of a MuJoCo model.  [py_id] is [id(model)], the
    identity of the Python object; [geom_rgba_alpha] is the column
    [geom_rgba[:, 3]], the only mutable part; [geom_rgba_cast] is what an
    assignment into [geom_rgba] makes of a Python float: the value
    rounded to the element type of the array (float32 for a MuJoCo model,
    the value itself for a float64 array). *)
Record MjModel : Type := {
  py_id : Z;
  nbody : nat;
  body_id2name : nat -> option string;
  body_parentid : list Z;
  ngeom : nat;
  geom_bodyid : list Z;
  geom_id2name : nat -> option string;
  geom_rgba_alpha : list Q;
  geom_rgba_cast : Q -> Q
}.

(** [for x in xs: state = body(state, x)], stopping at the first exception *)
Fixpoint for_each {S X : Type} (body : S -> X -> outcome S) (xs : list X) (s : S)
    : outcome S :=
  match xs with
  | [] => Ret s
  | x :: xs' => let* s' := body s x in for_each body xs' s'
  end.

(** [range(n)] *)
Definition range (n : nat) : list nat := seq 0 n.

(** ** Geometry resolver *)

(** Body of the first loop: collect the bodies whose name matches. *)
Definition match_body (model : MjModel) (enclosing_names : list pyval)
    (body_ids : gset Z) (b : nat) : outcome (gset Z) :=
  match body_id2name model b with
  | None => Ret body_ids
  | Some body_name =>
      let* hit := matches_any body_name enclosing_names in
      Ret (if hit then {[Z.of_nat b]} ∪ body_ids else body_ids)
  end.

(** Body of the [for] loop inside the [while]: add [b] when its parent is
    already in the set.  The state is the set and the flag [added]. *)
Definition add_child (model : MjModel) (st : gset Z * bool) (b : nat)
    : outcome (gset Z * bool) :=
  if bool_decide (Z.of_nat b ∈ st.1) then Ret st
  else
    match body_parentid model !! b with
    | None => Raise IndexError
    | Some parent =>
        if (0 <=? parent)%Z && bool_decide (parent ∈ st.1)
        then Ret ({[Z.of_nat b]} ∪ st.1, true)
        else Ret st
    end.

(** One pass of the [while] body: [added = False], then the [for] loop. *)
Definition closure_pass (model : MjModel) (body_ids : gset Z)
    : outcome (gset Z * bool) :=
  for_each (add_child model) (range (nbody model)) (body_ids, false).

(** [added = True; while added: <pass>], run for at most [fuel] passes. *)
Fixpoint closure_loop (fuel : nat) (model : MjModel) (body_ids : gset Z)
    : outcome (gset Z) :=
  match fuel with
  | O => OutOfFuel
  | S fuel' =>
      let* st := closure_pass model body_ids in
      if st.2 then closure_loop fuel' model st.1 else Ret st.1
  end.

(** Body of the last loop: geoms of a collected body, or with a matching
    name of their own. *)
Definition match_geom (model : MjModel) (enclosing_names : list pyval)
    (body_ids : gset Z) (geom_ids : list nat) (i : nat) : outcome (list nat) :=
  match geom_bodyid model !! i with
  | None => Raise IndexError
  | Some owner =>
      if bool_decide (owner ∈ body_ids) then Ret (geom_ids ++ [i])
      else
        match geom_id2name model i with
        | None => Ret geom_ids
        | Some gname =>
            let* hit := matches_any gname enclosing_names in
            Ret (if hit then geom_ids ++ [i] else geom_ids)
        end
  end.

(** [EnclosingWallRenderWrapper._match_geom_ids].  The [while] loop gets
    [nbody + 1] passes of fuel, which it never exhausts
    (see [closure_loop_enough_fuel]). *)
Definition _match_geom_ids (model : MjModel) (enclosing_names : list pyval)
    : outcome (list nat) :=
  match enclosing_names with
  | [] => Ret []
  | _ =>
      let* matched := for_each (match_body model enclosing_names)
                               (range (nbody model)) ∅ in
      let* body_ids := closure_loop (S (nbody model)) model matched in
      for_each (match_geom model enclosing_names body_ids)
               (range (ngeom model)) []
  end.

(** ** The wrapped session *)

(** [sim.model] may be missing or [None]: [getattr(base.sim, "model", None)]. *)
Record Sim : Type := { model : option MjModel }.

(** The innermost environment.  [sim = None] is "no attribute [sim]",
    [sim = Some None] is "[sim] is [None]"; [layout_id = None] is
    "no attribute [layout_id]".  A layout id that is there is an integer
    (robocasa stores the value of a layout enumeration), so that
    [int(base.layout_id)] is that integer. *)
Record BaseEnv : Type := {
  sim : option (option Sim);
  layout_id : option Z
}.

(** A chain of wrappers around the base environment: an object has an
    attribute [env] exactly when it is a wrapper. *)
Inductive Env : Type :=
  | Base (b : BaseEnv)
  | Wrapped (inner : Env).

(** [_unwrap_env] *)
Fixpoint _unwrap_env (env : Env) : BaseEnv :=
  match env with
  | Base b => b
  | Wrapped inner => _unwrap_env inner
  end.

(** Everything outside the wrapper object: the environment it wraps
    ([self.env]) and the layout files. *)
Record World : Type := {
  env : Env;
  load_layout : Z -> loaded
}.

(** The live scene graph, [_unwrap_env(self.env).sim.model], if there is one *)
Definition live_model (w : World) : option MjModel :=
  match sim (_unwrap_env (env w)) with
  | Some (Some s) => model s
  | _ => None
  end.

(** In-place mutation of the live model: the object stays where it is in
    the chain, its alpha column changes. *)
Definition with_alpha (buf : list Q) (m : MjModel) : MjModel :=
  {| py_id := py_id m; nbody := nbody m; body_id2name := body_id2name m;
     body_parentid := body_parentid m; ngeom := ngeom m;
     geom_bodyid := geom_bodyid m; geom_id2name := geom_id2name m;
     geom_rgba_alpha := buf; geom_rgba_cast := geom_rgba_cast m |}.

Definition base_set_alpha (buf : list Q) (b : BaseEnv) : BaseEnv :=
  match sim b with
  | Some (Some s) =>
      {| sim := Some (Some {| model := with_alpha buf <$> model s |});
         layout_id := layout_id b |}
  | _ => b
  end.

Fixpoint env_set_alpha (buf : list Q) (e : Env) : Env :=
  match e with
  | Base b => Base (base_set_alpha buf b)
  | Wrapped inner => Wrapped (env_set_alpha buf inner)
  end.

Definition world_set_alpha (buf : list Q) (w : World) : World :=
  {| env := env_set_alpha buf (env w); load_layout := load_layout w |}.

(** ** The overlay state machine *)

(** The attributes of an [EnclosingWallRenderWrapper]. *)
Record Wrapper : Type := {
  alpha : Q;
  enabled : bool;
  _geom_ids : option (list nat);
  _saved_alpha : gmap nat Q;
  _last_model_ptr : option Z
}.

Record State : Type := {
  wrapper : Wrapper;
  world : World
}.

(** Computations over a mutable state [S]: the state reached is kept
    whatever the outcome. *)
Definition StM (S X : Type) : Type := S -> outcome X * S.

#[export] Instance StM_ret {S} : MRet (StM S) :=
  fun X x s => (Ret x, s).

#[export] Instance StM_bind {S} : MBind (StM S) :=
  fun X Y k c s =>
    match c s with
    | (Ret x, s') => k x s'
    | (Raise e, s') => (Raise e, s')
    | (OutOfFuel, s') => (OutOfFuel, s')
    end.

Definition lift {S X} (o : outcome X) : StM S X := fun s => (o, s).
Definition gets {S X} (f : S -> X) : StM S X := fun s => (Ret (f s), s).
Definition modify {S} (f : S -> S) : StM S unit := fun s => (Ret tt, f s).

(** [for x in xs: body(x)] *)
Fixpoint for_ {S X} (xs : list X) (body : X -> StM S unit) : StM S unit :=
  match xs with
  | [] => mret tt
  | x :: xs' => body x ;; for_ xs' body
  end.

Abbreviation M := (StM State).

(** Attribute assignments on [self] *)
Definition set_enabled_attr (b : bool) (s : State) : State :=
  {| wrapper := {| alpha := alpha (wrapper s); enabled := b;
                   _geom_ids := _geom_ids (wrapper s);
                   _saved_alpha := _saved_alpha (wrapper s);
                   _last_model_ptr := _last_model_ptr (wrapper s) |};
     world := world s |}.

Definition set_geom_ids (g : option (list nat)) (s : State) : State :=
  {| wrapper := {| alpha := alpha (wrapper s); enabled := enabled (wrapper s);
                   _geom_ids := g;
                   _saved_alpha := _saved_alpha (wrapper s);
                   _last_model_ptr := _last_model_ptr (wrapper s) |};
     world := world s |}.

Definition set_saved_alpha (sa : gmap nat Q) (s : State) : State :=
  {| wrapper := {| alpha := alpha (wrapper s); enabled := enabled (wrapper s);
                   _geom_ids := _geom_ids (wrapper s);
                   _saved_alpha := sa;
                   _last_model_ptr := _last_model_ptr (wrapper s) |};
     world := world s |}.

Definition set_last_model_ptr (p : option Z) (s : State) : State :=
  {| wrapper := {| alpha := alpha (wrapper s); enabled := enabled (wrapper s);
                   _geom_ids := _geom_ids (wrapper s);
                   _saved_alpha := _saved_alpha (wrapper s);
                   _last_model_ptr := p |};
     world := world s |}.

Definition set_world (w : World) (s : State) : State :=
  {| wrapper := wrapper s; world := w |}.

(** [float(model.geom_rgba[gi, 3])] on the live model *)
Definition read_alpha (gi : nat) : M Q := fun s =>
  match live_model (world s) with
  | None => (Raise AttributeError, s)
  | Some m =>
      match geom_rgba_alpha m !! gi with
      | Some a => (Ret a, s)
      | None => (Raise IndexError, s)
      end
  end.

(** [model.geom_rgba[geom_ids, 3] = v] on the live model: numpy checks
    every index before it writes anything, and stores [v] converted to the
    element type of the array. *)
Definition write_alpha (geom_ids : list nat) (v : Q) : M unit := fun s =>
  match live_model (world s) with
  | None => (Raise AttributeError, s)
  | Some m =>
      let buf := geom_rgba_alpha m in
      if forallb (fun gi => gi <? length buf) geom_ids
      then (Ret tt,
            set_world
              (world_set_alpha
                 (foldr (fun gi b => <[gi := geom_rgba_cast m v]> b) buf geom_ids)
                 (world s)) s)
      else (Raise IndexError, s)
  end.

(** Store an empty index array in the cache and return it. *)
Definition cache_empty : M (list nat) :=
  modify (set_geom_ids (Some [])) ;; mret [].

(** [EnclosingWallRenderWrapper._get_enclosing_wall_geom_ids] *)
Definition _get_enclosing_wall_geom_ids : M (list nat) :=
  self ← gets wrapper;
  match _geom_ids self with
  | Some ids => mret ids
  | None =>
      w ← gets world;
      let base := _unwrap_env (env w) in
      match sim base, layout_id base with
      | Some (Some the_sim), Some lid =>
          enclosing_names ←
            lift (_get_enclosing_wall_names_from_layout (load_layout w) lid);
          match model the_sim with
          | None => cache_empty
          | Some mdl =>
              ids ← lift (_match_geom_ids mdl enclosing_names);
              modify (set_geom_ids (Some ids)) ;;
              mret ids
          end
      | _, _ => cache_empty
      end
  end.

(** [if int(gi) not in self._saved_alpha: self._saved_alpha[int(gi)] = ...] *)
Definition save_original (gi : nat) : M unit :=
  self ← gets wrapper;
  match _saved_alpha self !! gi with
  | Some _ => mret tt
  | None =>
      a ← read_alpha gi;
      self ← gets wrapper;
      modify (set_saved_alpha (<[gi := a]> (_saved_alpha self)))
  end.

(** [EnclosingWallRenderWrapper._apply_or_restore] *)
Definition _apply_or_restore : M unit :=
  w ← gets world;
  match live_model w with
  | None => mret tt
  | Some mdl =>
      let model_ptr := py_id mdl in
      self ← gets wrapper;
      (if bool_decide (_last_model_ptr self = Some model_ptr) then mret tt
       else
         modify (set_geom_ids None) ;;
         modify (set_saved_alpha ∅) ;;
         modify (set_last_model_ptr (Some model_ptr))) ;;
      geom_ids ← _get_enclosing_wall_geom_ids;
      match geom_ids with
      | [] => mret tt
      | _ =>
          self ← gets wrapper;
          if enabled self then
            for_ geom_ids save_original ;;
            write_alpha geom_ids (alpha self)
          else
            write_alpha geom_ids 1%Q ;;
            modify (set_saved_alpha ∅)
      end
  end.

(** [EnclosingWallRenderWrapper.set_enabled] *)
Definition set_enabled (b : bool) : M unit :=
  self ← gets wrapper;
  if Bool.eqb b (enabled self) then mret tt
  else modify (set_enabled_attr b) ;; _apply_or_restore.

(** [EnclosingWallRenderWrapper.toggle] *)
Definition toggle : M unit :=
  self ← gets wrapper;
  set_enabled (negb (enabled self)).

(** [EnclosingWallRenderWrapper.visualize]; [env_visualize] is what
    [self.env.visualize(vis_settings)] does to the wrapped session. *)
Definition visualize (env_visualize : World -> World) : M unit :=
  modify (fun s => set_world (env_visualize (world s)) s) ;;
  _apply_or_restore.

(** [EnclosingWallRenderWrapper.reset]; [env_reset] is what
    [self.env.reset(...)] does to the wrapped session (its return value is
    passed through and not modelled). *)
Definition reset (env_reset : World -> World) : M unit :=
  modify (fun s => set_world (env_reset (world s)) s) ;;
  modify (set_geom_ids None) ;;
  modify (set_saved_alpha ∅) ;;
  modify (set_last_model_ptr None) ;;
  self ← gets wrapper;
  if enabled self then _apply_or_restore else mret tt.

(** [EnclosingWallRenderWrapper.__init__] *)
Definition __init__ (w : World) (alpha0 : Q) (enabled0 : bool) : outcome unit * State :=
  set_enabled enabled0
    {| wrapper := {| alpha := alpha0; enabled := false; _geom_ids := None;
                     _saved_alpha := ∅; _last_model_ptr := None |};
       world := w |}.

(** ** Hot-key requests and their consumer *)

(** What the handler sees: the environment [env] it was given carries the
    two request flags (an absent attribute is [None]) and the listener;
    [overlay] is [self._wrapper], the [EnclosingWallRenderWrapper] found in
    the chain by [_find_enclosing_wall_render_wrapper], if any; [hworld] is
    the session that wrapper wraps. *)
Record Session : Type := {
  overlay : option Wrapper;
  hworld : World;
  _force_enclosing_walls_opaque : option bool;
  _toggle_enclosing_walls : option bool;
  _enclosing_wall_key_listener : bool
}.

Definition set_force_flag (f : option bool) (h : Session) : Session :=
  {| overlay := overlay h; hworld := hworld h;
     _force_enclosing_walls_opaque := f;
     _toggle_enclosing_walls := _toggle_enclosing_walls h;
     _enclosing_wall_key_listener := _enclosing_wall_key_listener h |}.

Definition set_toggle_flag (f : option bool) (h : Session) : Session :=
  {| overlay := overlay h; hworld := hworld h;
     _force_enclosing_walls_opaque := _force_enclosing_walls_opaque h;
     _toggle_enclosing_walls := f;
     _enclosing_wall_key_listener := _enclosing_wall_key_listener h |}.

Definition set_listener (l : bool) (h : Session) : Session :=
  {| overlay := overlay h; hworld := hworld h;
     _force_enclosing_walls_opaque := _force_enclosing_walls_opaque h;
     _toggle_enclosing_walls := _toggle_enclosing_walls h;
     _enclosing_wall_key_listener := l |}.

Definition set_overlay_state (s : State) (h : Session) : Session :=
  {| overlay := Some (wrapper s); hworld := world s;
     _force_enclosing_walls_opaque := _force_enclosing_walls_opaque h;
     _toggle_enclosing_walls := _toggle_enclosing_walls h;
     _enclosing_wall_key_listener := _enclosing_wall_key_listener h |}.

Definition set_hworld (w : World) (h : Session) : Session :=
  {| overlay := overlay h; hworld := w;
     _force_enclosing_walls_opaque := _force_enclosing_walls_opaque h;
     _toggle_enclosing_walls := _toggle_enclosing_walls h;
     _enclosing_wall_key_listener := _enclosing_wall_key_listener h |}.

(** [if self._wrapper is not None: self._wrapper.<op>()] *)
Definition on_wrapper (op : M unit) : StM Session unit := fun h =>
  match overlay h with
  | None => (Ret tt, h)
  | Some w =>
      let r := op {| wrapper := w; world := hworld h |} in
      (r.1, set_overlay_state r.2 h)
  end.

(** [_refresh_visualization_and_redraw].  [vis] is [None] when there are no
    visualization settings to push (or no [visualize] method), and
    otherwise what the wrapped environment's [visualize] does with them;
    the call reaches the overlay wrapper's own [visualize] when there is
    one in the chain.  The redraw itself ([viewer.update()] or
    [env.render()], chosen by [render]) changes nothing that is modelled. *)
Definition _refresh_visualization_and_redraw
    (vis : option (World -> World)) (render : bool) : StM Session unit :=
  match vis with
  | None => mret tt
  | Some env_visualize =>
      h ← gets id;
      match overlay h with
      | Some _ => on_wrapper (visualize env_visualize)
      | None => modify (fun h => set_hworld (env_visualize (hworld h)) h)
      end
  end.

(** [bool(getattr(env, name, False))] *)
Definition flag_set (f : option bool) : bool :=
  match f with Some b => b | None => false end.

(** [EnclosingWallHotkeyHandler.consume_pending] *)
Definition consume_pending (vis : option (World -> World)) (render : bool)
    : StM Session bool :=
  h ← gets id;
  let force_opaque := flag_set (_force_enclosing_walls_opaque h) in
  let toggle_req := flag_set (_toggle_enclosing_walls h) in
  if negb force_opaque && negb toggle_req then mret false
  else if force_opaque then
    on_wrapper (set_enabled false) ;;
    modify (set_force_flag (Some false)) ;;
    modify (set_toggle_flag (Some false)) ;;
    _refresh_visualization_and_redraw vis render ;;
    mret true
  else
    on_wrapper toggle ;;
    modify (set_toggle_flag (Some false)) ;;
    _refresh_visualization_and_redraw vis render ;;
    mret true.

(** Keys delivered by the listener: [Key.esc], another special key (no
    attribute [char]), or a character key whose [char] may be [None]. *)
Inductive key : Type :=
  | Key_esc
  | Key_special
  | KeyCode (char : option string).

(** [_on_release] of [install_enclosing_wall_hotkeys] *)
Definition _on_release (k : key) (h : Session) : Session :=
  match k with
  | Key_esc => set_toggle_flag (Some true) h
  | Key_special => h
  | KeyCode char =>
      match char with
      | Some c =>
          if String.eqb c "[" || String.eqb c "]"
          then set_force_flag (Some true) h
          else h
      | None => h
      end
  end.

(** [install_enclosing_wall_hotkeys] *)
Definition install_enclosing_wall_hotkeys (h : Session) : Session :=
  if _enclosing_wall_key_listener h then h
  else set_listener true (set_force_flag (Some false) (set_toggle_flag (Some false) h)).

(** ** Spec-side definitions *)

(** The three match rules in the specification's words: exact equality,
    the name starts with [w + "_"], the name ends with ["_" + w]. *)
Definition spec_matches (s w : string) : Prop :=
  s = w ∨ (∃ t, s = (w +:+ "_") +:+ t) ∨ (∃ t, s = t +:+ ("_" +:+ w)).

(** The [room.walls] collection of a layout descriptor, empty when the
    room or the collection is absent. *)
Definition walls_of (layout : pyval) : list pyval :=
  match layout with
  | PDict top =>
      match dict_lookup top "room" with
      | Some (PDict room) =>
          match dict_lookup room "walls" with
          | Some (PList ws) => ws
          | _ => []
          end
      | _ => []
      end
  | _ => []
  end.

(** The [enclosing_wall] flag of a wall record is exactly [true]. *)
Definition flagged_enclosing (wall : pyval) : bool :=
  match wall with
  | PDict d =>
      match dict_lookup d "enclosing_wall" with
      | Some (PBool true) => true
      | _ => false
      end
  | _ => false
  end.

(** The name of a wall record ([None] when it has none). *)
Definition wall_name (wall : pyval) : pyval :=
  match wall with
  | PDict d => match dict_lookup d "name" with Some v => v | None => PNone end
  | _ => PNone
  end.

(** The names the registry is specified to return. *)
Definition spec_enclosing_names (layout : pyval) : list pyval :=
  wall_name <$> filter (fun w => flagged_enclosing w = true) (walls_of layout).

Definition is_dict (v : pyval) : bool :=
  match v with PDict _ => true | _ => false end.

(** A layout descriptor: an empty document or a mapping, whose [room], when
    present, is a mapping, whose [walls], when present, is a sequence of
    wall records. *)
Definition layout_descriptor (layout : pyval) : bool :=
  match layout with
  | PNone => true
  | PDict top =>
      match dict_lookup top "room" with
      | None | Some PNone => true
      | Some (PDict room) =>
          match dict_lookup room "walls" with
          | None | Some PNone => true
          | Some (PList ws) => forallb is_dict ws
          | _ => false
          end
      | _ => false
      end
  | _ => false
  end.


(** ** Sample data *)

(** A layout with one wall flagged [true], one flagged with the truthy
    value [1], one flagged with a string and one without a flag. *)
Definition sample_layout : pyval :=
  PDict [("room",
          PDict [("walls",
                  PList [PDict [("name", PStr "wall"); ("enclosing_wall", PBool true)];
                         PDict [("name", PStr "wall_left"); ("enclosing_wall", PInt 1)];
                         PDict [("name", PStr "wall_right"); ("enclosing_wall", PStr "true")];
                         PDict [("name", PStr "floor")]])])].

(** A layout in which no wall is flagged. *)
Definition plain_layout : pyval :=
  PDict [("room", PDict [("walls", PList [PDict [("name", PStr "wall")]])])].

(** [n / d] rounded to the nearest integer, ties to the even one
    ([0 < d]). *)
Definition round_half_even (n d : Z) : Z :=
  let q := (n / d)%Z in
  match (2 * (n mod d) ?= d)%Z with
  | Lt => q
  | Gt => (q + 1)%Z
  | Eq => if Z.even q then q else (q + 1)%Z
  end.

(** [2 ^ k <= n / d] for positive [n] and [d] and any integer [k]. *)
Definition pow2_le (k n d : Z) : bool :=
  if (0 <=? k)%Z then (d * 2 ^ k <=? n)%Z else (d <=? n * 2 ^ (- k))%Z.

(** What numpy stores when a Python float is assigned into a float32
    array: the nearest number with a 24-bit significand and an exponent of
    at least -149, ties to even.  Magnitudes from [2 ^ 128] on, which
    numpy turns into infinities, are not alpha values and are outside this
    sample. *)
Definition float32 (x : Q) : Q :=
  let n := Z.abs (Qnum x) in
  let d := Z.pos (Qden x) in
  if (n =? 0)%Z then 0%Q
  else
    let k := (Z.log2 n - Z.log2 d)%Z in
    let exponent := if pow2_le k n d then k else (k - 1)%Z in
    let e := Z.max (exponent - 23) (-149) in
    let significand :=
      if (0 <=? e)%Z then round_half_even n (d * 2 ^ e)
      else round_half_even (n * 2 ^ (- e)) d in
    let magnitude :=
      if (0 <=? e)%Z then Qmake (significand * 2 ^ e) 1
      else Qmake significand (Z.to_pos (2 ^ (- e))) in
    Qred (if (Qnum x <? 0)%Z then Qopp magnitude else magnitude).

Definition sample_body_name (b : nat) : option string :=
  match b with
  | 0 => Some "world"
  | 1 => Some "wall_1"
  | 2 => Some "panel"
  | 3 => Some "trim"
  | 4 => Some "wall1"
  | _ => None
  end.

Definition sample_geom_name (i : nat) : option string :=
  match i with
  | 3 => Some "skirting_wall"
  | _ => None
  end.

(** Bodies: the world, ["wall_1"] with child ["panel"] and grandchild
    ["trim"], and an unrelated ["wall1"].  Geoms 0 and 1 hang off
    ["wall_1"] and ["trim"], geom 2 off ["wall1"], geom 3 off the world
    but named ["skirting_wall"]. *)
Definition sample_model : MjModel :=
  {| py_id := 7%Z;
     nbody := 5;
     body_id2name := sample_body_name;
     body_parentid := [0; 0; 1; 2; 0]%Z;
     ngeom := 4;
     geom_bodyid := [1; 3; 4; 0]%Z;
     geom_id2name := sample_geom_name;
     geom_rgba_alpha := [1 # 2; 1; 1 # 4; 3 # 4]%Q;
     geom_rgba_cast := float32 |}.

Definition sample_world : World :=
  {| env := Wrapped (Base {| sim := Some (Some {| model := Some sample_model |});
                            layout_id := Some 3%Z |});
     load_layout := fun _ => Loaded sample_layout |}.

(** A scene graph without any body or geom. *)
Definition empty_model : MjModel :=
  {| py_id := 1%Z; nbody := 0; body_id2name := fun _ => None;
     body_parentid := []; ngeom := 0; geom_bodyid := [];
     geom_id2name := fun _ => None; geom_rgba_alpha := [];
     geom_rgba_cast := float32 |}.

(** The scene graph after a reload: another object, with another
    structure (two bodies, two geoms, the second geom on the wall). *)
Definition reloaded_model : MjModel :=
  {| py_id := 8%Z;
     nbody := 2;
     body_id2name := fun b => match b with
                              | 0 => Some "world"
                              | 1 => Some "wall"
                              | _ => None
                              end;
     body_parentid := [0; 0]%Z;
     ngeom := 2;
     geom_bodyid := [0; 1]%Z;
     geom_id2name := fun _ => None;
     geom_rgba_alpha := [3 # 4; 1 # 2]%Q;
     geom_rgba_cast := float32 |}.

Definition reloaded_world : World :=
  {| env := Wrapped (Base {| sim := Some (Some {| model := Some reloaded_model |});
                            layout_id := Some 3%Z |});
     load_layout := fun _ => Loaded sample_layout |}.

(** A session before its first reset: no simulation yet. *)
Definition unloaded_world : World :=
  {| env := Base {| sim := None; layout_id := Some 3%Z |};
     load_layout := fun _ => Loaded sample_layout |}.

(** A session with the overlay enabled on the sample scene, before the
    hot keys are installed. *)
Definition sample_session : Session :=
  {| overlay := Some (wrapper (__init__ sample_world (1 # 10) true).2);
     hworld := world (__init__ sample_world (1 # 10) true).2;
     _force_enclosing_walls_opaque := None;
     _toggle_enclosing_walls := None;
     _enclosing_wall_key_listener := false |}.

(** The wrapper constructed enabled on the sample scene, then disabled. *)
Definition sample_disabled : State :=
  (set_enabled false (__init__ sample_world (1 # 10) true).2).2.

(** The wrapper constructed enabled on a session without simulation. *)
Definition sample_unloaded : State :=
  (__init__ unloaded_world (1 # 10) true).2.

(** The sample session after the hot keys were installed and a bracket key
    and Esc were released, in that order. *)
Definition pending_session : Session :=
  _on_release Key_esc
    (_on_release (KeyCode (Some "]"))
       (install_enclosing_wall_hotkeys sample_session)).

(** ** Scene-graph vocabulary *)

(** The arrays of a MuJoCo model have one entry per body, respectively per
    geom. *)
Definition wf_model (m : MjModel) : Prop :=
  length (body_parentid m) = nbody m
  ∧ length (geom_bodyid m) = ngeom m
  ∧ length (geom_rgba_alpha m) = ngeom m.

(** The body indices of a model, as the working set stores them. *)
Definition body_range (m : MjModel) : gset Z :=
  list_to_set (Z.of_nat <$> range (nbody m)).

(** [d] is [a] or lies below [a] in the parent-pointer tree. *)
Inductive descendant (m : MjModel) (a : nat) : nat -> Prop :=
  | descendant_self : descendant m a a
  | descendant_child (b p : nat) :
      descendant m a p ->
      b < nbody m ->
      body_parentid m !! b = Some (Z.of_nat p) ->
      descendant m a b.

Definition is_str (v : pyval) : bool :=
  match v with PStr _ => true | _ => false end.

(** A working set is closed when no body outside it has its parent in it. *)
Definition closed_under_children (m : MjModel) (ids : gset Z) : Prop :=
  ∀ (b : nat) (parent : Z),
    b < nbody m → body_parentid m !! b = Some parent →
    (0 ≤ parent)%Z → parent ∈ ids → Z.of_nat b ∈ ids.

(** ** Overlay vocabulary *)

(** What a cache miss of [_get_enclosing_wall_geom_ids] computes: the
    geometry set resolved against the live scene graph and the current
    layout (empty without a simulation or a layout id). *)
Definition resolve (w : World) : outcome (list nat) :=
  let base := _unwrap_env (env w) in
  match sim base, layout_id base with
  | Some (Some the_sim), Some lid =>
      let* names := _get_enclosing_wall_names_from_layout (load_layout w) lid in
      match model the_sim with
      | None => Ret []
      | Some mdl => _match_geom_ids mdl names
      end
  | _, _ => Ret []
  end.

(** The alpha the overlay prescribes for the resolved geoms. *)
Definition overlay_alpha (self : Wrapper) : Q :=
  if enabled self then alpha self else 1%Q.

(** The invariant of the data model: every index of the cached geometry
    set holds, in the live scene graph, what a store of the alpha the
    switch prescribes leaves there: of 1.0 while the overlay is disabled,
    of the configured overlay alpha while it is enabled. *)
Definition overlay_invariant (s : State) : Prop :=
  ∀ m ids gi,
    live_model (world s) = Some m →
    _geom_ids (wrapper s) = Some ids →
    gi ∈ ids →
    geom_rgba_alpha m !! gi
    = Some (geom_rgba_cast m (overlay_alpha (wrapper s))).

(** The live scene graph, if any, is well formed. *)
Definition wf_world (w : World) : Prop :=
  ∀ m, live_model w = Some m → wf_model m.

(** Object identity: a scene graph that carries the identity the wrapper
    remembers is the scene graph that was live before, with possibly other
    colours; a reload produces an object with another identity. *)
Definition same_object (s : State) (w' : World) : Prop :=
  ∀ m', live_model w' = Some m' →
    _last_model_ptr (wrapper s) = Some (py_id m') →
    ∃ m buf, live_model (world s) = Some m ∧ m' = with_alpha buf m.

(** The session has no live scene graph, or no layout identifier. *)
Definition missing_context (w : World) : Prop :=
  live_model w = None ∨ layout_id (_unwrap_env (env w)) = None.

(** The states a wrapper goes through: construction, then any sequence of
    [set_enabled], [toggle], [reset] and [visualize] calls.  The wrapped
    environment's own [reset] and [visualize] are arbitrary functions of
    the session; [world_ok] constrains the sessions they produce and
    [reload_ok] what [visualize] may do to the scene graph the wrapper has
    seen.  The state is the one reached when the call ends, whether it
    returned or raised. *)
Inductive reachable (world_ok : World -> Prop)
    (reload_ok : State -> World -> Prop) : State -> Prop :=
  | reach_init (w : World) (alpha0 : Q) (enabled0 : bool) :
      world_ok w ->
      reachable world_ok reload_ok (__init__ w alpha0 enabled0).2
  | reach_set_enabled (s : State) (b : bool) :
      reachable world_ok reload_ok s ->
      reachable world_ok reload_ok (set_enabled b s).2
  | reach_toggle (s : State) :
      reachable world_ok reload_ok s ->
      reachable world_ok reload_ok (toggle s).2
  | reach_reset (s : State) (env_reset : World -> World) :
      reachable world_ok reload_ok s ->
      world_ok (env_reset (world s)) ->
      reachable world_ok reload_ok (reset env_reset s).2
  | reach_visualize (s : State) (env_visualize : World -> World) :
      reachable world_ok reload_ok s ->
      world_ok (env_visualize (world s)) ->
      reload_ok s (env_visualize (world s)) ->
      reachable world_ok reload_ok (visualize env_visualize s).2.





(** A cache that was filled for the scene graph [m] holds the geometry
    set [ids]. *)
Definition cache_agrees (s : State) (m : MjModel) (ids : list nat) : Prop :=
  ∀ cached, _geom_ids (wrapper s) = Some cached →
    _last_model_ptr (wrapper s) = Some (py_id m) → cached = ids.

(** [model.geom_rgba[ids, 3] = v] on a buffer *)
Definition assign_all (ids : list nat) (v : Q) (buf : list Q) : list Q :=
  foldr (fun gi b => <[gi := v]> b) buf ids.

(** The first step of [_apply_or_restore] on a live scene graph [m]:
    forget the cache when the remembered identity is not that of [m]. *)
Definition refresh_token (m : MjModel) (s : State) : State :=
  if bool_decide (_last_model_ptr (wrapper s) = Some (py_id m)) then s
  else set_last_model_ptr (Some (py_id m))
         (set_saved_alpha ∅ (set_geom_ids None s)).

(** The saved-alpha map after the save loop over [ids] on buffer [buf]. *)
Definition save_all (ids : list nat) (buf : list Q) (saved : gmap nat Q)
    : gmap nat Q :=
  foldl (fun sa gi =>
           match sa !! gi with
           | Some _ => sa
           | None => match buf !! gi with
                     | Some a => <[gi := a]> sa
                     | None => sa
                     end
           end) saved ids.

(** The wrapper's switch and configured alpha are the same in two states. *)
Definition same_switch (s s' : State) : Prop :=
  enabled (wrapper s') = enabled (wrapper s)
  ∧ alpha (wrapper s') = alpha (wrapper s).

(** Cached indices that belong to the scene graph [m] lie within it. *)
Definition cache_in_range (s : State) (m : MjModel) : Prop :=
  ∀ ids, _geom_ids (wrapper s) = Some ids →
    _last_model_ptr (wrapper s) = Some (py_id m) →
    ∀ gi, gi ∈ ids → gi < ngeom m.

(** The cache, when filled on a live scene graph, was filled for that scene
    graph and holds indices of it. *)
Definition coherent (s : State) : Prop :=
  ∀ m ids, live_model (world s) = Some m →
    _geom_ids (wrapper s) = Some ids →
    _last_model_ptr (wrapper s) = Some (py_id m)
    ∧ ∀ gi, gi ∈ ids → gi < ngeom m.

(** What [_apply_or_restore] does after the identity check. *)
Definition apply_tail : M unit :=
  geom_ids ← _get_enclosing_wall_geom_ids;
  match geom_ids with
  | [] => mret tt
  | _ =>
      self ← gets wrapper;
      if enabled self then
        for_ geom_ids save_original ;;
        write_alpha geom_ids (alpha self)
      else
        write_alpha geom_ids 1%Q ;;
        modify (set_saved_alpha ∅)
  end.

(** A session on which nothing the overlay does can fail: the live scene
    graph, if any, is well formed, and the geometry set can be resolved. *)
Definition healthy (w : World) : Prop :=
  wf_world w ∧ ∃ ids, resolve w = Ret ids.

(** A [visualize] of the wrapped environment that keeps sessions healthy
    and does not recycle scene-graph identities. *)
Definition well_behaved (env_visualize : World -> World) : Prop :=
  ∀ s, healthy (world s) →
    healthy (env_visualize (world s)) ∧ same_object s (env_visualize (world s)).

(** The number of passes the [while] loop of the resolver makes:
    [closure_loop] with a counter in place of its result. *)
Fixpoint closure_passes (fuel : nat) (model : MjModel) (body_ids : gset Z)
    : outcome nat :=
  match fuel with
  | O => OutOfFuel
  | S fuel' =>
      let* st := closure_pass model body_ids in
      if st.2 then
        let* n := closure_passes fuel' model st.1 in
        Ret (S n)
      else Ret 1
  end.

(** ** Vocabulary for the resolver's result *)

(** Body [a] carries one of the wall names. *)
Definition wall_body (m : MjModel) (names : list pyval) (a : nat) : Prop :=
  a < nbody m
  ∧ ∃ name w, body_id2name m a = Some name ∧ PStr w ∈ names
              ∧ name_matches name w = true.

(** Geom [i] hangs off a wall body or one of its descendants. *)
Definition wall_owned_geom (m : MjModel) (names : list pyval) (i : nat) : Prop :=
  ∃ a d, wall_body m names a ∧ descendant m a d
         ∧ geom_bodyid m !! i = Some (Z.of_nat d).

(** Geom [i] carries one of the wall names itself. *)
Definition wall_named_geom (m : MjModel) (names : list pyval) (i : nat) : Prop :=
  ∃ gname w, geom_id2name m i = Some gname ∧ PStr w ∈ names
             ∧ name_matches gname w = true.

(** ** Key events between two polls *)

(** The listener thread calls [_on_release] once per key released, in
    order. *)
Definition releases (ks : list key) (h : Session) : Session :=
  foldl (fun h k => _on_release k h) h ks.

Definition is_esc (k : key) : bool :=
  match k with Key_esc => true | _ => false end.

Definition is_bracket (k : key) : bool :=
  match k with
  | KeyCode (Some c) => String.eqb c "[" || String.eqb c "]"
  | _ => false
  end.

(** ** Wrapper chains as the handler sees them *)

(** An object of a chain: it either has no attribute [env] or wraps
    [inner]; [is_overlay] is
    [isinstance(obj, EnclosingWallRenderWrapper)]. *)
Inductive Obj : Type :=
  | Leaf (is_overlay : bool) (b : BaseEnv)
  | Node (is_overlay : bool) (inner : Obj).

Definition isinstance_overlay (o : Obj) : bool :=
  match o with
  | Leaf c _ => c
  | Node c _ => c
  end.

(** [_find_enclosing_wall_render_wrapper] *)
Fixpoint _find_enclosing_wall_render_wrapper (o : Obj) : option Obj :=
  match o with
  | Node c inner =>
      if c then Some o else _find_enclosing_wall_render_wrapper inner
  | Leaf c _ => if c then Some o else None
  end.

(** The objects met by following [env] from [o], [o] first. *)
Fixpoint chain (o : Obj) : list Obj :=
  match o with
  | Leaf _ _ => [o]
  | Node _ inner => o :: chain inner
  end.

(** The chain without its class tags, as [_unwrap_env] walks it. *)
Fixpoint obj_env (o : Obj) : Env :=
  match o with
  | Leaf _ b => Base b
  | Node _ inner => Wrapped (obj_env inner)
  end.

Definition sample_chain : Obj :=
  Node false (Node true (Node false (Node true
    (Leaf false {| sim := None; layout_id := Some 3%Z |})))).

(** ** Sessions that differ in their layout files only *)

Definition world_with_loader (load : Z -> loaded) (w : World) : World :=
  {| env := env w; load_layout := load |}.

Definition with_loader (load : Z -> loaded) (s : State) : State :=
  set_world (world_with_loader load (world s)) s.

(** The wrapper enabled on the sample scene, as a state. *)
Definition sample_enabled : State :=
  (__init__ sample_world (1 # 10) true).2.

(** A session whose layout has a flagged wall without a name. *)
Definition unnamed_wall_world : World :=
  {| env := env sample_world;
     load_layout := fun _ =>
       Loaded (PDict [("room",
         PDict [("walls", PList [PDict [("enclosing_wall", PBool true)]])])]) |}.

(** The sample session with the hot keys installed and no key released. *)
Definition idle_session : Session :=
  install_enclosing_wall_hotkeys sample_session.

(** The sample session after Esc was released twice. *)
Definition toggle_session : Session :=
  releases [Key_esc; Key_special; Key_esc] idle_session.

(** [d.get(k)] on the entries of a mapping *)
Definition entry (d : list (string * pyval)) (k : string) : pyval :=
  match dict_lookup d k with Some v => v | None => PNone end.

(** The wrapper constructed disabled on the session with the unnamed
    wall. *)
Definition unnamed_wall_state : State :=
  (__init__ unnamed_wall_world (1 # 10) false).2.

(** ** Settled states *)

(** The overlay has been applied to the live scene graph: the cache was
    filled for that object, every cached geom holds what a store of the
    alpha the switch prescribes leaves in the buffer, and the saved-alpha
    map is what [_apply_or_restore] leaves behind. *)
Definition settled (s : State) : Prop :=
  ∀ m, live_model (world s) = Some m →
    _last_model_ptr (wrapper s) = Some (py_id m)
    ∧ ∃ ids, _geom_ids (wrapper s) = Some ids
        ∧ (∀ gi, gi ∈ ids →
             geom_rgba_alpha m !! gi
             = Some (geom_rgba_cast m (overlay_alpha (wrapper s))))
        ∧ (enabled (wrapper s) = true →
             ∀ gi, gi ∈ ids → is_Some (_saved_alpha (wrapper s) !! gi))
        ∧ (enabled (wrapper s) = false → ids ≠ [] →
             _saved_alpha (wrapper s) = ∅).

(** The wrapper on the sample scene with the switch on and nothing
    applied yet: the state in which the constructor calls
    [_apply_or_restore]. *)
Definition sample_fresh : State :=
  {| wrapper := {| alpha := 1 # 10; enabled := true; _geom_ids := None;
                   _saved_alpha := ∅; _last_model_ptr := None |};
     world := sample_world |}.

(** A [visualize] of the wrapped environment that paints every geom of
    the sample scene with alpha 1/2 and keeps the scene-graph object. *)
Definition repaint (w : World) : World :=
  world_set_alpha [1 # 2; 1 # 2; 1 # 2; 1 # 2]%Q w.

(** The sample scene after the overlay was enabled with alpha 1/10: the
    float32 buffer holds 13421773 / 2^27 for the three wall geoms. *)
Definition painted_model : MjModel :=
  with_alpha [13421773 # 134217728; 13421773 # 134217728; 1 # 4;
              13421773 # 134217728]%Q sample_model.

(** * Properties *)

(** ** Strings *)

Lemma startswith_iff (s pre : string) :
  startswith s pre = true ↔ ∃ t, s = pre +:+ t.
Proof.
  revert s. induction pre as [|c pre IH]; intros s; simpl.
  - split; [intros _; by exists s | done].
  - destruct s as [|d s].
    + split; [done | intros [t Ht]; discriminate].
    + rewrite andb_true_iff, IH, Ascii.eqb_eq. split.
      * intros [-> [t ->]]. by exists t.
      * intros [t Ht]. injection Ht as -> ->. eauto.
Qed.

Lemma string_drop_app (t u : string) :
  string_drop (String.length t) (t +:+ u) = u.
Proof. induction t as [|c t IH]; simpl; [by destruct u | done]. Qed.

Lemma string_length_app (t u : string) :
  String.length (t +:+ u) = String.length t + String.length u.
Proof. induction t as [|c t IH]; simpl; [done | by rewrite IH]. Qed.

Lemma string_drop_split (n : nat) (s : string) :
  n ≤ String.length s →
  ∃ t, s = t +:+ string_drop n s ∧ String.length t = n.
Proof.
  revert s. induction n as [|n IH]; intros s Hn.
  - exists EmptyString. by destruct s.
  - destruct s as [|c s]; simpl in *; [lia|].
    destruct (IH s) as (t & Ht & Hl); [lia|].
    exists (String c t). split; [exact (f_equal (String c) Ht) | simpl; by rewrite Hl].
Qed.

Lemma endswith_iff (s suf : string) :
  endswith s suf = true ↔ ∃ t, s = t +:+ suf.
Proof.
  unfold endswith. rewrite andb_true_iff, Nat.leb_le, String.eqb_eq. split.
  - intros [Hlen Hd].
    destruct (string_drop_split (String.length s - String.length suf) s)
      as (t & Ht & _); [lia|].
    exists t. by rewrite Hd in Ht.
  - intros [t ->]. rewrite string_length_app. split; [lia|].
    replace (String.length t + String.length suf - String.length suf)
      with (String.length t) by lia.
    apply string_drop_app.
Qed.

Lemma name_matches_iff (s w : string) :
  name_matches s w = true ↔ spec_matches s w.
Proof.
  unfold name_matches, spec_matches.
  rewrite !orb_true_iff, String.eqb_eq, startswith_iff, endswith_iff.
  tauto.
Qed.

(** ** Name matching (C2) *)

(** C2.  The condition evaluated by the body loop and by the geometry loop
    of the resolver, for a name [s] and a wall name [w], holds exactly when
    [s] equals [w], or [s] starts with [w + "_"], or [s] ends with
    ["_" + w].  Both loops evaluate this one condition, on the body name,
    respectively on the name of a geom that no collected body owns.  A
    body named ["wall_1"] matches the wall name ["wall"]; a body named
    ["wall1"] does not. *)
Theorem match_rule_three_cases (s w : string) :
  match_name s (PStr w) = Ret (name_matches s w)
  ∧ (name_matches s w = true ↔ spec_matches s w)
  ∧ (∀ model ids b,
       match_body model [PStr w] ids b
       = match body_id2name model b with
         | None => Ret ids
         | Some name =>
             Ret (if name_matches name w then {[Z.of_nat b]} ∪ ids else ids)
         end)
  ∧ (∀ model body_ids ids i,
       match_geom model [PStr w] body_ids ids i
       = match geom_bodyid model !! i with
         | None => Raise IndexError
         | Some owner =>
             if bool_decide (owner ∈ body_ids) then Ret (ids ++ [i])
             else match geom_id2name model i with
                  | None => Ret ids
                  | Some name =>
                      Ret (if name_matches name w then ids ++ [i] else ids)
                  end
         end)
  ∧ match_name "wall_1" (PStr "wall") = Ret true
  ∧ match_name "wall1" (PStr "wall") = Ret false.
Proof.
  split_and!; try reflexivity.
  - apply name_matches_iff.
  - intros model ids b. unfold match_body.
    destruct (body_id2name model b) as [name|]; [|done]. simpl.
    by destruct (name_matches name w).
  - intros model body_ids ids i. unfold match_geom.
    destruct (geom_bodyid model !! i) as [owner|]; [|done].
    case_bool_decide; [done|].
    destruct (geom_id2name model i) as [name|]; [|done]. simpl.
    by destruct (name_matches name w).
Qed.

(** ** Layout wall registry (C7) *)

Lemma enclosing_names_of_records (ws : list pyval) :
  forallb is_dict ws = true →
  enclosing_names_of ws
  = Ret (wall_name <$> filter (fun w => flagged_enclosing w = true) ws).
Proof.
  induction ws as [|w ws IH]; [done|]. simpl.
  intros [Hw Hws]%andb_true_iff. specialize (IH Hws).
  destruct w as [| | | | |d]; try discriminate. simpl.
  rewrite filter_cons. simpl.
  destruct (dict_lookup d "enclosing_wall") as [[| [|] | | | |]|] eqn:E;
    simpl; rewrite IH; try done.
Qed.

Lemma py_or_dict (d : list (string * pyval)) :
  py_or (PDict d) (PDict []) = PDict d.
Proof. by destruct d. Qed.

Lemma py_or_list (l : list pyval) : py_or (PList l) (PList []) = PList l.
Proof. by destruct l. Qed.

Lemma match_geom_ids_no_names (model : MjModel) :
  _match_geom_ids model [] = Ret [].
Proof. reflexivity. Qed.

(** C7.  For every layout descriptor, the registry returns exactly the
    names of the wall records of [room.walls] whose [enclosing_wall] flag
    is the boolean [true] (a truthy flag such as [1] or ["true"] does not
    count), a missing room or a missing walls collection being an empty
    collection; and when no wall is flagged, the resolver, given the
    registry's answer, returns the empty index set for every scene graph. *)
Theorem registry_returns_flagged_names
    (load : Z -> loaded) (lid : Z) (layout : pyval) (model : MjModel) :
  load lid = Loaded layout →
  layout_descriptor layout = true →
  _get_enclosing_wall_names_from_layout load lid
  = Ret (spec_enclosing_names layout)
  ∧ (spec_enclosing_names layout = [] →
     (let* names := _get_enclosing_wall_names_from_layout load lid in
      _match_geom_ids model names) = Ret []).
Proof.
  intros Hload Hwf.
  assert (Hreg : _get_enclosing_wall_names_from_layout load lid
                 = Ret (spec_enclosing_names layout)).
  { unfold _get_enclosing_wall_names_from_layout, spec_enclosing_names.
    rewrite Hload. cbn [outcome_of_load]. unfold layout_descriptor in Hwf.
    unfold walls_of.
    destruct layout as [| | | | |top]; try discriminate; [done|].
    cbn [obind]. rewrite py_or_dict. cbn [py_get obind].
    destruct (dict_lookup top "room") as [[| | | | |room]|];
      try discriminate; [done| |done].
    rewrite py_or_dict. cbn [py_get obind].
    destruct (dict_lookup room "walls") as [[| | | |ws|]|];
      try discriminate; [done| |done].
    rewrite py_or_list. cbn [py_iter obind].
    by apply enclosing_names_of_records. }
  split; [done|].
  intros Hnone. by rewrite Hreg, Hnone.
Qed.

Lemma registry_returns_flagged_names_witness :
  _get_enclosing_wall_names_from_layout (fun _ => Loaded sample_layout) 3
  = Ret [PStr "wall"]
  ∧ (let* names := _get_enclosing_wall_names_from_layout
                     (fun _ => Loaded plain_layout) 3 in
     _match_geom_ids sample_model names) = Ret [].
Proof.
  split.
  - exact (proj1 (registry_returns_flagged_names
                    (fun _ => Loaded sample_layout) 3 sample_layout sample_model
                    eq_refl eq_refl)).
  - exact (proj2 (registry_returns_flagged_names
                    (fun _ => Loaded plain_layout) 3 plain_layout sample_model
                    eq_refl eq_refl) eq_refl).
Defined.

(** Outside layout descriptors the registry raises, as the code does: a
    document that is a non-empty sequence has no [get]. *)
Example registry_rejects_sequence :
  _get_enclosing_wall_names_from_layout (fun _ => Loaded (PList [PInt 1])) 0
  = Raise AttributeError.
Proof. reflexivity. Qed.

(** A flagged wall without a name contributes [None]. *)
Example registry_unnamed_wall :
  _get_enclosing_wall_names_from_layout
    (fun _ => Loaded (PDict [("room",
       PDict [("walls", PList [PDict [("enclosing_wall", PBool true)]])])])) 0
  = Ret [PNone].
Proof. reflexivity. Qed.

(** ** Loops *)

Lemma for_each_inv {S X} (body : S -> X -> outcome S)
    (I : list X -> S -> Prop) (xs : list X) (s s' : S) :
  I [] s →
  (∀ seen x s1 s2, I seen s1 → x ∈ xs → body s1 x = Ret s2 → I (seen ++ [x]) s2) →
  for_each body xs s = Ret s' →
  I xs s'.
Proof.
  intros H0 Hstep.
  cut (∀ rest seen s1, seen ++ rest = xs → I seen s1 →
         for_each body rest s1 = Ret s' → I xs s').
  { intros Hcut. by apply (Hcut xs [] s). }
  induction rest as [|x rest IH]; intros seen s1 Heq HI Hrun; simpl in Hrun.
  - rewrite app_nil_r in Heq. by simplify_eq.
  - destruct (body s1 x) as [s2| |] eqn:Hb; simplify_eq/=.
    apply (IH (seen ++ [x]) s2); [by rewrite <- app_assoc | | done].
    apply (Hstep seen x s1 s2); [done | | done]. set_solver.
Qed.

Lemma for_each_no_fuel {S X} (body : S -> X -> outcome S) (xs : list X) (s : S) :
  (∀ s1 x, body s1 x ≠ OutOfFuel) → for_each body xs s ≠ OutOfFuel.
Proof.
  intros Hb. revert s. induction xs as [|x xs IH]; intros s; simpl; [done|].
  destruct (body s x) eqn:E; simpl; [apply IH | done | by destruct (Hb s x)].
Qed.

Lemma for_each_returns {S X} (body : S -> X -> outcome S) (xs : list X) (s : S) :
  (∀ s1 x, x ∈ xs → ∃ s2, body s1 x = Ret s2) →
  ∃ s', for_each body xs s = Ret s'.
Proof.
  revert s. induction xs as [|x xs IH]; intros s Hb; simpl; [eauto|].
  destruct (Hb s x) as [s2 ->]; [set_solver|]. simpl.
  apply IH. intros s1 y Hy. apply Hb. set_solver.
Qed.

Lemma elem_of_range (n b : nat) : b ∈ range n ↔ b < n.
Proof. unfold range. rewrite elem_of_seq. lia. Qed.

Lemma elem_of_body_range (m : MjModel) (z : Z) :
  z ∈ body_range m ↔ ∃ b, z = Z.of_nat b ∧ b < nbody m.
Proof.
  unfold body_range. rewrite elem_of_list_to_set, list_elem_of_fmap.
  by setoid_rewrite elem_of_range.
Qed.

Lemma size_body_range (m : MjModel) : size (body_range m) = nbody m.
Proof.
  unfold body_range. rewrite size_list_to_set.
  - unfold range. by rewrite length_fmap, length_seq.
  - apply NoDup_fmap_2; [apply _ | apply NoDup_seq].
Qed.

(** ** Matching a name against the wall names *)

Lemma matches_any_no_fuel (name : string) (names : list pyval) :
  matches_any name names ≠ OutOfFuel.
Proof.
  induction names as [|[| | |w| |] names IH]; simpl; try done.
  by destruct (name_matches name w).
Qed.

Lemma matches_any_strings (name : string) (names : list pyval) :
  forallb is_str names = true → ∃ r, matches_any name names = Ret r.
Proof.
  induction names as [|[| | |w| |] names IH]; simpl; try done; [eauto|].
  intros H. destruct (name_matches name w); eauto.
Qed.

Lemma matches_any_hit (name w : string) (names : list pyval) (r : bool) :
  matches_any name names = Ret r →
  PStr w ∈ names → name_matches name w = true → r = true.
Proof.
  induction names as [|v names IH]; intros Hrun Hin Hw; [by inversion Hin|].
  simpl in Hrun. destruct v as [| | |w'| |]; simplify_eq/=.
  destruct (name_matches name w') eqn:E; simplify_eq/=; [done|].
  apply IH; [done | | done].
  apply elem_of_cons in Hin as [Heq|]; [|done]. congruence.
Qed.

(** ** The body-matching loop *)

Lemma match_bodies_spec (m : MjModel) (names : list pyval) (matched : gset Z) :
  for_each (match_body m names) (range (nbody m)) ∅ = Ret matched →
  matched ⊆ body_range m
  ∧ ∀ b name w, b < nbody m → body_id2name m b = Some name →
      PStr w ∈ names → name_matches name w = true → Z.of_nat b ∈ matched.
Proof.
  intros Hrun.
  pose (I := fun (seen : list nat) (ids : gset Z) =>
    (∀ z, z ∈ ids → ∃ b, z = Z.of_nat b ∧ b ∈ seen)
    ∧ ∀ b name w, b ∈ seen → body_id2name m b = Some name →
        PStr w ∈ names → name_matches name w = true → Z.of_nat b ∈ ids).
  assert (HI : I (range (nbody m)) matched).
  { apply (for_each_inv _ I _ _ _) in Hrun; [done | split; set_solver |].
    intros seen x ids ids' [Hb Hm] _ Hstep. unfold match_body in Hstep.
    destruct (body_id2name m x) as [nm|] eqn:Hnm; simplify_eq/=.
    - destruct (matches_any nm names) as [r| |] eqn:Hr; simplify_eq/=. split.
      + intros z Hz. destruct r.
        * apply elem_of_union in Hz as [->%elem_of_singleton|Hz];
            [exists x; set_solver|].
          destruct (Hb z Hz) as (b & -> & ?). exists b. set_solver.
        * destruct (Hb z Hz) as (b & -> & ?). exists b. set_solver.
      + intros b name w Hin Hname Hw Hmatch.
        apply elem_of_app in Hin as [Hin|Hin].
        * specialize (Hm b name w Hin Hname Hw Hmatch). destruct r; set_solver.
        * apply list_elem_of_singleton in Hin as ->. simplify_eq.
          rewrite (matches_any_hit _ _ _ _ Hr Hw Hmatch). set_solver.
    - split.
      + intros z Hz. destruct (Hb z Hz) as (b & -> & ?). exists b. set_solver.
      + intros b name w Hin Hname Hw Hmatch.
        apply elem_of_app in Hin as [Hin|Hin]; [eauto|].
        apply list_elem_of_singleton in Hin as ->. congruence. }
  destruct HI as [Hb Hm]. split.
  - intros z Hz. apply elem_of_body_range. destruct (Hb z Hz) as (b & -> & Hin).
    exists b. by apply elem_of_range in Hin.
  - intros b name w Hlt. apply Hm. by apply elem_of_range.
Qed.

(** ** One pass of the descendant closure *)

Lemma add_child_no_fuel (m : MjModel) (st : gset Z * bool) (b : nat) :
  add_child m st b ≠ OutOfFuel.
Proof.
  unfold add_child. case_bool_decide; [done|].
  destruct (body_parentid m !! b) as [parent|]; [|done].
  by destruct ((0 <=? parent)%Z && bool_decide (parent ∈ st.1)).
Qed.

Lemma closure_pass_no_fuel (m : MjModel) (ids : gset Z) :
  closure_pass m ids ≠ OutOfFuel.
Proof. apply for_each_no_fuel, add_child_no_fuel. Qed.

Lemma closure_pass_inv (m : MjModel) (ids : gset Z) (st : gset Z * bool) :
  closure_pass m ids = Ret st →
  ids ⊆ st.1
  ∧ (∀ z, z ∈ st.1 → z ∈ ids ∨ z ∈ body_range m)
  ∧ (st.2 = false → st.1 = ids ∧ closed_under_children m ids)
  ∧ (st.2 = true → ∃ b, b < nbody m ∧ Z.of_nat b ∉ ids ∧ Z.of_nat b ∈ st.1).
Proof.
  intros Hrun.
  pose (I := fun (seen : list nat) (st : gset Z * bool) =>
    ids ⊆ st.1
    ∧ (∀ z, z ∈ st.1 → z ∈ ids ∨ ∃ b, b ∈ seen ∧ z = Z.of_nat b)
    ∧ (st.2 = false →
       st.1 = ids
       ∧ ∀ b parent, b ∈ seen → body_parentid m !! b = Some parent →
           (0 ≤ parent)%Z → parent ∈ ids → Z.of_nat b ∈ ids)
    ∧ (st.2 = true → ∃ b, b ∈ seen ∧ Z.of_nat b ∉ ids ∧ Z.of_nat b ∈ st.1)).
  assert (HI : I (range (nbody m)) st).
  { apply (for_each_inv _ I _ _ _) in Hrun; [done | |].
    { unfold I. cbn [fst snd]. split_and!; [done | by left | | done].
      intros _. split; [done|]. intros b parent Hb. by inversion Hb. }
    clear Hrun st.
    intros seen x st st' (Hsub & Hbound & Hfalse & Htrue) _ Hstep.
    assert (Hbound' : ∀ z, z ∈ st.1 →
              z ∈ ids ∨ ∃ b, b ∈ seen ++ [x] ∧ z = Z.of_nat b).
    { intros z Hz. destruct (Hbound z Hz) as [|(b & ? & ?)]; [by left|].
      right. exists b. set_solver. }
    assert (Htrue' : st.2 = true →
              ∃ b, b ∈ seen ++ [x] ∧ Z.of_nat b ∉ ids ∧ Z.of_nat b ∈ st.1).
    { intros Ht. destruct (Htrue Ht) as (b & ? & ? & ?). exists b. set_solver. }
    unfold add_child in Hstep. case_bool_decide as Hx.
    - (* already in the set: continue *)
      simplify_eq. unfold I. split_and!; [done | done | | done].
      intros Hf. destruct (Hfalse Hf) as [Heq Hseen]. split; [done|].
      intros b parent Hb Hp Hpos Hpin.
      apply elem_of_app in Hb as [Hb|Hb]; [by apply (Hseen b parent)|].
      apply list_elem_of_singleton in Hb as ->. by rewrite <- Heq.
    - destruct (body_parentid m !! x) as [parent|] eqn:Hp; [|done].
      destruct ((0 <=? parent)%Z && bool_decide (parent ∈ st.1)) eqn:Hc;
        simplify_eq.
      + (* the parent is in the set: add the body and raise the flag *)
        unfold I. cbn [fst snd]. split_and!; [set_solver | | done |].
        * intros z Hz. apply elem_of_union in Hz as [Hz|Hz].
          -- apply elem_of_singleton in Hz as ->. right. exists x. set_solver.
          -- by apply Hbound'.
        * intros _. exists x. set_solver.
      + (* nothing to add *)
        unfold I. split_and!; [done | done | | done].
        intros Hf. destruct (Hfalse Hf) as [Heq Hseen]. split; [done|].
        intros b parent' Hb Hp' Hpos Hpin.
        apply elem_of_app in Hb as [Hb|Hb]; [by apply (Hseen b parent')|].
        apply list_elem_of_singleton in Hb as ->.
        rewrite Hp in Hp'. injection Hp' as <-.
        apply andb_false_iff in Hc as [Hc|Hc].
        * apply Z.leb_gt in Hc. lia.
        * apply bool_decide_eq_false in Hc. by rewrite Heq in Hc. }
  destruct HI as (Hsub & Hbound & Hfalse & Htrue). split_and!.
  - done.
  - intros z Hz. destruct (Hbound z Hz) as [|(b & Hb & ->)]; [by left|].
    right. apply elem_of_body_range. exists b. by apply elem_of_range in Hb.
  - intros Hf. destruct (Hfalse Hf) as [Heq Hseen]. split; [done|].
    intros b parent Hlt. apply Hseen. by apply elem_of_range.
  - intros Ht. destruct (Htrue Ht) as (b & Hb & ? & ?). exists b.
    by apply elem_of_range in Hb.
Qed.

(** A pass that raises the flag removes at least one body from those not
    yet collected. *)
Lemma closure_pass_progress (m : MjModel) (ids ids' : gset Z) :
  closure_pass m ids = Ret (ids', true) →
  size (body_range m ∖ ids') < size (body_range m ∖ ids).
Proof.
  intros (Hsub & _ & _ & Htrue)%closure_pass_inv.
  destruct (Htrue eq_refl) as (b & Hlt & Hnot & Hin). simpl in *.
  apply subset_size. split; [set_solver|].
  intros Hback. specialize (Hback (Z.of_nat b)).
  assert (Z.of_nat b ∈ body_range m) by (apply elem_of_body_range; eauto).
  set_solver.
Qed.

(** ** The [while] loop *)

Lemma closure_loop_enough_fuel (m : MjModel) (fuel : nat) (ids : gset Z) :
  size (body_range m ∖ ids) < fuel →
  closure_loop fuel m ids ≠ OutOfFuel.
Proof.
  revert ids. induction fuel as [|fuel IH]; intros ids Hfuel; [lia|]. simpl.
  destruct (closure_pass m ids) as [[ids' added]| |] eqn:Hpass; simpl.
  - destruct added; [|done]. apply IH.
    apply closure_pass_progress in Hpass. lia.
  - done.
  - by apply closure_pass_no_fuel in Hpass.
Qed.

(** With nothing matched, the first pass adds nothing and is the last. *)
Lemma closure_pass_empty (m : MjModel) (st : gset Z * bool) :
  closure_pass m ∅ = Ret st → st = (∅, false).
Proof.
  intros Hrun.
  apply (for_each_inv _ (fun _ st => st = (∅, false)) _ _ _) in Hrun; [done..|].
  intros _ x st1 st2 -> _ Hstep. unfold add_child in Hstep. simpl in Hstep.
  rewrite bool_decide_eq_false_2 in Hstep by set_solver.
  destruct (body_parentid m !! x) as [parent|]; [|done].
  rewrite (bool_decide_eq_false_2 (parent ∈ ∅)), andb_false_r in Hstep
    by set_solver.
  by simplify_eq.
Qed.

Lemma closure_loop_empty (m : MjModel) (fuel : nat) :
  closure_loop (S fuel) m ∅ ≠ OutOfFuel.
Proof.
  simpl. destruct (closure_pass m ∅) as [st| |] eqn:Hpass; simpl.
  - by apply closure_pass_empty in Hpass as ->.
  - done.
  - by apply closure_pass_no_fuel in Hpass.
Qed.

(** More fuel than needed changes nothing. *)
Lemma closure_loop_more_fuel (m : MjModel) (fuel fuel' : nat) (ids : gset Z) :
  closure_loop fuel m ids ≠ OutOfFuel → fuel ≤ fuel' →
  closure_loop fuel' m ids = closure_loop fuel m ids.
Proof.
  revert fuel' ids. induction fuel as [|fuel IH]; intros fuel' ids Hok Hle;
    [done|].
  destruct fuel' as [|fuel']; [lia|]. simpl in *.
  destruct (closure_pass m ids) as [[ids' added]| |]; simpl in *; try done.
  destruct added; [|done]. apply IH; [done | lia].
Qed.

(** What the loop returns contains what it started from and is closed. *)
Lemma closure_loop_closed (m : MjModel) (fuel : nat) (ids ids' : gset Z) :
  closure_loop fuel m ids = Ret ids' →
  ids ⊆ ids'
  ∧ closed_under_children m ids'
  ∧ (ids ⊆ body_range m → ids' ⊆ body_range m).
Proof.
  revert ids. induction fuel as [|fuel IH]; intros ids Hrun; [done|].
  simpl in Hrun.
  destruct (closure_pass m ids) as [[ids1 added]| |] eqn:Hpass; simplify_eq/=.
  apply closure_pass_inv in Hpass as (Hsub & Hbound & Hfalse & _).
  simpl in *. destruct added.
  - destruct (IH _ Hrun) as (Hsub' & Hclosed & Hrange).
    split; [set_solver|]. split; [done|].
    intros Hin. apply Hrange. intros z Hz.
    destruct (Hbound z Hz); [by apply Hin | done].
  - simplify_eq. destruct (Hfalse eq_refl) as [-> Hclosed]. done.
Qed.

(** Descendants of a collected body are collected. *)
Lemma closed_descendant (m : MjModel) (ids : gset Z) (a d : nat) :
  closed_under_children m ids → Z.of_nat a ∈ ids → descendant m a d →
  Z.of_nat d ∈ ids.
Proof.
  intros Hclosed Ha Hd. induction Hd as [|b p _ IH Hlt Hp]; [done|].
  apply (Hclosed b (Z.of_nat p)); [done | done | lia | done].
Qed.

(** ** The geometry loop *)

Lemma match_geoms_spec (m : MjModel) (names : list pyval) (body_ids : gset Z)
    (G : list nat) :
  for_each (match_geom m names body_ids) (range (ngeom m)) [] = Ret G →
  (∀ i, i ∈ G → i < ngeom m)
  ∧ ∀ i owner, i < ngeom m → geom_bodyid m !! i = Some owner →
      owner ∈ body_ids → i ∈ G.
Proof.
  intros Hrun.
  pose (I := fun (seen G : list nat) =>
    (∀ i, i ∈ G → i ∈ seen)
    ∧ ∀ i owner, i ∈ seen → geom_bodyid m !! i = Some owner →
        owner ∈ body_ids → i ∈ G).
  assert (HI : I (range (ngeom m)) G).
  { apply (for_each_inv _ I _ _ _) in Hrun; [done | split; set_solver |].
    clear Hrun G. intros seen x G G' [Hin Hown] _ Hstep.
    unfold match_geom in Hstep.
    destruct (geom_bodyid m !! x) as [owner|] eqn:Ho; [|done].
    case_bool_decide as Hmem.
    - simplify_eq. split; [set_solver|].
      intros i owner' Hi Ho' Hin'. apply elem_of_app in Hi as [Hi|Hi].
      + apply elem_of_app. left. by apply (Hown i owner').
      + set_solver.
    - assert (Hkeep : ∀ i owner', i ∈ seen ++ [x] →
                geom_bodyid m !! i = Some owner' → owner' ∈ body_ids → i ∈ G).
      { intros i owner' Hi Ho' Hin'. apply elem_of_app in Hi as [Hi|Hi].
        - by apply (Hown i owner').
        - apply list_elem_of_singleton in Hi as ->. by simplify_eq. }
      destruct (geom_id2name m x) as [gname|]; simplify_eq/=.
      + destruct (matches_any gname names) as [[|]| |]; simplify_eq/=.
        * split; [set_solver|]. intros i owner' Hi Ho' Hin'.
          apply elem_of_app. left. by apply (Hkeep i owner').
        * split; [set_solver | done].
      + split; [set_solver | done]. }
  destruct HI as [Hin Hown]. split.
  - intros i Hi. by apply elem_of_range, Hin.
  - intros i owner Hlt. apply Hown. by apply elem_of_range.
Qed.

(** ** The resolver as a whole *)

Lemma size_unvisited_le (m : MjModel) (ids : gset Z) :
  size (body_range m ∖ ids) ≤ nbody m.
Proof.
  rewrite <- (size_body_range m). apply subseteq_size. set_solver.
Qed.

(** The resolver never exhausts the fuel given to its [while] loop. *)
Lemma match_geom_ids_no_fuel (m : MjModel) (names : list pyval) :
  _match_geom_ids m names ≠ OutOfFuel.
Proof.
  unfold _match_geom_ids. destruct names as [|v names]; [done|].
  destruct (for_each (match_body m (v :: names)) (range (nbody m)) ∅)
    as [matched| |] eqn:H1; cbn [obind].
  - destruct (closure_loop (S (nbody m)) m matched) as [body_ids| |] eqn:H2;
      cbn [obind].
    + apply for_each_no_fuel. intros G i. unfold match_geom.
      destruct (geom_bodyid m !! i) as [owner|]; [|done].
      case_bool_decide; [done|].
      destruct (geom_id2name m i) as [gname|]; [|done].
      destruct (matches_any gname (v :: names)) eqn:E; cbn [obind]; try done.
      by apply matches_any_no_fuel in E.
    + done.
    + apply closure_loop_enough_fuel in H2; [done|].
      pose proof (size_unvisited_le m matched). lia.
  - done.
  - apply for_each_no_fuel in H1; [done|]. intros ids b. unfold match_body.
    destruct (body_id2name m b) as [name|]; [|done].
    destruct (matches_any name (v :: names)) eqn:E; cbn [obind]; try done.
    by apply matches_any_no_fuel in E.
Qed.

(** The indices returned are geometry indices of the model. *)
Lemma match_geom_ids_in_range (m : MjModel) (names : list pyval) (G : list nat) :
  _match_geom_ids m names = Ret G → ∀ i, i ∈ G → i < ngeom m.
Proof.
  unfold _match_geom_ids. destruct names as [|v names].
  - intros ? i Hi. simplify_eq. by inversion Hi.
  - intros Hrun.
    destruct (for_each (match_body m (v :: names)) (range (nbody m)) ∅)
      as [matched| |]; cbn [obind] in Hrun; [|done..].
    destruct (closure_loop (S (nbody m)) m matched) as [body_ids| |];
      cbn [obind] in Hrun; [|done..].
    by apply match_geoms_spec in Hrun as [? _].
Qed.

(** Whenever the resolver returns, the geoms of every descendant of a
    matching body are among the indices returned. *)
Lemma resolved_if_returns (m : MjModel) (names : list pyval) (G : list nat)
    (a d i : nat) (name w : string) :
  _match_geom_ids m names = Ret G →
  a < nbody m → body_id2name m a = Some name →
  PStr w ∈ names → name_matches name w = true →
  descendant m a d →
  i < ngeom m → geom_bodyid m !! i = Some (Z.of_nat d) →
  ∃ matched body_ids,
    for_each (match_body m names) (range (nbody m)) ∅ = Ret matched
    ∧ closure_loop (S (nbody m)) m matched = Ret body_ids
    ∧ Z.of_nat a ∈ matched ∧ Z.of_nat d ∈ body_ids ∧ i ∈ G.
Proof.
  intros Hrun Ha Hname Hw Hmatch Hdesc Hi Howner.
  unfold _match_geom_ids in Hrun. destruct names as [|v names];
    [by inversion Hw|].
  destruct (for_each (match_body m (v :: names)) (range (nbody m)) ∅)
    as [matched| |] eqn:H1; cbn [obind] in Hrun; [|done..].
  destruct (closure_loop (S (nbody m)) m matched) as [body_ids| |] eqn:H2;
    cbn [obind] in Hrun; [|done..].
  exists matched, body_ids.
  apply match_bodies_spec in H1 as Hm. destruct Hm as [_ Hm].
  apply closure_loop_closed in H2 as Hc. destruct Hc as (Hsub & Hclosed & _).
  apply match_geoms_spec in Hrun as [_ Hown].
  assert (Hain : Z.of_nat a ∈ matched) by by apply (Hm a name w).
  assert (Hdin : Z.of_nat d ∈ body_ids).
  { apply (closed_descendant m body_ids a d); [done | set_solver | done]. }
  repeat split; try done. by apply (Hown i (Z.of_nat d)).
Qed.

Lemma closure_pass_returns (m : MjModel) (ids : gset Z) :
  length (body_parentid m) = nbody m → ∃ st, closure_pass m ids = Ret st.
Proof.
  intros Hlen. apply for_each_returns. intros st b Hb%elem_of_range.
  unfold add_child. case_bool_decide; [eauto|].
  destruct (lookup_lt_is_Some_2 (body_parentid m) b) as [parent ->]; [lia|].
  destruct ((0 <=? parent)%Z && bool_decide (parent ∈ st.1)); eauto.
Qed.

Lemma closure_loop_returns (m : MjModel) (fuel : nat) (ids : gset Z) :
  length (body_parentid m) = nbody m →
  size (body_range m ∖ ids) < fuel →
  ∃ ids', closure_loop fuel m ids = Ret ids'.
Proof.
  intros Hlen. revert ids. induction fuel as [|fuel IH]; intros ids Hfuel; [lia|].
  simpl. destruct (closure_pass_returns m ids Hlen) as [[ids1 added] Hpass].
  rewrite Hpass. simpl. destruct added; [|eauto].
  apply IH. apply closure_pass_progress in Hpass. lia.
Qed.

(** On a well-formed model and string wall names the resolver returns. *)
Lemma match_geom_ids_returns (m : MjModel) (names : list pyval) :
  wf_model m → forallb is_str names = true →
  ∃ G, _match_geom_ids m names = Ret G.
Proof.
  intros (Hparent & Hgeom & _) Hstr. unfold _match_geom_ids.
  destruct names as [|v names]; [eauto|].
  destruct (for_each_returns (match_body m (v :: names)) (range (nbody m)) ∅)
    as [matched ->].
  { intros ids b _. unfold match_body.
    destruct (body_id2name m b) as [name|]; [|eauto].
    destruct (matches_any_strings name _ Hstr) as [r ->]. cbn [obind]. eauto. }
  cbn [obind].
  destruct (closure_loop_returns m (S (nbody m)) matched Hparent) as [body_ids ->].
  { pose proof (size_unvisited_le m matched). lia. }
  cbn [obind]. apply for_each_returns. intros G i Hi%elem_of_range.
  unfold match_geom.
  destruct (lookup_lt_is_Some_2 (geom_bodyid m) i) as [owner ->]; [lia|].
  case_bool_decide; [eauto|].
  destruct (geom_id2name m i) as [gname|]; [|eauto].
  destruct (matches_any_strings gname _ Hstr) as [r ->]. cbn [obind]. eauto.
Qed.

(** ** Descendant closure (C3) *)

(** C3.  For every well-formed scene graph and every list of wall names:
    when a body [a] matches one of the names, the resolver returns, every
    body [d] below [a] in the parent-pointer tree, at any depth, is in the
    working body set the fixed-point loop ends with, and every geom owned
    by such a [d] is among the geometry indices returned. *)
Theorem descendants_are_resolved (m : MjModel) (names : list pyval)
    (a d i : nat) (name w : string) :
  wf_model m → forallb is_str names = true →
  a < nbody m → body_id2name m a = Some name →
  PStr w ∈ names → name_matches name w = true →
  descendant m a d →
  i < ngeom m → geom_bodyid m !! i = Some (Z.of_nat d) →
  ∃ matched body_ids G,
    for_each (match_body m names) (range (nbody m)) ∅ = Ret matched
    ∧ closure_loop (S (nbody m)) m matched = Ret body_ids
    ∧ _match_geom_ids m names = Ret G
    ∧ Z.of_nat a ∈ matched ∧ Z.of_nat d ∈ body_ids ∧ i ∈ G.
Proof.
  intros Hwf Hstr Ha Hname Hw Hmatch Hdesc Hi Howner.
  destruct (match_geom_ids_returns m names Hwf Hstr) as [G HG].
  destruct (resolved_if_returns m names G a d i name w)
    as (matched & body_ids & ? & ? & ? & ? & ?); try done.
  by exists matched, body_ids, G.
Qed.

Lemma descendants_are_resolved_witness :
  ∃ matched body_ids G,
    for_each (match_body sample_model [PStr "wall"])
             (range (nbody sample_model)) ∅ = Ret matched
    ∧ closure_loop (S (nbody sample_model)) sample_model matched = Ret body_ids
    ∧ _match_geom_ids sample_model [PStr "wall"] = Ret G
    ∧ Z.of_nat 1 ∈ matched ∧ Z.of_nat 3 ∈ body_ids ∧ 1 ∈ G.
Proof.
  apply (descendants_are_resolved sample_model [PStr "wall"] 1 3 1
           "wall_1" "wall").
  - repeat split; reflexivity.
  - reflexivity.
  - simpl; lia.
  - reflexivity.
  - left.
  - reflexivity.
  - apply (descendant_child _ _ 3 2); [|simpl; lia | reflexivity].
    apply (descendant_child _ _ 2 1); [|simpl; lia | reflexivity].
    apply descendant_self.
  - simpl; lia.
  - reflexivity.
Defined.

(** ** Termination of the descendant closure (C10) *)

(** The counter counts the passes of [closure_loop]: both run out of fuel
    together, and both return or raise together. *)
Lemma closure_passes_loop (m : MjModel) (fuel : nat) (ids : gset Z) :
  match closure_passes fuel m ids, closure_loop fuel m ids with
  | Ret n, Ret _ => n ≤ fuel
  | Raise e, Raise e' => e = e'
  | OutOfFuel, OutOfFuel => True
  | _, _ => False
  end.
Proof.
  revert ids. induction fuel as [|fuel IH]; intros ids; [done|]. simpl.
  destruct (closure_pass m ids) as [[ids' added]| |]; simpl; try done.
  destruct added; [|lia]. specialize (IH ids').
  destruct (closure_passes fuel m ids'), (closure_loop fuel m ids');
    simpl; try done. lia.
Qed.

Lemma closure_passes_bound (m : MjModel) (fuel : nat) (ids : gset Z) (n : nat) :
  closure_passes fuel m ids = Ret n →
  1 ≤ n ≤ S (size (body_range m ∖ ids)).
Proof.
  revert ids n. induction fuel as [|fuel IH]; intros ids n Hrun; [done|].
  simpl in Hrun.
  destruct (closure_pass m ids) as [[ids' added]| |] eqn:Hpass;
    cbn [obind fst snd] in Hrun; [|done..].
  destruct added.
  - destruct (closure_passes fuel m ids') as [n'| |] eqn:Hrest;
      cbn [obind] in Hrun; [|done..].
    injection Hrun as <-. apply IH in Hrest.
    apply closure_pass_progress in Hpass. lia.
  - injection Hrun as <-. lia.
Qed.

(** C10.  The fixed-point loop of the resolver terminates on every scene
    graph, and on a scene graph with at least one body (a MuJoCo model
    always has the world body) it completes after at most [nbody] passes:
    a pass that raises the flag [added] strictly enlarges the working set,
    which stays within the [nbody] body indices.  With a parent array of
    the declared length the loop returns. *)
Theorem closure_loop_pass_bound (m : MjModel) (names : list pyval)
    (matched : gset Z) :
  1 ≤ nbody m →
  for_each (match_body m names) (range (nbody m)) ∅ = Ret matched →
  closure_loop (S (nbody m)) m matched ≠ OutOfFuel
  ∧ closure_passes (S (nbody m)) m matched ≠ OutOfFuel
  ∧ (∀ n, closure_passes (S (nbody m)) m matched = Ret n → 1 ≤ n ≤ nbody m)
  ∧ (length (body_parentid m) = nbody m →
     ∃ ids' n, closure_loop (S (nbody m)) m matched = Ret ids'
               ∧ closure_passes (S (nbody m)) m matched = Ret n
               ∧ 1 ≤ n ≤ nbody m)
  ∧ (∀ ids ids', ids ⊆ body_range m →
       closure_pass m ids = Ret (ids', true) →
       ids ⊂ ids' ∧ ids' ⊆ body_range m ∧ size ids < size ids' ≤ nbody m).
Proof.
  intros Hbody Hmatched. apply match_bodies_spec in Hmatched as [Hrange _].
  assert (Hok : closure_loop (S (nbody m)) m matched ≠ OutOfFuel).
  { apply closure_loop_enough_fuel.
    pose proof (size_unvisited_le m matched). lia. }
  assert (Hbound : ∀ n, closure_passes (S (nbody m)) m matched = Ret n →
                     1 ≤ n ≤ nbody m).
  { intros n Hn. destruct (decide (matched = ∅)) as [->|Hne].
    - simpl in Hn.
      destruct (closure_pass m ∅) as [st| |] eqn:Hpass;
        cbn [obind] in Hn; [|done..].
      apply closure_pass_empty in Hpass as ->. cbn [snd] in Hn.
      injection Hn as <-. lia.
    - apply closure_passes_bound in Hn.
      apply set_choose_L in Hne as [z Hz].
      assert (size (body_range m ∖ matched) < size (body_range m)).
      { apply subset_size. split; [set_solver|].
        intros Hback. specialize (Hback z). set_solver. }
      rewrite size_body_range in *. lia. }
  split; [done|]. split; [|split; [done|split]].
  - intros Hout. pose proof (closure_passes_loop m (S (nbody m)) matched) as H.
    rewrite Hout in H. by destruct (closure_loop (S (nbody m)) m matched).
  - intros Hlen.
    destruct (closure_loop_returns m (S (nbody m)) matched Hlen) as [ids' Hret].
    { pose proof (size_unvisited_le m matched). lia. }
    pose proof (closure_passes_loop m (S (nbody m)) matched) as H.
    rewrite Hret in H.
    destruct (closure_passes (S (nbody m)) m matched) as [n| |] eqn:Hn;
      [|done..].
    exists ids', n. split_and!; [done | done | by apply Hbound..].
  - intros ids ids' Hin Hpass.
    apply closure_pass_inv in Hpass as (Hsub & Hbd & _ & Htrue).
    destruct (Htrue eq_refl) as (b & Hlt & Hnot & Hb). cbn [fst snd] in *.
    assert (Hstrict : ids ⊂ ids').
    { split; [done|]. intros Hback. by apply Hnot, Hback. }
    assert (Hrange' : ids' ⊆ body_range m).
    { intros z Hz. destruct (Hbd z Hz); [by apply Hin | done]. }
    split_and!; try done.
    + by apply subset_size.
    + rewrite <- (size_body_range m). by apply subseteq_size.
Qed.

Lemma closure_loop_pass_bound_witness :
  closure_loop (S (nbody sample_model)) sample_model {[Z.of_nat 1]} ≠ OutOfFuel
  ∧ closure_passes (S (nbody sample_model)) sample_model {[Z.of_nat 1]}
    ≠ OutOfFuel
  ∧ (∀ n, closure_passes (S (nbody sample_model)) sample_model {[Z.of_nat 1]}
          = Ret n →
       1 ≤ n ≤ nbody sample_model)
  ∧ (length (body_parentid sample_model) = nbody sample_model →
     ∃ ids' n,
       closure_loop (S (nbody sample_model)) sample_model {[Z.of_nat 1]}
       = Ret ids'
       ∧ closure_passes (S (nbody sample_model)) sample_model {[Z.of_nat 1]}
         = Ret n
       ∧ 1 ≤ n ≤ nbody sample_model)
  ∧ (∀ ids ids', ids ⊆ body_range sample_model →
       closure_pass sample_model ids = Ret (ids', true) →
       ids ⊂ ids' ∧ ids' ⊆ body_range sample_model
       ∧ size ids < size ids' ≤ nbody sample_model).
Proof.
  apply (closure_loop_pass_bound sample_model [PStr "wall"]).
  - cbn. lia.
  - vm_compute. reflexivity.
Defined.

(** The sample scene takes two passes: the first adds the child and the
    grandchild of the wall body, the second finds nothing to add. *)
Example closure_passes_sample :
  closure_passes (S (nbody sample_model)) sample_model {[Z.of_nat 1]} = Ret 2.
Proof. vm_compute. reflexivity. Qed.

(** Why the bound asks for a body: on a scene graph without any (which
    MuJoCo never builds) the first loop matches nothing and the [while]
    loop still makes the one pass that finds nothing to add. *)
Example closure_loop_without_bodies :
  for_each (match_body empty_model [PStr "wall"])
           (range (nbody empty_model)) ∅ = Ret ∅
  ∧ closure_passes (S (nbody empty_model)) empty_model ∅ = Ret 1.
Proof. split; reflexivity. Qed.

(** ** The overlay state machine: building blocks *)

Lemma wrapper_eta (s : State) :
  set_geom_ids (_geom_ids (wrapper s)) s = s.
Proof. by destruct s as [[] ?]. Qed.

Lemma live_model_env_set_alpha (buf : list Q) (e : Env) :
  match sim (_unwrap_env (env_set_alpha buf e)) with
  | Some (Some s) => model s
  | _ => None
  end
  = with_alpha buf <$> match sim (_unwrap_env e) with
                       | Some (Some s) => model s
                       | _ => None
                       end.
Proof.
  induction e as [b|inner IH]; simpl; [|done].
  by destruct b as [[[[mo]|]|] lid].
Qed.

Lemma live_model_set_alpha (buf : list Q) (w : World) :
  live_model (world_set_alpha buf w) = with_alpha buf <$> live_model w.
Proof. apply live_model_env_set_alpha. Qed.

Lemma layout_id_set_alpha (buf : list Q) (w : World) :
  layout_id (_unwrap_env (env (world_set_alpha buf w)))
  = layout_id (_unwrap_env (env w)).
Proof.
  simpl. induction (env w) as [b|inner IH]; simpl; [|done].
  by destruct b as [[[[mo]|]|] lid].
Qed.

Lemma assign_all_length (ids : list nat) (v : Q) (buf : list Q) :
  length (assign_all ids v buf) = length buf.
Proof.
  induction ids as [|gi ids IH]; simpl; [done|]. by rewrite length_insert.
Qed.

Lemma assign_all_in (ids : list nat) (v : Q) (buf : list Q) (gi : nat) :
  gi ∈ ids → gi < length buf → assign_all ids v buf !! gi = Some v.
Proof.
  intros Hin Hlt. induction ids as [|x ids IH]; [by inversion Hin|]. simpl.
  destruct (decide (x = gi)) as [->|Hne].
  - apply list_lookup_insert_eq. by rewrite assign_all_length.
  - rewrite list_lookup_insert_ne by done. apply IH.
    apply elem_of_cons in Hin as [?|?]; [congruence | done].
Qed.

Lemma assign_all_out (ids : list nat) (v : Q) (buf : list Q) (gi : nat) :
  gi ∉ ids → assign_all ids v buf !! gi = buf !! gi.
Proof.
  intros Hout. induction ids as [|x ids IH]; [done|]. simpl.
  rewrite list_lookup_insert_ne by set_solver. apply IH. set_solver.
Qed.

Lemma enclosing_names_of_no_fuel (ws : list pyval) :
  enclosing_names_of ws ≠ OutOfFuel.
Proof.
  induction ws as [|w ws IH]; [done|]. simpl.
  destruct w as [| | | | |d]; try done. cbn [py_get obind].
  destruct (is_True _); [|done]. cbn [obind].
  by destruct (enclosing_names_of ws).
Qed.

Lemma registry_no_fuel (load : Z -> loaded) (lid : Z) :
  _get_enclosing_wall_names_from_layout load lid ≠ OutOfFuel.
Proof.
  unfold _get_enclosing_wall_names_from_layout.
  destruct (load lid) as [v|e]; [|done]. cbn [outcome_of_load obind].
  destruct (py_get (py_or v (PDict [])) "room" PNone) as [room| |] eqn:E1;
    [|done|by destruct (py_or v (PDict []))]. cbn [obind].
  destruct (py_get (py_or room (PDict [])) "walls" PNone) as [walls| |] eqn:E2;
    [|done|by destruct (py_or room (PDict []))]. cbn [obind].
  destruct (py_iter (py_or walls (PList []))) as [ws| |] eqn:E3;
    [|done|by destruct (py_or walls (PList []))]. cbn [obind].
  apply enclosing_names_of_no_fuel.
Qed.

Lemma resolve_no_fuel (w : World) : resolve w ≠ OutOfFuel.
Proof.
  unfold resolve.
  destruct (sim (_unwrap_env (env w))) as [[the_sim|]|]; try done.
  destruct (layout_id (_unwrap_env (env w))) as [lid|]; [|done].
  destruct (_get_enclosing_wall_names_from_layout (load_layout w) lid)
    as [names| |] eqn:E; cbn [obind].
  - destruct (model the_sim); [apply match_geom_ids_no_fuel | done].
  - done.
  - by apply registry_no_fuel in E.
Qed.

Lemma get_ids_spec (s : State) :
  let r := match _geom_ids (wrapper s) with
           | Some ids => Ret ids
           | None => resolve (world s)
           end in
  _get_enclosing_wall_geom_ids s
  = (r, match r with Ret ids => set_geom_ids (Some ids) s | _ => s end).
Proof.
  unfold _get_enclosing_wall_geom_ids, mbind, StM_bind, gets. cbn beta iota.
  destruct (_geom_ids (wrapper s)) as [ids|] eqn:Hc.
  - cbn. by rewrite <- Hc, wrapper_eta.
  - unfold resolve.
    destruct (sim (_unwrap_env (env (world s)))) as [[the_sim|]|]; try done.
    destruct (layout_id (_unwrap_env (env (world s)))) as [lid|]; [|done].
    unfold lift.
    destruct (_get_enclosing_wall_names_from_layout (load_layout (world s)) lid)
      as [names| |]; cbn [obind]; try done.
    destruct (model the_sim) as [mdl|]; [|done].
    by destruct (_match_geom_ids mdl names).
Qed.

Lemma saved_alpha_eta (s : State) :
  set_saved_alpha (_saved_alpha (wrapper s)) s = s.
Proof. by destruct s as [[] ?]. Qed.

Lemma save_original_spec (gi : nat) (s : State) (m : MjModel) (a : Q) :
  live_model (world s) = Some m →
  geom_rgba_alpha m !! gi = Some a →
  save_original gi s
  = (Ret tt,
     set_saved_alpha
       (match _saved_alpha (wrapper s) !! gi with
        | Some _ => _saved_alpha (wrapper s)
        | None => <[gi := a]> (_saved_alpha (wrapper s))
        end) s).
Proof.
  intros Hm Ha. unfold save_original, mbind, StM_bind, gets, read_alpha, modify.
  cbn beta iota.
  destruct (_saved_alpha (wrapper s) !! gi) as [a0|].
  - by rewrite saved_alpha_eta.
  - by rewrite Hm, Ha.
Qed.

Lemma for_cons {S X} (x : X) (xs : list X) (body : X -> StM S unit) (s : S) :
  for_ (x :: xs) body s
  = match body x s with
    | (Ret _, s') => for_ xs body s'
    | (Raise e, s') => (Raise e, s')
    | (OutOfFuel, s') => (OutOfFuel, s')
    end.
Proof.
  cbn [for_]. unfold mbind, StM_bind.
  by destruct (body x s) as [[[]| |] s'].
Qed.

Lemma save_originals_spec (ids : list nat) (s : State) (m : MjModel) :
  live_model (world s) = Some m →
  (∀ gi, gi ∈ ids → gi < length (geom_rgba_alpha m)) →
  for_ ids save_original s
  = (Ret tt, set_saved_alpha
               (save_all ids (geom_rgba_alpha m) (_saved_alpha (wrapper s))) s).
Proof.
  revert s. induction ids as [|gi ids IH]; intros s Hm Hin.
  - cbn. by rewrite saved_alpha_eta.
  - destruct (lookup_lt_is_Some_2 (geom_rgba_alpha m) gi) as [a Ha];
      [apply Hin; set_solver|].
    rewrite for_cons, (save_original_spec gi s m a Hm Ha).
    rewrite IH; [|done|intros; apply Hin; set_solver].
    cbn [save_all foldl]. rewrite Ha.
    by destruct (_saved_alpha (wrapper s) !! gi).
Qed.

Lemma write_alpha_spec (ids : list nat) (v : Q) (s : State) (m : MjModel) :
  live_model (world s) = Some m →
  (∀ gi, gi ∈ ids → gi < length (geom_rgba_alpha m)) →
  write_alpha ids v s
  = (Ret tt,
     set_world
       (world_set_alpha (assign_all ids (geom_rgba_cast m v) (geom_rgba_alpha m))
          (world s)) s).
Proof.
  intros Hm Hin. unfold write_alpha. rewrite Hm.
  rewrite (proj2 (forallb_forall _ _)); [done|].
  intros gi Hgi%list_elem_of_In. apply Nat.ltb_lt. by apply Hin.
Qed.

(** [_apply_or_restore] without a live scene graph does nothing. *)
Lemma apply_no_model (s : State) :
  live_model (world s) = None → _apply_or_restore s = (Ret tt, s).
Proof.
  intros Hm. unfold _apply_or_restore, mbind, StM_bind, gets. by rewrite Hm.
Qed.

Lemma apply_start (s : State) (m : MjModel) :
  live_model (world s) = Some m →
  _apply_or_restore s = apply_tail (refresh_token m s).
Proof.
  intros Hm. unfold _apply_or_restore, mbind, StM_bind, gets. rewrite Hm.
  cbn beta iota. unfold refresh_token. by case_bool_decide.
Qed.

(** [_apply_or_restore] on a live scene graph, as one equation. *)
Lemma apply_live (s : State) (m : MjModel) :
  live_model (world s) = Some m →
  (∀ ids, _geom_ids (wrapper (refresh_token m s)) = Some ids →
     ∀ gi, gi ∈ ids → gi < length (geom_rgba_alpha m)) →
  (∀ ids, resolve (world s) = Ret ids →
     ∀ gi, gi ∈ ids → gi < length (geom_rgba_alpha m)) →
  let s1 := refresh_token m s in
  let r := match _geom_ids (wrapper s1) with
           | Some ids => Ret ids
           | None => resolve (world s)
           end in
  _apply_or_restore s
  = match r with
    | Ret [] => (Ret tt, set_geom_ids (Some []) s1)
    | Ret ids =>
        let s2 := set_geom_ids (Some ids) s1 in
        if enabled (wrapper s) then
          (Ret tt,
           set_world
             (world_set_alpha
                (assign_all ids (geom_rgba_cast m (alpha (wrapper s)))
                   (geom_rgba_alpha m)) (world s))
             (set_saved_alpha
                (save_all ids (geom_rgba_alpha m) (_saved_alpha (wrapper s1))) s2))
        else
          (Ret tt,
           set_saved_alpha ∅
             (set_world
                (world_set_alpha
                   (assign_all ids (geom_rgba_cast m 1) (geom_rgba_alpha m))
                   (world s))
                s2))
    | Raise e => (Raise e, s1)
    | OutOfFuel => (OutOfFuel, s1)
    end.
Proof.
  intros Hm Hcached Hfresh s1 r.
  assert (Hw1 : world s1 = world s).
  { unfold s1, refresh_token. by case_bool_decide. }
  assert (He1 : enabled (wrapper s1) = enabled (wrapper s)
                ∧ alpha (wrapper s1) = alpha (wrapper s)).
  { unfold s1, refresh_token. by case_bool_decide. }
  destruct He1 as [He1 Ha1].
  rewrite (apply_start s m Hm). fold s1. unfold apply_tail.
  unfold mbind at 1. unfold StM_bind at 1.
  pose proof (get_ids_spec s1) as Hget. cbn zeta in Hget.
  rewrite Hw1 in Hget. fold r in Hget. rewrite Hget.
  assert (Hrange : ∀ ids, r = Ret ids →
            ∀ gi, gi ∈ ids → gi < length (geom_rgba_alpha m)).
  { intros ids Hr. unfold r in Hr.
    destruct (_geom_ids (wrapper s1)) as [ids'|] eqn:Hc.
    - simplify_eq. by apply Hcached.
    - by apply Hfresh. }
  destruct r as [ids| |]; [|done..].
  destruct ids as [|gi ids]; [done|].
  specialize (Hrange _ eq_refl).
  set (s2 := set_geom_ids (Some (gi :: ids)) s1).
  assert (Hm2 : live_model (world s2) = Some m) by (by rewrite <- Hm, <- Hw1).
  unfold mbind, StM_bind, gets. cbn beta iota.
  change (enabled (wrapper s2)) with (enabled (wrapper s1)). rewrite He1.
  destruct (enabled (wrapper s)).
  - rewrite (save_originals_spec _ s2 m Hm2 Hrange).
    rewrite (write_alpha_spec _ _ _ m); [|done|done].
    change (alpha (wrapper s2)) with (alpha (wrapper s1)). rewrite Ha1.
    cbn [world set_saved_alpha]. change (world s2) with (world s1).
    by rewrite Hw1.
  - rewrite (write_alpha_spec _ _ _ m Hm2 Hrange). unfold modify.
    cbn [world]. change (world s2) with (world s1). by rewrite Hw1.
Qed.

(** ** What [_apply_or_restore] never touches *)

Lemma world_eta (s : State) : set_world (world s) s = s.
Proof. by destruct s. Qed.

Lemma save_originals_shape (ids : list nat) (s : State) :
  ∃ r sa, for_ ids save_original s = (r, set_saved_alpha sa s) ∧ r ≠ OutOfFuel.
Proof.
  revert s. induction ids as [|gi ids IH]; intros s.
  - exists (Ret tt), (_saved_alpha (wrapper s)). by rewrite saved_alpha_eta.
  - rewrite for_cons.
    assert (Hone : ∃ r sa, save_original gi s = (r, set_saved_alpha sa s)
                           ∧ r ≠ OutOfFuel).
    { unfold save_original, mbind, StM_bind, gets, read_alpha, modify.
      cbn beta iota.
      destruct (_saved_alpha (wrapper s) !! gi) as [a0|].
      - exists (Ret tt), (_saved_alpha (wrapper s)). by rewrite saved_alpha_eta.
      - destruct (live_model (world s)) as [m|].
        + destruct (geom_rgba_alpha m !! gi) as [a|].
          * by eexists (Ret tt), _.
          * exists (Raise IndexError), (_saved_alpha (wrapper s)).
            by rewrite saved_alpha_eta.
        + exists (Raise AttributeError), (_saved_alpha (wrapper s)).
          by rewrite saved_alpha_eta. }
    destruct Hone as (r & sa & -> & Hr). destruct r as [[]|e|]; [|eauto|done].
    destruct (IH (set_saved_alpha sa s)) as (r' & sa' & -> & Hr').
    by exists r', sa'.
Qed.

Lemma write_alpha_shape (ids : list nat) (v : Q) (s : State) :
  ∃ r w', write_alpha ids v s = (r, set_world w' s) ∧ r ≠ OutOfFuel.
Proof.
  unfold write_alpha. destruct (live_model (world s)) as [m|].
  - destruct (forallb _ ids).
    + by eexists (Ret tt), _.
    + exists (Raise IndexError), (world s). by rewrite world_eta.
  - exists (Raise AttributeError), (world s). by rewrite world_eta.
Qed.

Lemma refresh_token_switch (m : MjModel) (s : State) :
  same_switch s (refresh_token m s).
Proof. unfold refresh_token. by case_bool_decide. Qed.

Lemma apply_tail_frame (s : State) :
  ∃ r s', apply_tail s = (r, s') ∧ r ≠ OutOfFuel ∧ same_switch s s'.
Proof.
  unfold apply_tail. unfold mbind at 1. unfold StM_bind at 1.
  rewrite (get_ids_spec s). cbn zeta.
  set (r := match _geom_ids (wrapper s) with
            | Some ids => Ret ids
            | None => resolve (world s)
            end).
  assert (Hr : r ≠ OutOfFuel).
  { unfold r. destruct (_geom_ids (wrapper s)); [done | apply resolve_no_fuel]. }
  destruct r as [ids|e|]; [|by eexists _, _|done].
  destruct ids as [|gi ids]; [by eexists _, _|].
  set (s2 := set_geom_ids (Some (gi :: ids)) s).
  unfold mbind, StM_bind, gets. cbn beta iota.
  destruct (enabled (wrapper s2)) eqn:He.
  - destruct (save_originals_shape (gi :: ids) s2) as (r1 & sa & -> & Hr1).
    destruct r1 as [[]|e|]; [|by eexists _, _|done].
    destruct (write_alpha_shape (gi :: ids) (alpha (wrapper s2))
                (set_saved_alpha sa s2)) as (r2 & w' & -> & Hr2).
    by eexists _, _.
  - destruct (write_alpha_shape (gi :: ids) 1 s2) as (r2 & w' & -> & Hr2).
    destruct r2 as [[]|e|]; [|by eexists _, _|done].
    by eexists _, _.
Qed.

(** Whatever the state, [_apply_or_restore] returns or raises, and leaves
    the switch and the configured alpha alone. *)
Lemma apply_frame (s : State) :
  ∃ r s', _apply_or_restore s = (r, s') ∧ r ≠ OutOfFuel ∧ same_switch s s'.
Proof.
  destruct (live_model (world s)) as [m|] eqn:Hm.
  - rewrite (apply_start s m Hm).
    destruct (apply_tail_frame (refresh_token m s)) as (r & s' & -> & Hr & Hs).
    exists r, s'. repeat split; [done|..].
    + rewrite (proj1 Hs). apply refresh_token_switch.
    + rewrite (proj2 Hs). apply refresh_token_switch.
  - rewrite (apply_no_model s Hm). by eexists _, _.
Qed.

Lemma set_enabled_unfold (b : bool) (s : State) :
  set_enabled b s
  = if Bool.eqb b (enabled (wrapper s)) then (Ret tt, s)
    else _apply_or_restore (set_enabled_attr b s).
Proof.
  unfold set_enabled, mbind, StM_bind, gets, modify. cbn beta iota.
  by destruct (Bool.eqb b (enabled (wrapper s))).
Qed.

(** After [set_enabled(b)] the switch is [b], whatever else happened. *)
Lemma set_enabled_frame (b : bool) (s : State) :
  ∃ r s', set_enabled b s = (r, s') ∧ r ≠ OutOfFuel
          ∧ enabled (wrapper s') = b ∧ alpha (wrapper s') = alpha (wrapper s).
Proof.
  rewrite set_enabled_unfold.
  destruct (Bool.eqb b (enabled (wrapper s))) eqn:E.
  - apply Bool.eqb_prop in E. by eexists _, _.
  - destruct (apply_frame (set_enabled_attr b s)) as (r & s' & -> & Hr & He & Ha).
    by exists r, s'.
Qed.

(** ** Soundness of the overlay on well-formed sessions *)

(** Projections of updated states. *)
Ltac state_simpl :=
  cbn [world wrapper set_world set_saved_alpha set_geom_ids
       set_last_model_ptr set_enabled_attr alpha enabled _geom_ids
       _saved_alpha _last_model_ptr fst snd] in *.

Lemma resolve_in_range (w : World) (m : MjModel) (ids : list nat) :
  live_model w = Some m → resolve w = Ret ids →
  ∀ gi, gi ∈ ids → gi < ngeom m.
Proof.
  unfold live_model, resolve.
  destruct (sim (_unwrap_env (env w))) as [[the_sim|]|]; try done.
  intros Hm.
  destruct (layout_id (_unwrap_env (env w))) as [lid|].
  - destruct (_get_enclosing_wall_names_from_layout (load_layout w) lid)
      as [names| |]; cbn [obind]; try done.
    rewrite Hm. apply match_geom_ids_in_range.
  - intros [= <-] gi Hgi. by inversion Hgi.
Qed.

Lemma refresh_token_world (m : MjModel) (s : State) :
  world (refresh_token m s) = world s.
Proof. unfold refresh_token. by case_bool_decide. Qed.

Lemma refresh_token_ptr (m : MjModel) (s : State) :
  _last_model_ptr (wrapper (refresh_token m s)) = Some (py_id m).
Proof. unfold refresh_token. by case_bool_decide. Qed.

Lemma refresh_token_cache (m : MjModel) (s : State) (ids : list nat) :
  _geom_ids (wrapper (refresh_token m s)) = Some ids →
  _geom_ids (wrapper s) = Some ids
  ∧ _last_model_ptr (wrapper s) = Some (py_id m).
Proof. unfold refresh_token. by case_bool_decide. Qed.

Lemma wf_with_alpha (buf : list Q) (m : MjModel) :
  wf_model m → length buf = ngeom m → wf_model (with_alpha buf m).
Proof. by intros (? & ? & ?) ?. Qed.

(** One call of [_apply_or_restore] on a well-formed session whose cache,
    if it is for the live scene graph, holds indices of it: afterwards the
    cache is coherent and the invariant holds. *)
Lemma apply_sound (s : State) :
  wf_world (world s) →
  (∀ m, live_model (world s) = Some m → cache_in_range s m) →
  let s' := (_apply_or_restore s).2 in
  wf_world (world s') ∧ coherent s' ∧ overlay_invariant s'.
Proof.
  intros Hwf Hpre.
  destruct (live_model (world s)) as [m|] eqn:Hm.
  2:{ rewrite (apply_no_model s Hm). cbn [snd]. split; [done|]. split.
      - intros m ids Hm'. congruence.
      - intros m ids gi Hm'. congruence. }
  destruct (Hwf m Hm) as (Hparent & Hgeom & Hbuf).
  pose proof (apply_live s m Hm) as Heq. cbn zeta in Heq.
  rewrite Heq; clear Heq.
  2:{ intros ids [Hc Hp]%refresh_token_cache gi Hgi. rewrite Hbuf.
      by apply (Hpre m eq_refl ids). }
  2:{ intros ids Hr gi Hgi. rewrite Hbuf.
      by apply (resolve_in_range (world s) m ids). }
  set (s1 := refresh_token m s).
  assert (Hw1 : world s1 = world s) by apply refresh_token_world.
  assert (Hp1 : _last_model_ptr (wrapper s1) = Some (py_id m))
    by apply refresh_token_ptr.
  assert (Hrange : ∀ ids,
    match _geom_ids (wrapper s1) with
    | Some ids => Ret ids
    | None => resolve (world s)
    end = Ret ids → ∀ gi, gi ∈ ids → gi < ngeom m).
  { intros ids Hr. destruct (_geom_ids (wrapper s1)) as [ids'|] eqn:Hc.
    - simplify_eq. apply refresh_token_cache in Hc as [Hc Hp].
      by apply (Hpre m eq_refl ids).
    - by apply (resolve_in_range (world s) m ids). }
  destruct (match _geom_ids (wrapper s1) with
            | Some ids => Ret ids
            | None => resolve (world s)
            end) as [ids|e|] eqn:Hr.
  - specialize (Hrange ids eq_refl).
    destruct ids as [|g0 ids].
    + (* nothing resolved *)
      cbn [snd]. split; [|split].
      * cbn [world set_geom_ids]. by rewrite Hw1.
      * intros m' ids' Hm' Hc. state_simpl. rewrite Hw1 in Hm'.
        simplify_eq. split; [done|]. by inversion 1.
      * intros m' ids' gi Hm' Hc Hgi. state_simpl. simplify_eq. by inversion Hgi.
    + set (ids0 := g0 :: ids) in *.
      destruct (enabled (wrapper s)) eqn:He; cbn [snd].
      * (* enabled: the overlay alpha is written *)
        assert (Hlive : live_model (world_set_alpha
                  (assign_all ids0 (geom_rgba_cast m (alpha (wrapper s)))
                     (geom_rgba_alpha m))
                  (world s))
                = Some (with_alpha
                  (assign_all ids0 (geom_rgba_cast m (alpha (wrapper s)))
                     (geom_rgba_alpha m)) m)).
        { by rewrite live_model_set_alpha, Hm. }
        split; [|split].
        -- intros m' Hm'. state_simpl. rewrite Hlive in Hm'. simplify_eq.
           apply wf_with_alpha; [done|]. by rewrite assign_all_length.
        -- intros m' ids' Hm' Hc. state_simpl. rewrite Hlive in Hm'.
           simplify_eq. done.
        -- intros m' ids' gi Hm' Hc Hgi. state_simpl. rewrite Hlive in Hm'.
           simplify_eq. cbn [geom_rgba_alpha geom_rgba_cast with_alpha].
           rewrite assign_all_in; [|done|rewrite Hbuf; by apply Hrange].
           unfold overlay_alpha, s1, refresh_token.
           case_bool_decide; cbn; by rewrite He.
      * (* disabled: 1.0 is written *)
        assert (Hlive : live_model (world_set_alpha
                  (assign_all ids0 (geom_rgba_cast m 1) (geom_rgba_alpha m))
                  (world s))
                = Some (with_alpha
                  (assign_all ids0 (geom_rgba_cast m 1) (geom_rgba_alpha m)) m)).
        { by rewrite live_model_set_alpha, Hm. }
        split; [|split].
        -- intros m' Hm'. state_simpl. rewrite Hlive in Hm'. simplify_eq.
           apply wf_with_alpha; [done|]. by rewrite assign_all_length.
        -- intros m' ids' Hm' Hc. state_simpl. rewrite Hlive in Hm'.
           simplify_eq. done.
        -- intros m' ids' gi Hm' Hc Hgi. state_simpl. rewrite Hlive in Hm'.
           simplify_eq. cbn [geom_rgba_alpha geom_rgba_cast with_alpha].
           rewrite assign_all_in; [|done|rewrite Hbuf; by apply Hrange].
           unfold overlay_alpha, s1, refresh_token.
           case_bool_decide; cbn; by rewrite He.
  - (* resolution raised: nothing is cached *)
    cbn [snd]. rewrite Hw1.
    assert (Hnone : _geom_ids (wrapper s1) = None)
      by (by destruct (_geom_ids (wrapper s1))).
    split; [done|]. split.
    + intros m' ids' _ Hc. congruence.
    + intros m' ids' gi _ Hc. congruence.
  - exfalso. destruct (_geom_ids (wrapper s1)); [done|].
    by apply resolve_no_fuel in Hr.
Qed.

Lemma toggle_unfold (s : State) :
  toggle s = set_enabled (negb (enabled (wrapper s))) s.
Proof. reflexivity. Qed.

Lemma visualize_unfold (env_visualize : World -> World) (s : State) :
  visualize env_visualize s
  = _apply_or_restore (set_world (env_visualize (world s)) s).
Proof. reflexivity. Qed.

Lemma reset_unfold (env_reset : World -> World) (s : State) :
  reset env_reset s
  = let s0 := set_last_model_ptr None
                (set_saved_alpha ∅
                   (set_geom_ids None (set_world (env_reset (world s)) s))) in
    if enabled (wrapper s) then _apply_or_restore s0 else (Ret tt, s0).
Proof.
  unfold reset, mbind, StM_bind, gets, modify. cbn beta iota zeta.
  state_simpl. by destruct (enabled (wrapper s)).
Qed.

Lemma set_enabled_sound (b : bool) (s : State) :
  wf_world (world s) → coherent s → overlay_invariant s →
  let s' := (set_enabled b s).2 in
  wf_world (world s') ∧ coherent s' ∧ overlay_invariant s'.
Proof.
  intros Hwf Hcoh Hinv. rewrite set_enabled_unfold.
  destruct (Bool.eqb b (enabled (wrapper s))); [done|].
  apply apply_sound; [done|].
  intros m Hm ids Hc _. by apply (Hcoh m ids).
Qed.

(** Construction with the default [enabled = False] resolves nothing and
    writes nothing: the cache is empty and the scene keeps its alpha. *)
Example construction_leaves_scene :
  (__init__ sample_world (1 # 10) false).1 = Ret tt
  ∧ _geom_ids (wrapper (__init__ sample_world (1 # 10) false).2) = None
  ∧ world (__init__ sample_world (1 # 10) false).2 = sample_world.
Proof. repeat split. Qed.

(** Construction with [enabled = True] resolves the walls and writes the
    overlay alpha to them; the float32 buffer of the sample holds 0.1 as
    13421773 / 2^27. *)
Example construction_enabled :
  (__init__ sample_world (1 # 10) true).1 = Ret tt
  ∧ _geom_ids (wrapper (__init__ sample_world (1 # 10) true).2)
    = Some [0; 1; 3]
  ∧ (geom_rgba_alpha <$> live_model (world (__init__ sample_world (1 # 10) true).2))
    = Some [13421773 # 134217728; 13421773 # 134217728; 1 # 4;
            13421773 # 134217728]%Q.
Proof. vm_compute. repeat split. Qed.

(** ** A successful [_apply_or_restore] *)

Lemma unwrap_env_set_alpha (buf : list Q) (e : Env) :
  _unwrap_env (env_set_alpha buf e) = base_set_alpha buf (_unwrap_env e).
Proof. induction e as [b|inner IH]; [done|]. apply IH. Qed.

Lemma closure_loop_with_alpha (buf : list Q) (m : MjModel) (fuel : nat)
    (ids : gset Z) :
  closure_loop fuel (with_alpha buf m) ids = closure_loop fuel m ids.
Proof.
  revert ids. induction fuel as [|fuel IH]; intros ids; [done|]. simpl.
  change (closure_pass (with_alpha buf m) ids) with (closure_pass m ids).
  destruct (closure_pass m ids) as [[ids' added]| |]; simpl; try done.
  destruct added; [apply IH | done].
Qed.

Lemma match_geom_ids_with_alpha (buf : list Q) (m : MjModel) (names : list pyval) :
  _match_geom_ids (with_alpha buf m) names = _match_geom_ids m names.
Proof.
  unfold _match_geom_ids. destruct names as [|v names]; [done|].
  change (for_each (match_body (with_alpha buf m) (v :: names))
            (range (nbody (with_alpha buf m))) ∅)
    with (for_each (match_body m (v :: names)) (range (nbody m)) ∅).
  destruct (for_each (match_body m (v :: names)) (range (nbody m)) ∅)
    as [matched| |]; cbn [obind]; try done.
  change (nbody (with_alpha buf m)) with (nbody m).
  rewrite closure_loop_with_alpha.
  destruct (closure_loop (S (nbody m)) m matched) as [body_ids| |];
    cbn [obind]; try done.
Qed.

Lemma resolve_set_alpha (buf : list Q) (w : World) :
  resolve (world_set_alpha buf w) = resolve w.
Proof.
  unfold resolve. cbn [env load_layout world_set_alpha].
  rewrite unwrap_env_set_alpha.
  destruct (_unwrap_env (env w)) as [[[[mo]|]|] lid]; try done.
  cbn. destruct lid as [lid|]; [|done].
  destruct (_get_enclosing_wall_names_from_layout (load_layout w) lid); try done.
  cbn [obind]. destruct mo; [|done]. apply match_geom_ids_with_alpha.
Qed.

Lemma with_alpha_eta (m : MjModel) : with_alpha (geom_rgba_alpha m) m = m.
Proof. by destruct m. Qed.

(** On a live, well-formed scene graph, with a cache that is either
    usable or can be resolved afresh, [_apply_or_restore] returns; the
    cache is then filled, its geoms carry the prescribed alpha and no other
    geom changed. *)
Lemma apply_ok (s : State) (m : MjModel) :
  live_model (world s) = Some m → wf_model m → cache_in_range s m →
  (_geom_ids (wrapper (refresh_token m s)) = None →
   ∃ ids0, resolve (world s) = Ret ids0) →
  ∃ ids buf s',
    _apply_or_restore s = (Ret tt, s')
    ∧ same_switch s s'
    ∧ _geom_ids (wrapper s') = Some ids
    ∧ _last_model_ptr (wrapper s') = Some (py_id m)
    ∧ live_model (world s') = Some (with_alpha buf m)
    ∧ length buf = ngeom m
    ∧ (∀ gi, gi ∈ ids → gi < ngeom m)
    ∧ (∀ gi, gi ∈ ids →
         buf !! gi = Some (geom_rgba_cast m (overlay_alpha (wrapper s))))
    ∧ (∀ gi, gi ∉ ids → buf !! gi = geom_rgba_alpha m !! gi)
    ∧ (_geom_ids (wrapper (refresh_token m s)) = None →
       resolve (world s) = Ret ids)
    ∧ (∀ cached, _geom_ids (wrapper (refresh_token m s)) = Some cached →
       ids = cached)
    ∧ resolve (world s') = resolve (world s).
Proof.
  intros Hm (Hparent & Hgeom & Hbuf) Hpre Hres.
  pose proof (apply_live s m Hm) as Heq. cbn zeta in Heq.
  rewrite Heq; clear Heq.
  2:{ intros ids [Hc Hp]%refresh_token_cache gi Hgi. rewrite Hbuf.
      by apply (Hpre ids). }
  2:{ intros ids Hr gi Hgi. rewrite Hbuf.
      by apply (resolve_in_range (world s) m ids). }
  set (s1 := refresh_token m s) in *.
  assert (Hw1 : world s1 = world s) by apply refresh_token_world.
  assert (Hp1 : _last_model_ptr (wrapper s1) = Some (py_id m))
    by apply refresh_token_ptr.
  assert (Hsw : same_switch s s1) by apply refresh_token_switch.
  assert (Hr : ∃ ids,
    match _geom_ids (wrapper s1) with
    | Some ids => Ret ids
    | None => resolve (world s)
    end = Ret ids
    ∧ (∀ gi, gi ∈ ids → gi < ngeom m)
    ∧ (_geom_ids (wrapper s1) = None → resolve (world s) = Ret ids)
    ∧ (∀ cached, _geom_ids (wrapper s1) = Some cached → ids = cached)).
  { destruct (_geom_ids (wrapper s1)) as [ids|] eqn:Hc.
    - exists ids. split; [done|]. split; [|split; [done|congruence]].
      apply refresh_token_cache in Hc as [Hc Hp]. by apply (Hpre ids).
    - destruct (Hres eq_refl) as [ids0 Hr0]. exists ids0.
      split; [done|]. split; [|done].
      by apply (resolve_in_range (world s) m ids0). }
  destruct Hr as (ids & -> & Hrange & Hfresh & Hcached).
  destruct ids as [|g0 ids].
  - exists [], (geom_rgba_alpha m). eexists. split; [done|].
    state_simpl. rewrite Hw1, with_alpha_eta.
    split_and!; try done; try exact Hsw; by inversion 1.
  - set (ids0 := g0 :: ids) in *. unfold overlay_alpha.
    destruct (enabled (wrapper s)) eqn:He.
    + exists ids0, (assign_all ids0 (geom_rgba_cast m (alpha (wrapper s)))
                      (geom_rgba_alpha m)).
      eexists. split; [done|]. state_simpl.
      rewrite live_model_set_alpha, Hm, assign_all_length.
      split_and!; try done; try exact Hsw; try apply resolve_set_alpha.
      * intros gi Hgi. apply assign_all_in; [done|]. rewrite Hbuf. by apply Hrange.
      * intros gi Hgi. by apply assign_all_out.
    + exists ids0, (assign_all ids0 (geom_rgba_cast m 1) (geom_rgba_alpha m)).
      eexists. split; [done|]. state_simpl.
      rewrite live_model_set_alpha, Hm, assign_all_length.
      split_and!; try done; try exact Hsw; try apply resolve_set_alpha.
      * intros gi Hgi. apply assign_all_in; [done|]. rewrite Hbuf. by apply Hrange.
      * intros gi Hgi. by apply assign_all_out.
Qed.

Lemma refresh_token_same (m : MjModel) (s : State) :
  _last_model_ptr (wrapper s) = Some (py_id m) → refresh_token m s = s.
Proof. intros Hp. unfold refresh_token. by rewrite bool_decide_eq_true_2. Qed.

(** [_apply_or_restore] when the cache is empty and resolution fails. *)
Lemma apply_resolve_raises (s : State) (m : MjModel) (e : exn) :
  live_model (world s) = Some m →
  _geom_ids (wrapper (refresh_token m s)) = None →
  resolve (world s) = Raise e →
  _apply_or_restore s = (Raise e, refresh_token m s).
Proof.
  intros Hm Hc Hres. rewrite (apply_start s m Hm). unfold apply_tail.
  unfold mbind at 1. unfold StM_bind at 1.
  pose proof (get_ids_spec (refresh_token m s)) as Hget. cbn zeta in Hget.
  rewrite Hc, refresh_token_world, Hres in Hget. by rewrite Hget.
Qed.

(** [_apply_or_restore] on a live, well-formed scene graph whose geometry
    set resolves to [ids], with a cache that, if it was filled for this
    scene graph, holds [ids]: the call returns, [ids] is cached, its geoms
    hold what a store of the prescribed alpha leaves, and no other geom
    changed. *)
Lemma apply_resolved (s : State) (m : MjModel) (ids : list nat) :
  live_model (world s) = Some m → wf_model m → cache_in_range s m →
  cache_agrees s m ids → resolve (world s) = Ret ids →
  ∃ buf s',
    _apply_or_restore s = (Ret tt, s')
    ∧ same_switch s s'
    ∧ _geom_ids (wrapper s') = Some ids
    ∧ _last_model_ptr (wrapper s') = Some (py_id m)
    ∧ live_model (world s') = Some (with_alpha buf m)
    ∧ length buf = ngeom m
    ∧ (∀ gi, gi ∈ ids → gi < ngeom m)
    ∧ (∀ gi, gi ∈ ids →
         buf !! gi = Some (geom_rgba_cast m (overlay_alpha (wrapper s))))
    ∧ (∀ gi, gi ∉ ids → buf !! gi = geom_rgba_alpha m !! gi)
    ∧ resolve (world s') = Ret ids.
Proof.
  intros Hm Hwf Hrange Hagree Hres.
  destruct (apply_ok s m Hm Hwf Hrange)
    as (ids' & buf & s' & Happ & Hsw & Hc & Hp & Hlive & Hlen & Hin & Hbuf
        & Hout & Hfresh & Hcached & Hres'); [by eauto|].
  assert (ids' = ids) as ->.
  { destruct (_geom_ids (wrapper (refresh_token m s))) as [c|] eqn:Hcr.
    - rewrite (Hcached c eq_refl).
      apply refresh_token_cache in Hcr as [Hcs Hps]. by apply Hagree.
    - specialize (Hfresh eq_refl). congruence. }
  exists buf, s'. split_and!; try done. by rewrite Hres'.
Qed.

(** ** The overlay invariant (C1) *)






(** ** Enable, then disable (C4) *)

(** C4.  On a live, well-formed scene graph whose geometry set resolves
    to [ids], whatever the alpha values in the buffer and with a cache
    that, if it was filled for this scene graph, holds [ids]:
    [set_enabled(True)] and then [set_enabled(False)] both return; in
    between, when the overlay was off before, the geoms of [ids] hold the
    overlay alpha as the buffer stores it; afterwards [ids] is the cached
    set, every geom of it has alpha exactly 1.0 — the fixed opaque value,
    not the value it had before enabling — and every other geom has the
    alpha it started with. *)
Theorem set_enabled_round_trip (s : State) (m : MjModel) (ids : list nat) :
  live_model (world s) = Some m → wf_model m → geom_rgba_cast m 1%Q = 1%Q →
  cache_in_range s m → cache_agrees s m ids →
  resolve (world s) = Ret ids →
  ∃ s1 s2 buf1 buf2,
    set_enabled true s = (Ret tt, s1)
    ∧ set_enabled false s1 = (Ret tt, s2)
    ∧ enabled (wrapper s1) = true
    ∧ live_model (world s1) = Some (with_alpha buf1 m)
    ∧ (enabled (wrapper s) = false →
       _geom_ids (wrapper s1) = Some ids
       ∧ ∀ gi, gi ∈ ids →
           buf1 !! gi = Some (geom_rgba_cast m (alpha (wrapper s))))
    ∧ enabled (wrapper s2) = false
    ∧ _geom_ids (wrapper s2) = Some ids
    ∧ live_model (world s2) = Some (with_alpha buf2 m)
    ∧ (∀ gi, gi ∈ ids → buf2 !! gi = Some 1%Q)
    ∧ (∀ gi, gi ∉ ids → buf2 !! gi = geom_rgba_alpha m !! gi).
Proof.
  intros Hm Hwf Hone Hpre Hagree Hres.
  destruct (enabled (wrapper s)) eqn:He.
  - (* already enabled: the first call does nothing *)
    destruct (apply_resolved (set_enabled_attr false s) m ids)
      as (buf & s2 & Happ & [He2 _] & Hc & _ & Hlive & _ & _ & Hin & Hout & _);
      [done..|].
    exists s, s2, (geom_rgba_alpha m), buf.
    rewrite !set_enabled_unfold, He. cbn [Bool.eqb].
    rewrite with_alpha_eta. split_and!; try done.
    intros gi Hgi. rewrite (Hin gi Hgi). cbn. by rewrite Hone.
  - (* disabled: both calls go through [_apply_or_restore] *)
    destruct (apply_resolved (set_enabled_attr true s) m ids)
      as (buf1 & s1 & Happ1 & [He1 _] & Hc1 & Hp1 & Hlive1 & Hlen1
          & Hrange1 & Hin1 & Hout1 & Hres1); [done..|].
    state_simpl.
    destruct (apply_resolved (set_enabled_attr false s1) (with_alpha buf1 m) ids)
      as (buf2 & s2 & Happ2 & [He2 _] & Hc2 & _ & Hlive2 & _ & _
          & Hin2 & Hout2 & _).
    { done. }
    { by apply wf_with_alpha. }
    { intros ids' Hc' _. state_simpl. by simplify_eq. }
    { intros cached Hc' _. state_simpl. congruence. }
    { done. }
    exists s1, s2, buf1, buf2. rewrite !set_enabled_unfold, He, He1.
    cbn [Bool.eqb]. split_and!; try done.
    + intros gi Hgi. rewrite (Hin2 gi Hgi). cbn. by rewrite Hone.
    + intros gi Hgi. rewrite (Hout2 gi Hgi). by apply Hout1.
Qed.

Lemma set_enabled_round_trip_witness :
  ∃ s1 s2 buf1 buf2,
    set_enabled true (__init__ sample_world (1 # 10) false).2 = (Ret tt, s1)
    ∧ set_enabled false s1 = (Ret tt, s2)
    ∧ enabled (wrapper s1) = true
    ∧ live_model (world s1) = Some (with_alpha buf1 sample_model)
    ∧ (enabled (wrapper (__init__ sample_world (1 # 10) false).2) = false →
       _geom_ids (wrapper s1) = Some [0; 1; 3]
       ∧ ∀ gi, gi ∈ [0; 1; 3] →
           buf1 !! gi
           = Some (float32 (alpha (wrapper (__init__ sample_world (1 # 10) false).2))))
    ∧ enabled (wrapper s2) = false
    ∧ _geom_ids (wrapper s2) = Some [0; 1; 3]
    ∧ live_model (world s2) = Some (with_alpha buf2 sample_model)
    ∧ (∀ gi, gi ∈ [0; 1; 3] → buf2 !! gi = Some 1%Q)
    ∧ (∀ gi, gi ∉ [0; 1; 3] → buf2 !! gi = geom_rgba_alpha sample_model !! gi).
Proof.
  apply (set_enabled_round_trip _ sample_model [0; 1; 3]).
  - reflexivity.
  - repeat split; reflexivity.
  - reflexivity.
  - intros ids Hc. discriminate Hc.
  - intros ids Hc. discriminate Hc.
  - vm_compute. reflexivity.
Defined.

(** ** Scene-graph reload (C8) *)

Lemma save_all_cons (x : nat) (ids : list nat) (buf : list Q) (sa : gmap nat Q) :
  save_all (x :: ids) buf sa
  = save_all ids buf
      match sa !! x with
      | Some _ => sa
      | None => match buf !! x with
                | Some a => <[x := a]> sa
                | None => sa
                end
      end.
Proof. reflexivity. Qed.

Lemma save_all_lookup (ids : list nat) (buf : list Q) (sa : gmap nat Q) (gi : nat) :
  save_all ids buf sa !! gi
  = match sa !! gi with
    | Some a => Some a
    | None => if decide (gi ∈ ids) then buf !! gi else None
    end.
Proof.
  revert sa. induction ids as [|x ids IH]; intros sa.
  - cbn. by destruct (sa !! gi).
  - rewrite save_all_cons, IH. clear IH.
    destruct (decide (gi = x)) as [->|Hne].
    + rewrite (decide_True (P := x ∈ x :: ids)) by set_solver.
      destruct (sa !! x) as [a|] eqn:Hs; [by rewrite Hs|].
      destruct (buf !! x) as [a|] eqn:Hb.
      * by rewrite lookup_insert_eq.
      * rewrite Hs. by destruct (decide (x ∈ ids)).
    + assert (Hmem : gi ∈ x :: ids ↔ gi ∈ ids) by set_solver.
      assert (Hsame : match sa !! x with
                      | Some _ => sa
                      | None => match buf !! x with
                                | Some a => <[x:=a]> sa
                                | None => sa
                                end
                      end !! gi = sa !! gi).
      { destruct (sa !! x); [done|]. destruct (buf !! x); [|done].
        by rewrite lookup_insert_ne. }
      rewrite Hsame. destruct (sa !! gi); [done|].
      destruct (decide (gi ∈ ids)), (decide (gi ∈ x :: ids)); tauto.
Qed.

(** C8.  When the scene-graph identity differs from the remembered one
    while the overlay is enabled, the next [_apply_or_restore] forgets the
    cached indices, the saved-alpha map and the token, resolves the
    geometry set against the new scene graph and writes the overlay alpha
    to that set: the outcome depends on nothing the wrapper had cached.
    The cache holds the newly resolved set, the token is the new identity,
    the saved-alpha map holds exactly the new graph's original alpha of the
    resolved geoms, those geoms hold the overlay alpha as the buffer of
    the new graph stores it (rounded to its element type) and no other
    geom of the new graph is written. *)
Theorem reload_is_reresolved (s : State) (m : MjModel) (ids : list nat) :
  enabled (wrapper s) = true →
  live_model (world s) = Some m → wf_model m →
  _last_model_ptr (wrapper s) ≠ Some (py_id m) →
  resolve (world s) = Ret ids →
  ∃ s' buf,
    _apply_or_restore s = (Ret tt, s')
    ∧ enabled (wrapper s') = true
    ∧ _geom_ids (wrapper s') = Some ids
    ∧ _last_model_ptr (wrapper s') = Some (py_id m)
    ∧ (∀ gi, _saved_alpha (wrapper s') !! gi
             = if decide (gi ∈ ids) then geom_rgba_alpha m !! gi else None)
    ∧ live_model (world s') = Some (with_alpha buf m)
    ∧ (∀ gi, gi ∈ ids → buf !! gi = Some (geom_rgba_cast m (alpha (wrapper s))))
    ∧ (∀ gi, gi ∉ ids → buf !! gi = geom_rgba_alpha m !! gi).
Proof.
  intros He Hm (Hparent & Hgeom & Hbuf) Hptr Hres.
  assert (Hs1 : refresh_token m s
                = set_last_model_ptr (Some (py_id m))
                    (set_saved_alpha ∅ (set_geom_ids None s))).
  { unfold refresh_token. by rewrite bool_decide_eq_false_2. }
  assert (Hrange : ∀ gi, gi ∈ ids → gi < length (geom_rgba_alpha m)).
  { intros gi Hgi. rewrite Hbuf. by apply (resolve_in_range (world s) m ids). }
  pose proof (apply_live s m Hm) as Heq. cbn zeta in Heq.
  rewrite Hs1 in Heq. state_simpl. rewrite Hres, He in Heq.
  rewrite Heq; clear Heq; [|done|by intros ? [= <-]].
  destruct ids as [|g0 ids].
  - eexists _, (geom_rgba_alpha m). split; [done|]. state_simpl.
    rewrite with_alpha_eta. split_and!; try done; by inversion 1.
  - eexists _, _. split; [done|]. state_simpl.
    rewrite live_model_set_alpha, Hm. split_and!; try done.
    + intros gi. by rewrite save_all_lookup, lookup_empty.
    + intros gi Hgi. apply assign_all_in; [done | by apply Hrange].
    + intros gi Hgi. by apply assign_all_out.
Qed.

Lemma reload_is_reresolved_witness :
  ∃ s' buf,
    _apply_or_restore
      (set_world reloaded_world (__init__ sample_world (1 # 10) true).2)
    = (Ret tt, s')
    ∧ enabled (wrapper s') = true
    ∧ _geom_ids (wrapper s') = Some [1]
    ∧ _last_model_ptr (wrapper s') = Some (py_id reloaded_model)
    ∧ (∀ gi, _saved_alpha (wrapper s') !! gi
             = if decide (gi ∈ [1])
               then geom_rgba_alpha reloaded_model !! gi else None)
    ∧ live_model (world s') = Some (with_alpha buf reloaded_model)
    ∧ (∀ gi, gi ∈ [1] → buf !! gi = Some (13421773 # 134217728)%Q)
    ∧ (∀ gi, gi ∉ [1] → buf !! gi = geom_rgba_alpha reloaded_model !! gi).
Proof.
  apply (reload_is_reresolved
           (set_world reloaded_world (__init__ sample_world (1 # 10) true).2)
           reloaded_model [1]).
  - reflexivity.
  - reflexivity.
  - repeat split; reflexivity.
  - vm_compute. discriminate.
  - vm_compute. reflexivity.
Defined.

(** ** Missing context (C9) *)

Lemma resolve_no_layout (w : World) :
  layout_id (_unwrap_env (env w)) = None → resolve w = Ret [].
Proof.
  intros Hl. unfold resolve. rewrite Hl.
  by destruct (sim (_unwrap_env (env w))) as [[?|]|].
Qed.

(** With no live scene graph or no layout id, and nothing but possibly an
    empty set in the cache, [_apply_or_restore] returns without touching
    the session. *)
Lemma apply_missing (s : State) :
  missing_context (world s) →
  _geom_ids (wrapper s) = None ∨ _geom_ids (wrapper s) = Some [] →
  ∃ s', _apply_or_restore s = (Ret tt, s')
        ∧ world s' = world s
        ∧ same_switch s s'
        ∧ (_geom_ids (wrapper s') = None ∨ _geom_ids (wrapper s') = Some []).
Proof.
  intros Hmiss Hcache.
  destruct (live_model (world s)) as [m|] eqn:Hm.
  2:{ exists s. by rewrite (apply_no_model s Hm). }
  destruct Hmiss as [?|Hlayout]; [congruence|].
  rewrite (apply_start s m Hm). unfold apply_tail.
  unfold mbind at 1. unfold StM_bind at 1.
  rewrite (get_ids_spec (refresh_token m s)). cbn zeta.
  rewrite refresh_token_world, (resolve_no_layout _ Hlayout).
  assert (Hr : match _geom_ids (wrapper (refresh_token m s)) with
               | Some ids => Ret ids
               | None => Ret []
               end = Ret []).
  { unfold refresh_token. case_bool_decide; state_simpl; [|done].
    by destruct Hcache as [-> | ->]. }
  rewrite Hr. eexists. split; [done|]. state_simpl.
  rewrite refresh_token_world. split_and!; try done; [|by right].
  apply refresh_token_switch.
Qed.

Lemma set_enabled_missing (b : bool) (s : State) :
  missing_context (world s) →
  _geom_ids (wrapper s) = None ∨ _geom_ids (wrapper s) = Some [] →
  ∃ s', set_enabled b s = (Ret tt, s')
        ∧ world s' = world s
        ∧ (_geom_ids (wrapper s') = None ∨ _geom_ids (wrapper s') = Some []).
Proof.
  intros Hmiss Hcache. rewrite set_enabled_unfold.
  destruct (Bool.eqb b (enabled (wrapper s))); [by exists s|].
  destruct (apply_missing (set_enabled_attr b s)) as (s' & -> & ? & _ & ?);
    [done..|]. by exists s'.
Qed.

Lemma reachable_missing (s : State) :
  reachable missing_context (fun _ _ => True) s →
  missing_context (world s)
  ∧ (_geom_ids (wrapper s) = None ∨ _geom_ids (wrapper s) = Some []).
Proof.
  induction 1 as [w a b Hw | s b _ [Hmiss Hcache] | s _ [Hmiss Hcache]
                 | s f _ [Hmiss Hcache] Hw' | s f _ [Hmiss Hcache] Hw' _].
  - unfold __init__.
    destruct (set_enabled_missing b
      {| wrapper := {| alpha := a; enabled := false; _geom_ids := None;
                       _saved_alpha := ∅; _last_model_ptr := None |};
         world := w |}) as (s' & -> & Hw1 & ?); [done | by left |].
    cbn [snd]. by rewrite Hw1.
  - destruct (set_enabled_missing b s) as (s' & -> & Hw1 & ?); [done..|].
    cbn [snd]. by rewrite Hw1.
  - rewrite toggle_unfold.
    destruct (set_enabled_missing (negb (enabled (wrapper s))) s)
      as (s' & -> & Hw1 & ?); [done..|].
    cbn [snd]. by rewrite Hw1.
  - rewrite reset_unfold. cbn zeta. destruct (enabled (wrapper s)).
    + destruct (apply_missing
        (set_last_model_ptr None
           (set_saved_alpha ∅ (set_geom_ids None (set_world (f (world s)) s)))))
        as (s' & -> & Hw1 & _ & ?); [done | by left |].
      cbn [snd]. by rewrite Hw1.
    + cbn [snd]. split; [done | by left].
  - rewrite visualize_unfold.
    destruct (apply_missing (set_world (f (world s)) s))
      as (s' & -> & Hw1 & _ & ?); [done..|].
    cbn [snd]. by rewrite Hw1.
Qed.

Lemma set_enabled_no_model (b : bool) (s : State) :
  live_model (world s) = None →
  ∃ s', set_enabled b s = (Ret tt, s') ∧ world s' = world s.
Proof.
  intros Hm. rewrite set_enabled_unfold.
  destruct (Bool.eqb b (enabled (wrapper s))); [by exists s|].
  rewrite apply_no_model by done. by eexists.
Qed.

(** C9.  Without a live scene graph ([sim] missing or [None], or
    [sim.model] missing or [None]) — in any state of the wrapper — and in
    every state of a session that exposes no layout identifier, every
    overlay operation — [set_enabled], [toggle], the [_apply_or_restore]
    of [visualize] — returns without raising and leaves the session, scene
    graph included, as it was; the missing layout identifier resolves to
    the empty set, as an empty list of wall names does. *)
Theorem missing_context_is_noop (s : State) (b : bool) :
  live_model (world s) = None
  ∨ reachable missing_context (fun _ _ => True) s →
  (∃ s', set_enabled b s = (Ret tt, s') ∧ world s' = world s)
  ∧ (∃ s', toggle s = (Ret tt, s') ∧ world s' = world s)
  ∧ (∃ s', _apply_or_restore s = (Ret tt, s') ∧ world s' = world s)
  ∧ (∀ env_visualize,
       live_model (env_visualize (world s)) = None
       ∨ (reachable missing_context (fun _ _ => True) s
          ∧ missing_context (env_visualize (world s))) →
       ∃ s', visualize env_visualize s = (Ret tt, s')
             ∧ world s' = env_visualize (world s))
  ∧ (layout_id (_unwrap_env (env (world s))) = None →
       resolve (world s) = Ret []
       ∧ ∀ m, _match_geom_ids m [] = resolve (world s)).
Proof.
  intros Hctx.
  assert (Hvis : ∀ env_visualize,
       live_model (env_visualize (world s)) = None
       ∨ (reachable missing_context (fun _ _ => True) s
          ∧ missing_context (env_visualize (world s))) →
       ∃ s', visualize env_visualize s = (Ret tt, s')
             ∧ world s' = env_visualize (world s)).
  { intros f [Hnone|[Hreach Hf]]; rewrite visualize_unfold.
    - rewrite apply_no_model by done. by eexists.
    - apply reachable_missing in Hreach as [_ Hcache].
      destruct (apply_missing (set_world (f (world s)) s))
        as (s' & ? & ? & _); eauto. }
  assert (Hlayout : layout_id (_unwrap_env (env (world s))) = None →
       resolve (world s) = Ret []
       ∧ ∀ m, _match_geom_ids m [] = resolve (world s)).
  { intros Hl. by rewrite (resolve_no_layout _ Hl). }
  destruct Hctx as [Hnone|[Hmiss Hcache]%reachable_missing].
  - (* no live scene graph: the first test of [_apply_or_restore] returns *)
    split_and!; try done.
    + by apply set_enabled_no_model.
    + rewrite toggle_unfold. by apply set_enabled_no_model.
    + rewrite apply_no_model by done. by eexists.
  - (* no layout identifier: the cache only ever holds the empty set *)
    split_and!; try done.
    + destruct (set_enabled_missing b s) as (s' & ? & ? & _); eauto.
    + rewrite toggle_unfold.
      destruct (set_enabled_missing (negb (enabled (wrapper s))) s)
        as (s' & ? & ? & _); eauto.
    + destruct (apply_missing s) as (s' & ? & ? & _); eauto.
Qed.

Lemma missing_context_is_noop_witness :
  (∃ s', set_enabled false sample_unloaded = (Ret tt, s')
         ∧ world s' = world sample_unloaded)
  ∧ (∃ s', toggle sample_unloaded = (Ret tt, s')
           ∧ world s' = world sample_unloaded)
  ∧ (∃ s', _apply_or_restore sample_unloaded = (Ret tt, s')
           ∧ world s' = world sample_unloaded)
  ∧ (∀ env_visualize,
       live_model (env_visualize (world sample_unloaded)) = None
       ∨ (reachable missing_context (fun _ _ => True) sample_unloaded
          ∧ missing_context (env_visualize (world sample_unloaded))) →
       ∃ s', visualize env_visualize sample_unloaded = (Ret tt, s')
             ∧ world s' = env_visualize (world sample_unloaded))
  ∧ (layout_id (_unwrap_env (env (world sample_unloaded))) = None →
       resolve (world sample_unloaded) = Ret []
       ∧ ∀ m, _match_geom_ids m [] = resolve (world sample_unloaded)).
Proof.
  apply missing_context_is_noop.
  right. apply reach_init. left. reflexivity.
Defined.

(** ** Pending requests (C5) *)



(** ** Healthy sessions: nothing raises *)

Lemma apply_healthy (s : State) :
  healthy (world s) →
  (∀ m, live_model (world s) = Some m → cache_in_range s m) →
  ∃ s', _apply_or_restore s = (Ret tt, s')
        ∧ healthy (world s') ∧ coherent s' ∧ same_switch s s'.
Proof.
  intros [Hwf [ids0 Hres]] Hpre.
  pose proof (apply_sound s Hwf Hpre) as Hsound. cbn zeta in Hsound.
  destruct (live_model (world s)) as [m|] eqn:Hm.
  - destruct (apply_ok s m) as (ids & buf & s' & Happ & Hsw & _ & _ & _ & _
                                  & _ & _ & _ & _ & _ & Hres');
      [done | by apply Hwf | by apply Hpre | by eauto |].
    rewrite Happ in Hsound. destruct Hsound as (Hwf' & Hcoh' & _).
    exists s'. split_and!; try done. split; [done|].
    exists ids0. by rewrite Hres'.
  - rewrite (apply_no_model s Hm) in *. destruct Hsound as (Hwf' & Hcoh' & _).
    exists s. split_and!; try done. split; eauto.
Qed.

Lemma set_enabled_healthy (b : bool) (s : State) :
  healthy (world s) → coherent s →
  ∃ s', set_enabled b s = (Ret tt, s')
        ∧ healthy (world s') ∧ coherent s' ∧ enabled (wrapper s') = b.
Proof.
  intros Hh Hcoh. rewrite set_enabled_unfold.
  destruct (Bool.eqb b (enabled (wrapper s))) eqn:E.
  - apply Bool.eqb_prop in E. by exists s.
  - destruct (apply_healthy (set_enabled_attr b s)) as (s' & -> & ? & ? & He & _).
    + done.
    + intros m Hm ids Hc _. by apply (Hcoh m ids).
    + by exists s'.
Qed.

Lemma visualize_healthy (env_visualize : World -> World) (s : State) :
  well_behaved env_visualize → healthy (world s) → coherent s →
  ∃ s', visualize env_visualize s = (Ret tt, s')
        ∧ healthy (world s') ∧ coherent s'
        ∧ enabled (wrapper s') = enabled (wrapper s).
Proof.
  intros Hf Hh Hcoh. destruct (Hf s Hh) as [Hh' Hsame].
  rewrite visualize_unfold.
  destruct (apply_healthy (set_world (env_visualize (world s)) s))
    as (s' & -> & ? & ? & He & _).
  - done.
  - intros m' Hm' ids Hc Hp gi Hgi. state_simpl.
    destruct (Hsame m' Hm' Hp) as (m & buf & Hm & ->).
    by apply (Hcoh m ids).
  - by exists s'.
Qed.

Lemma state_eta (s : State) : {| wrapper := wrapper s; world := world s |} = s.
Proof. by destruct s. Qed.

Lemma consume_pending_force (vis : option (World -> World)) (render : bool)
    (h : Session) :
  flag_set (_force_enclosing_walls_opaque h) = true →
  consume_pending vis render h
  = match on_wrapper (set_enabled false) h with
    | (Ret _, h1) =>
        match _refresh_visualization_and_redraw vis render
                (set_toggle_flag (Some false) (set_force_flag (Some false) h1))
        with
        | (Ret _, h2) => (Ret true, h2)
        | (Raise e, h2) => (Raise e, h2)
        | (OutOfFuel, h2) => (OutOfFuel, h2)
        end
    | (Raise e, h1) => (Raise e, h1)
    | (OutOfFuel, h1) => (OutOfFuel, h1)
    end.
Proof.
  intros Hforce. unfold consume_pending, mbind, StM_bind, gets, modify, id.
  cbn beta iota. rewrite Hforce. cbn [negb andb].
  destruct (on_wrapper (set_enabled false) h) as [[[]|e|] h1]; [|done..].
  by destruct (_refresh_visualization_and_redraw vis render _) as [[[]|e|] h2].
Qed.




(** On the sample session the call does return [True], with the overlay
    disabled, both flags cleared and the walls opaque again. *)
Example consume_pending_sample :
  let r := consume_pending (Some id) true pending_session in
  r.1 = Ret true
  ∧ (enabled <$> overlay r.2) = Some false
  ∧ _force_enclosing_walls_opaque r.2 = Some false
  ∧ _toggle_enclosing_walls r.2 = Some false
  ∧ (geom_rgba_alpha <$> live_model (hworld r.2))
    = Some [1; 1; 1 # 4; 1]%Q.
Proof. vm_compute. repeat split. Qed.

(** ** Enabling twice (C6) *)

(** C6.  A second [set_enabled(True)] right after a first one returns at
    once and changes nothing: the state after two calls is the state after
    one, scene-graph alpha buffer and saved-alpha map included.  More
    generally, [set_enabled] with the current value of the switch is a
    no-op. *)
Theorem set_enabled_twice (s : State) :
  let once := (set_enabled true s).2 in
  let twice := (set_enabled true once).2 in
  (set_enabled true once).1 = Ret tt
  ∧ twice = once
  ∧ live_model (world twice) = live_model (world once)
  ∧ _saved_alpha (wrapper twice) = _saved_alpha (wrapper once)
  ∧ set_enabled (enabled (wrapper s)) s = (Ret tt, s).
Proof.
  cbn zeta.
  destruct (set_enabled_frame true s) as (r & s1 & -> & _ & He & _).
  cbn [snd]. rewrite !set_enabled_unfold, He, !Bool.eqb_reflx. by cbn.
Qed.

(** * The resolver, exactly *)

(** A hit of the name loop comes from a wall name that matches. *)
Lemma matches_any_sound (name : string) (names : list pyval) :
  matches_any name names = Ret true →
  ∃ w, PStr w ∈ names ∧ name_matches name w = true.
Proof.
  induction names as [|v names IH]; [done|].
  cbn [matches_any]. destruct v as [| | |w| |]; cbn [match_name obind]; try done.
  destruct (name_matches name w) eqn:Hw.
  - intros _. exists w. split; [set_solver|done].
  - intros (w' & Hin & Hm)%IH. exists w'. split; [set_solver|done].
Qed.

(** The first loop collects wall bodies only. *)
Lemma match_bodies_sound (m : MjModel) (names : list pyval) (matched : gset Z) :
  for_each (match_body m names) (range (nbody m)) ∅ = Ret matched →
  ∀ z, z ∈ matched → ∃ a, z = Z.of_nat a ∧ wall_body m names a.
Proof.
  intros Hrun.
  refine (for_each_inv _
            (fun _ ids => ∀ z, z ∈ ids → ∃ a, z = Z.of_nat a ∧ wall_body m names a)
            _ _ _ _ _ Hrun); [set_solver|].
  intros seen x s1 s2 IH Hx Hstep z Hz. unfold match_body in Hstep.
  destruct (body_id2name m x) as [name|] eqn:Hn; [|simplify_eq; by apply IH].
  destruct (matches_any name names) as [[|]| |] eqn:Hany;
    cbn [obind] in Hstep; simplify_eq.
  - apply elem_of_union in Hz as [Hz|Hz]; [|by apply IH].
    apply elem_of_singleton in Hz as ->.
    exists x. split; [done|].
    apply matches_any_sound in Hany as (w & Hw & Hmatch).
    split; [by apply elem_of_range|]. by exists name, w.
  - by apply IH.
Qed.

(** Induction over what one pass of the [while] body adds. *)
Lemma closure_pass_ind (m : MjModel) (P : Z → Prop) (ids : gset Z)
    (st : gset Z * bool) :
  (∀ b parent, b < nbody m → body_parentid m !! b = Some parent →
     (0 ≤ parent)%Z → P parent → P (Z.of_nat b)) →
  (∀ z, z ∈ ids → P z) →
  closure_pass m ids = Ret st → ∀ z, z ∈ st.1 → P z.
Proof.
  intros Hstep Hbase Hrun. unfold closure_pass in Hrun.
  refine (for_each_inv _ (fun _ st => ∀ z, z ∈ st.1 → P z) _ _ _ _ _ Hrun);
    [done|].
  intros seen x st1 st2 IH Hx Hadd z Hz. unfold add_child in Hadd.
  case_bool_decide as Hin; [simplify_eq; by apply IH|].
  destruct (body_parentid m !! x) as [parent|] eqn:Hp; [|done].
  destruct ((0 <=? parent)%Z && bool_decide (parent ∈ st1.1)) eqn:Hc;
    simplify_eq; [|by apply IH].
  apply andb_true_iff in Hc as [Hpos%Z.leb_le Hpin%bool_decide_eq_true].
  cbn [fst] in Hz. apply elem_of_union in Hz as [Hz|Hz]; [|by apply IH].
  apply elem_of_singleton in Hz as ->.
  apply (Hstep x parent); [by apply elem_of_range | done | done | by apply IH].
Qed.

(** Induction over what the [while] loop adds. *)
Lemma closure_loop_ind (m : MjModel) (P : Z → Prop) (fuel : nat)
    (ids ids' : gset Z) :
  (∀ b parent, b < nbody m → body_parentid m !! b = Some parent →
     (0 ≤ parent)%Z → P parent → P (Z.of_nat b)) →
  (∀ z, z ∈ ids → P z) →
  closure_loop fuel m ids = Ret ids' → ∀ z, z ∈ ids' → P z.
Proof.
  intros Hstep. revert ids.
  induction fuel as [|fuel IH]; intros ids Hbase Hrun; [done|].
  cbn [closure_loop] in Hrun.
  destruct (closure_pass m ids) as [[cur added]| |] eqn:Hpass;
    cbn [obind] in Hrun; [|done..].
  pose proof (closure_pass_ind m P ids _ Hstep Hbase Hpass) as Hcur.
  cbn [fst snd] in *. destruct added.
  - by apply (IH cur).
  - by simplify_eq.
Qed.

(** Everything the [while] loop returns descends from a body it started
    with. *)
Lemma closure_loop_descendants (m : MjModel) (fuel : nat) (ids ids' : gset Z) :
  closure_loop fuel m ids = Ret ids' →
  (∀ z, z ∈ ids → ∃ a, z = Z.of_nat a) →
  ∀ z, z ∈ ids' →
    ∃ a d, Z.of_nat a ∈ ids ∧ descendant m a d ∧ z = Z.of_nat d.
Proof.
  intros Hrun Hnat.
  apply (closure_loop_ind m
           (fun z => ∃ a d, Z.of_nat a ∈ ids ∧ descendant m a d ∧ z = Z.of_nat d)
           fuel ids ids'); [| |done].
  - intros b parent Hb Hp Hpos (a & d & Ha & Hd & ->).
    exists a, b. split_and!; [done | | done].
    by apply (descendant_child m a b d).
  - intros z Hz. destruct (Hnat z Hz) as [a ->].
    exists a, a. split_and!; [done | constructor | done].
Qed.

(** The last loop: what it appends, and in which order. *)
Lemma match_geoms_exact (m : MjModel) (names : list pyval) (body_ids : gset Z)
    (G : list nat) :
  for_each (match_geom m names body_ids) (range (ngeom m)) [] = Ret G →
  G `sublist_of` range (ngeom m)
  ∧ ∀ i, i ∈ G ↔
      i < ngeom m
      ∧ ((∃ owner, geom_bodyid m !! i = Some owner ∧ owner ∈ body_ids)
         ∨ wall_named_geom m names i).
Proof.
  intros Hrun.
  pose (Q := fun i : nat =>
    (∃ owner, geom_bodyid m !! i = Some owner ∧ owner ∈ body_ids)
    ∨ wall_named_geom m names i).
  pose (I := fun (seen G : list nat) =>
    G `sublist_of` seen ∧ ∀ i, i ∈ G ↔ i ∈ seen ∧ Q i).
  assert (HI : I (range (ngeom m)) G).
  { apply (for_each_inv _ I _ _ _) in Hrun; [done | split; [done|set_solver] |].
    clear Hrun G. intros seen x G G' [Hsub Hiff] _ Hstep.
    assert (Hadd : Q x → I (seen ++ [x]) (G ++ [x])).
    { intros HQ. split; [by apply sublist_app|].
      intros i. rewrite !elem_of_app, Hiff, !list_elem_of_singleton.
      split; [intros [[? ?]| ->]; auto | intros [[?| ->] ?]; auto]. }
    assert (Hskip : ¬ Q x → I (seen ++ [x]) G).
    { intros HQ. split; [by apply sublist_inserts_r|].
      intros i. rewrite elem_of_app, Hiff, list_elem_of_singleton.
      split; [intros [? ?]; auto | intros [[?| ->] ?]; [auto | done]]. }
    unfold match_geom in Hstep.
    destruct (geom_bodyid m !! x) as [owner|] eqn:Ho; [|done].
    case_bool_decide as Hmem.
    - simplify_eq. apply Hadd. left. by exists owner.
    - destruct (geom_id2name m x) as [gname|] eqn:Hg.
      + destruct (matches_any gname names) as [[|]| |] eqn:Hany;
          cbn [obind] in Hstep; simplify_eq.
        * apply Hadd. right.
          apply matches_any_sound in Hany as (w & Hw & Hmatch).
          by exists gname, w.
        * apply Hskip. intros [(owner' & Ho' & Hin')|(g' & w & Hg' & Hw & Hmatch)].
          -- by simplify_eq.
          -- simplify_eq.
             by pose proof (matches_any_hit _ _ _ _ Hany Hw Hmatch).
      + simplify_eq. apply Hskip.
        intros [(owner' & Ho' & Hin')|(g' & w & Hg' & _)]; by simplify_eq. }
  destruct HI as [Hsub Hiff]. split; [done|].
  intros i. by rewrite Hiff, elem_of_range.
Qed.

(** The working set after the [while] loop, for the resolver's own first
    loop: the descendants of the wall bodies, and nothing else. *)
Lemma resolver_body_ids (m : MjModel) (names : list pyval)
    (matched body_ids : gset Z) (z : Z) :
  for_each (match_body m names) (range (nbody m)) ∅ = Ret matched →
  closure_loop (S (nbody m)) m matched = Ret body_ids →
  z ∈ body_ids ↔
    ∃ a d, wall_body m names a ∧ descendant m a d ∧ z = Z.of_nat d.
Proof.
  intros H1 H2. split.
  - intros Hz.
    assert (Hnat : ∀ z', z' ∈ matched → ∃ a, z' = Z.of_nat a).
    { intros z' Hz'. destruct (match_bodies_sound m names matched H1 z' Hz')
        as (a & -> & _). by exists a. }
    destruct (closure_loop_descendants m _ _ _ H2 Hnat z Hz)
      as (a & d & Ha & Hd & ->).
    destruct (match_bodies_sound m names matched H1 _ Ha) as (a' & Heq & Hwall).
    apply Nat2Z.inj in Heq as <-. by exists a, d.
  - intros (a & d & [Hlt (name & w & Hn & Hw & Hmatch)] & Hd & ->).
    apply match_bodies_spec in H1 as [_ Hm].
    apply closure_loop_closed in H2 as (Hsub & Hclosed & _).
    apply (closed_descendant m body_ids a d); [done | | done].
    apply Hsub. by apply (Hm a name w).
Qed.

(** The resolver's two phases, when it returns. *)
Lemma match_geom_ids_phases (m : MjModel) (v : pyval) (names : list pyval)
    (G : list nat) :
  _match_geom_ids m (v :: names) = Ret G →
  ∃ matched body_ids,
    for_each (match_body m (v :: names)) (range (nbody m)) ∅ = Ret matched
    ∧ closure_loop (S (nbody m)) m matched = Ret body_ids
    ∧ for_each (match_geom m (v :: names) body_ids) (range (ngeom m)) [] = Ret G.
Proof.
  unfold _match_geom_ids. intros Hrun.
  destruct (for_each (match_body m (v :: names)) (range (nbody m)) ∅)
    as [matched| |] eqn:H1; cbn [obind] in Hrun; [|done..].
  destruct (closure_loop (S (nbody m)) m matched) as [body_ids| |] eqn:H2;
    cbn [obind] in Hrun; [|done..].
  by exists matched, body_ids.
Qed.

(** Membership in the resolver's result. *)
Lemma match_geom_ids_elem (m : MjModel) (names : list pyval) (G : list nat)
    (i : nat) :
  _match_geom_ids m names = Ret G →
  i ∈ G ↔
    i < ngeom m ∧ (wall_owned_geom m names i ∨ wall_named_geom m names i).
Proof.
  intros Hrun. destruct names as [|v names].
  - cbn in Hrun. simplify_eq. split; [by intros ?%elem_of_nil|].
    intros [_ [(a & d & [_ (n & w & _ & Hw & _)] & _)|(g & w & _ & Hw & _)]];
      by apply elem_of_nil in Hw.
  - apply match_geom_ids_phases in Hrun as (matched & body_ids & H1 & H2 & H3).
    apply match_geoms_exact in H3 as [_ Hiff]. rewrite Hiff.
    split; intros [Hlt [Hown|Hnamed]]; (split; [done|]); try by right.
    + destruct Hown as (owner & Ho & Hin).
      apply (resolver_body_ids m _ matched body_ids owner H1 H2) in Hin
        as (a & d & Hwall & Hd & ->).
      left. by exists a, d.
    + destruct Hown as (a & d & Hwall & Hd & Ho).
      left. exists (Z.of_nat d). split; [done|].
      apply (resolver_body_ids m _ matched body_ids _ H1 H2). by exists a, d.
Qed.

(** The resolver lists geoms in index order, each at most once. *)
Lemma match_geom_ids_sublist (m : MjModel) (names : list pyval) (G : list nat) :
  _match_geom_ids m names = Ret G → G `sublist_of` range (ngeom m).
Proof.
  intros Hrun. destruct names as [|v names].
  - cbn in Hrun. simplify_eq. apply sublist_nil_l.
  - apply match_geom_ids_phases in Hrun as (matched & body_ids & _ & _ & H3).
    by apply match_geoms_exact in H3 as [? _].
Qed.

(** Two sublists of a duplicate-free list with the same elements are the
    same list. *)
Lemma sublist_ext {A} (l l' k : list A) :
  NoDup k → l `sublist_of` k → l' `sublist_of` k →
  (∀ x, x ∈ l ↔ x ∈ l') → l = l'.
Proof.
  intros Hk. revert l l'.
  induction Hk as [|x k Hx Hk IH]; intros l l' Hl Hl' Hsame.
  - apply sublist_nil_r in Hl, Hl'. by subst.
  - apply sublist_cons_r in Hl as [Hl|(l1 & -> & Hl)];
      apply sublist_cons_r in Hl' as [Hl'|(l1' & -> & Hl')].
    + by apply IH.
    + exfalso. apply Hx. apply (elem_of_sublist l k x); [|done].
      apply Hsame. by left.
    + exfalso. apply Hx. apply (elem_of_sublist l' k x); [|done].
      apply Hsame. by left.
    + f_equal. apply IH; [done..|].
      intros y. specialize (Hsame y). rewrite !elem_of_cons in Hsame.
      split; intros Hy.
      * destruct (proj1 Hsame (or_intror Hy)) as [->|]; [|done].
        exfalso. apply Hx. by apply (elem_of_sublist l1 k x).
      * destruct (proj2 Hsame (or_intror Hy)) as [->|]; [|done].
        exfalso. apply Hx. by apply (elem_of_sublist l1' k x).
Qed.

(** X1.  The geometry set the resolver returns is exactly: the geoms in
    range that hang off a body carrying a wall name or off one of its
    descendants, together with the geoms that carry a wall name
    themselves.  No other geom is ever listed. *)
Theorem match_geom_ids_exact (m : MjModel) (names : list pyval) (G : list nat)
    (i : nat) :
  _match_geom_ids m names = Ret G →
  i ∈ G ↔
    i < ngeom m ∧ (wall_owned_geom m names i ∨ wall_named_geom m names i).
Proof.
  intros Hrun. split.
  - intros Hi. by apply (match_geom_ids_elem m names G i Hrun).
  - intros Hi. by apply (match_geom_ids_elem m names G i Hrun).
Qed.

Lemma match_geom_ids_exact_witness :
  (2 ∈ [0; 1; 3] ↔
     2 < ngeom sample_model
     ∧ (wall_owned_geom sample_model [PStr "wall"] 2
        ∨ wall_named_geom sample_model [PStr "wall"] 2))
  ∧ (1 ∈ [0; 1; 3] ↔
     1 < ngeom sample_model
     ∧ (wall_owned_geom sample_model [PStr "wall"] 1
        ∨ wall_named_geom sample_model [PStr "wall"] 1)).
Proof.
  split.
  - apply (match_geom_ids_exact sample_model [PStr "wall"] [0; 1; 3] 2).
    vm_compute. reflexivity.
  - apply (match_geom_ids_exact sample_model [PStr "wall"] [0; 1; 3] 1).
    vm_compute. reflexivity.
Defined.

(** X2.  The resolver lists the geoms in increasing index order and never
    lists one twice, also when a geom both hangs off a wall body and
    carries a wall name. *)
Theorem match_geom_ids_ascending (m : MjModel) (names : list pyval)
    (G : list nat) :
  _match_geom_ids m names = Ret G →
  G `sublist_of` range (ngeom m)
  ∧ NoDup G
  ∧ ∀ j k a b, j < k → G !! j = Some a → G !! k = Some b → a < b.
Proof.
  intros Hrun. pose proof (match_geom_ids_sublist m names G Hrun) as Hsub.
  split_and!; [done | |].
  - eapply sublist_NoDup; [|done]. apply NoDup_seq.
  - unfold range in Hsub. clear Hrun. revert Hsub. generalize 0 as start.
    generalize (ngeom m) as n. intros n. revert G.
    induction n as [|n IH]; intros G start Hsub j k a b Hjk Hj Hk.
    + apply sublist_nil_r in Hsub as ->. done.
    + cbn [seq] in Hsub.
      apply sublist_cons_r in Hsub as [Hsub|(G1 & -> & Hsub)].
      * by apply (IH G (S start) Hsub j k).
      * assert (Hgt : ∀ p c, G1 !! p = Some c → start < c).
        { intros p c Hc. apply list_elem_of_lookup_2 in Hc.
          apply (elem_of_sublist _ _ _ Hc) in Hsub.
          apply elem_of_seq in Hsub. lia. }
        destruct k as [|k]; [lia|]. cbn in Hk.
        destruct j as [|j]; cbn in Hj.
        -- simplify_eq. by apply (Hgt k).
        -- apply (IH G1 (S start) Hsub j k); [lia | done | done].
Qed.

Lemma match_geom_ids_ascending_witness :
  [0; 1; 3] `sublist_of` range (ngeom sample_model)
  ∧ NoDup [0; 1; 3]
  ∧ ∀ j k a b, j < k → [0; 1; 3] !! j = Some a → [0; 1; 3] !! k = Some b → a < b.
Proof.
  apply (match_geom_ids_ascending sample_model [PStr "wall"]).
  vm_compute. reflexivity.
Defined.

(** X3.  The resolver's result depends on the wall names as a set only:
    more names can only add geoms, and two lists with the same string
    names (in any order, with any repetition) give the same result. *)
Theorem match_geom_ids_names_as_set (m : MjModel) (names names' : list pyval)
    (G G' : list nat) :
  _match_geom_ids m names = Ret G →
  _match_geom_ids m names' = Ret G' →
  ((∀ w, PStr w ∈ names → PStr w ∈ names') → G ⊆ G')
  ∧ ((∀ w, PStr w ∈ names ↔ PStr w ∈ names') → G = G').
Proof.
  intros Hrun Hrun'.
  assert (Hmono : ∀ n1 n2 G1 G2,
            _match_geom_ids m n1 = Ret G1 → _match_geom_ids m n2 = Ret G2 →
            (∀ w, PStr w ∈ n1 → PStr w ∈ n2) → ∀ i, i ∈ G1 → i ∈ G2).
  { intros n1 n2 G1 G2 H1 H2 Hincl i Hi.
    apply (match_geom_ids_elem m n1 G1 i H1) in Hi as [Hlt Hi].
    apply (match_geom_ids_elem m n2 G2 i H2). split; [done|].
    destruct Hi as [(a & d & [Ha (n & w & Hn & Hw & Hm)] & Hd & Ho)
                   |(g & w & Hg & Hw & Hm)].
    - left. exists a, d. split_and!; [|done..]. split; [done|].
      exists n, w. auto.
    - right. exists g, w. auto. }
  split.
  - intros Hincl i. by apply (Hmono names names' G G').
  - intros Hsame.
    apply (sublist_ext G G' (range (ngeom m))).
    + apply NoDup_seq.
    + by apply (match_geom_ids_sublist m names).
    + by apply (match_geom_ids_sublist m names').
    + intros i. split.
      * apply (Hmono names names' G G'); [done..|]. intros w. by apply Hsame.
      * apply (Hmono names' names G' G); [done..|]. intros w. by apply Hsame.
Qed.

Lemma match_geom_ids_names_as_set_witness :
  ∃ G1 G2 G3,
    _match_geom_ids sample_model [PStr "trim"] = Ret G1
    ∧ _match_geom_ids sample_model [PStr "wall"; PStr "trim"] = Ret G2
    ∧ _match_geom_ids sample_model [PStr "trim"; PStr "wall"; PStr "wall"]
      = Ret G3
    ∧ G1 ⊆ G2 ∧ G2 = G3.
Proof.
  exists [1], [0; 1; 3], [0; 1; 3].
  split_and!; [vm_compute; reflexivity.. | |].
  - apply (match_geom_ids_names_as_set sample_model
             [PStr "trim"] [PStr "wall"; PStr "trim"]);
      [vm_compute; reflexivity.. |].
    intros w Hw. apply list_elem_of_singleton in Hw. simplify_eq.
    apply elem_of_cons. right. apply elem_of_cons. by left.
  - apply (match_geom_ids_names_as_set sample_model
             [PStr "wall"; PStr "trim"] [PStr "trim"; PStr "wall"; PStr "wall"]);
      [vm_compute; reflexivity.. |].
    intros w. rewrite !elem_of_cons, !elem_of_nil. naive_solver.
Defined.

(** X4.  The [while] loop returns the least set that contains the bodies
    it started with and is closed under "child of a member": it is closed,
    and it lies inside every closed set that contains the start. *)
Theorem closure_loop_least (m : MjModel) (fuel : nat) (ids ids' : gset Z) :
  closure_loop fuel m ids = Ret ids' →
  ids ⊆ ids'
  ∧ closed_under_children m ids'
  ∧ ∀ C : gset Z, ids ⊆ C → closed_under_children m C → ids' ⊆ C.
Proof.
  intros Hrun.
  destruct (closure_loop_closed m fuel ids ids' Hrun) as (Hsub & Hclosed & _).
  split_and!; [done | done |].
  intros C HC Hcl z Hz.
  apply (closure_loop_ind m (fun z => z ∈ C) fuel ids ids'); [| |done|done].
  - intros b parent Hb Hp Hpos Hin. by apply (Hcl b parent).
  - intros z' Hz'. by apply HC.
Qed.

Lemma closure_loop_least_witness :
  ({[1%Z]} : gset Z) ⊆ {[1%Z; 2%Z; 3%Z]}
  ∧ closed_under_children sample_model {[1%Z; 2%Z; 3%Z]}
  ∧ ∀ C : gset Z, {[1%Z]} ⊆ C → closed_under_children sample_model C →
      {[1%Z; 2%Z; 3%Z]} ⊆ C.
Proof.
  apply (closure_loop_least sample_model 6 {[1%Z]} {[1%Z; 2%Z; 3%Z]}).
  vm_compute. reflexivity.
Defined.

(** * Wall names that are not strings *)

Lemma for_each_raises {S X} (body : S -> X -> outcome S) (xs : list X) (s : S)
    (e : exn) :
  (∀ s1 x, x ∈ xs → (∃ s2, body s1 x = Ret s2) ∨ body s1 x = Raise e) →
  (∃ x, x ∈ xs ∧ ∀ s1, body s1 x = Raise e) →
  for_each body xs s = Raise e.
Proof.
  revert s. induction xs as [|x xs IH]; intros s Hall (y & Hy & Hbad).
  - by apply elem_of_nil in Hy.
  - cbn [for_each].
    destruct (Hall s x) as [[s2 Hs2]|Hr]; [by left | | by rewrite Hr].
    rewrite Hs2. cbn [obind].
    apply elem_of_cons in Hy as [->|Hy]; [by rewrite Hbad in Hs2|].
    apply IH; [|by exists y].
    intros s1 x' Hx'. apply Hall. by right.
Qed.

(** The name loop on a list whose first non-string entry is [v]: a hit on
    an earlier name, or a [TypeError] at [v]. *)
Lemma matches_any_bad_name (name : string) (pre : list pyval) (v : pyval)
    (rest : list pyval) :
  forallb is_str pre = true → is_str v = false →
  (matches_any name (pre ++ v :: rest) = Ret true
   ∨ matches_any name (pre ++ v :: rest) = Raise TypeError)
  ∧ ((∀ w, PStr w ∈ pre → name_matches name w = false) →
     matches_any name (pre ++ v :: rest) = Raise TypeError).
Proof.
  intros Hpre Hv. induction pre as [|p pre IH].
  - cbn [app matches_any]. destruct v; try done; cbn; auto.
  - cbn [forallb] in Hpre. apply andb_true_iff in Hpre as [Hp Hpre].
    destruct p as [| | |w| |]; try done.
    destruct (IH Hpre) as [IH1 IH2].
    cbn [app matches_any match_name obind].
    destruct (name_matches name w) eqn:Hw.
    + split; [by left|]. intros Hno. rewrite Hno in Hw; [done|by left].
    + split; [done|]. intros Hno. apply IH2. intros w' Hw'. apply Hno. by right.
Qed.

(** X5.  A wall name that is not a string (the registry yields [None] for
    a flagged wall without a name) makes the resolver raise [TypeError] as
    soon as the scene has a named body that no earlier wall name matches;
    no geometry is resolved. *)
Theorem match_geom_ids_bad_name (m : MjModel) (pre : list pyval) (v : pyval)
    (rest : list pyval) (b : nat) (name : string) :
  forallb is_str pre = true → is_str v = false →
  b < nbody m → body_id2name m b = Some name →
  (∀ w, PStr w ∈ pre → name_matches name w = false) →
  _match_geom_ids m (pre ++ v :: rest) = Raise TypeError.
Proof.
  intros Hpre Hv Hb Hname Hno.
  remember (pre ++ v :: rest) as names eqn:Hnames.
  destruct names as [|n0 names]; [by destruct pre|].
  unfold _match_geom_ids. rewrite Hnames.
  rewrite (for_each_raises _ _ _ TypeError); [done | |].
  - intros ids x _. unfold match_body.
    destruct (body_id2name m x) as [xname|]; [|left; eauto].
    destruct (matches_any_bad_name xname pre v rest Hpre Hv) as [[Hhit|Hbad] _].
    + rewrite Hhit. cbn [obind]. left. eauto.
    + rewrite Hbad. by right.
  - exists b. split; [by apply elem_of_range|].
    intros ids. unfold match_body. rewrite Hname.
    destruct (matches_any_bad_name name pre v rest Hpre Hv) as [_ Hbad].
    by rewrite (Hbad Hno).
Qed.

Lemma match_geom_ids_bad_name_witness :
  _match_geom_ids sample_model ([PStr "floor"] ++ PNone :: [PStr "wall"])
  = Raise TypeError.
Proof.
  apply (match_geom_ids_bad_name sample_model [PStr "floor"] PNone
           [PStr "wall"] 1 "wall_1"); [done | done | cbn; lia | done |].
  intros w Hw. apply list_elem_of_singleton in Hw. by simplify_eq.
Defined.

(** X6.  When the geometry set cannot be resolved, [set_enabled(True)]
    raises after the switch was flipped: the wrapper is left enabled with
    nothing resolved and the scene untouched, and a second
    [set_enabled(True)] returns normally without doing anything. *)
Theorem failed_enable_sticks (s : State) (m : MjModel) (e : exn) :
  enabled (wrapper s) = false →
  live_model (world s) = Some m →
  _last_model_ptr (wrapper s) ≠ Some (py_id m) ∨ _geom_ids (wrapper s) = None →
  resolve (world s) = Raise e →
  ∃ s', set_enabled true s = (Raise e, s')
        ∧ enabled (wrapper s') = true
        ∧ _geom_ids (wrapper s') = None
        ∧ world s' = world s
        ∧ set_enabled true s' = (Ret tt, s').
Proof.
  intros Hoff Hm Hmiss Hres.
  set (s0 := set_enabled_attr true s).
  assert (Hm0 : live_model (world s0) = Some m) by done.
  assert (Hc : _geom_ids (wrapper (refresh_token m s0)) = None).
  { unfold refresh_token. case_bool_decide as Hp; [|done].
    destruct Hmiss as [Hne|Hnone]; [done|]. exact Hnone. }
  exists (refresh_token m s0).
  assert (Hen : enabled (wrapper (refresh_token m s0)) = true).
  { unfold refresh_token. by case_bool_decide. }
  split_and!.
  - rewrite set_enabled_unfold, Hoff. cbn [Bool.eqb]. fold s0.
    rewrite (apply_start s0 m Hm0). unfold apply_tail.
    unfold mbind at 1. unfold StM_bind at 1.
    pose proof (get_ids_spec (refresh_token m s0)) as Hget. cbn zeta in Hget.
    rewrite Hc, refresh_token_world in Hget.
    change (world s0) with (world s) in Hget. rewrite Hres in Hget.
    by rewrite Hget.
  - done.
  - done.
  - by rewrite refresh_token_world.
  - rewrite set_enabled_unfold, Hen. done.
Qed.

Lemma failed_enable_sticks_witness :
  ∃ s', set_enabled true unnamed_wall_state = (Raise TypeError, s')
        ∧ enabled (wrapper s') = true
        ∧ _geom_ids (wrapper s') = None
        ∧ world s' = world unnamed_wall_state
        ∧ set_enabled true s' = (Ret tt, s').
Proof.
  apply (failed_enable_sticks unnamed_wall_state sample_model TypeError);
    [done | done | by right | vm_compute; reflexivity].
Defined.

(** * The registry on degenerate documents *)

Lemma py_or_falsy (v dflt : pyval) : truthy v = false → py_or v dflt = dflt.
Proof. unfold py_or. by intros ->. Qed.

Lemma py_or_truthy (v dflt : pyval) : truthy v = true → py_or v dflt = v.
Proof. unfold py_or. by intros ->. Qed.

(** The registry after the document was loaded, for a mapping. *)
Lemma registry_mapping (load : Z -> loaded) (lid : Z) (top : list (string * pyval)) :
  load lid = Loaded (PDict top) →
  _get_enclosing_wall_names_from_layout load lid
  = let* walls_field := py_get (py_or (entry top "room") (PDict [])) "walls" PNone in
    let* ws := py_iter (py_or walls_field (PList [])) in
    enclosing_names_of ws.
Proof.
  intros Hload. unfold _get_enclosing_wall_names_from_layout. rewrite Hload.
  cbn [outcome_of_load obind]. unfold entry.
  destruct top as [|kv top]; [done|].
  by rewrite py_or_truthy.
Qed.

(** A wall entry that is not a mapping has no [get]. *)
Lemma enclosing_names_of_not_record (ws : list pyval) (w : pyval) :
  w ∈ ws → is_dict w = false → enclosing_names_of ws = Raise AttributeError.
Proof.
  intros Hin Hw. induction ws as [|x ws IH]; [by apply elem_of_nil in Hin|].
  cbn [enclosing_names_of].
  destruct x as [| | | | |d]; try done.
  apply elem_of_cons in Hin as [->|Hin]; [done|].
  cbn [py_get obind]. rewrite (IH Hin).
  by destruct (is_True _).
Qed.

(** X7.  Whatever is falsy counts as absent: an empty or null document, a
    [room] entry that is missing, null, empty, zero or false, and a
    [walls] entry that is so, all give the empty list of names and no
    error. *)
Theorem registry_falsy_is_absent (load : Z -> loaded) (lid : Z) (layout : pyval) :
  load lid = Loaded layout →
  (truthy layout = false
   ∨ (∃ top, layout = PDict top ∧ truthy (entry top "room") = false)
   ∨ (∃ top room, layout = PDict top ∧ entry top "room" = PDict room
                  ∧ truthy (entry room "walls") = false)) →
  _get_enclosing_wall_names_from_layout load lid = Ret [].
Proof.
  intros Hload [Hfalsy|[(top & -> & Hroom)|(top & room & -> & Hroom & Hwalls)]].
  - unfold _get_enclosing_wall_names_from_layout. rewrite Hload.
    cbn [outcome_of_load obind]. by rewrite (py_or_falsy layout).
  - rewrite (registry_mapping load lid top Hload).
    by rewrite (py_or_falsy (entry top "room")).
  - rewrite (registry_mapping load lid top Hload), Hroom.
    destruct room as [|kv room].
    + done.
    + rewrite py_or_truthy by done. cbn [py_get obind].
      fold (entry (kv :: room) "walls").
      by rewrite (py_or_falsy (entry (kv :: room) "walls")).
Qed.

Lemma registry_falsy_is_absent_witness :
  _get_enclosing_wall_names_from_layout
    (fun _ => Loaded (PDict [("room", PDict [("walls", PStr "")])])) 0
  = Ret []
  ∧ _get_enclosing_wall_names_from_layout
      (fun _ => Loaded (PDict [("room", PInt 0)])) 0
    = Ret []
  ∧ _get_enclosing_wall_names_from_layout (fun _ => Loaded (PBool false)) 0
    = Ret [].
Proof.
  split_and!.
  - apply (registry_falsy_is_absent _ 0
             (PDict [("room", PDict [("walls", PStr "")])])); [done|].
    right. right. by exists [("room", PDict [("walls", PStr "")])], [("walls", PStr "")].
  - apply (registry_falsy_is_absent _ 0 (PDict [("room", PInt 0)])); [done|].
    right. left. by exists [("room", PInt 0)].
  - apply (registry_falsy_is_absent _ 0 (PBool false)); [done|]. by left.
Defined.

(** X8.  What is there but has the wrong shape is an error: a non-empty
    document or [room] that is not a mapping, and a wall entry that is not
    a mapping (wherever it stands in the list), raise [AttributeError]; a
    [walls] entry that is a non-zero number raises [TypeError]. *)
Theorem registry_rejects_malformed (load : Z -> loaded) (lid : Z) (layout : pyval) :
  load lid = Loaded layout →
  (truthy layout = true → is_dict layout = false →
   _get_enclosing_wall_names_from_layout load lid = Raise AttributeError)
  ∧ (∀ top, layout = PDict top →
       truthy (entry top "room") = true → is_dict (entry top "room") = false →
       _get_enclosing_wall_names_from_layout load lid = Raise AttributeError)
  ∧ (∀ top room ws w, layout = PDict top → entry top "room" = PDict room →
       entry room "walls" = PList ws → w ∈ ws → is_dict w = false →
       _get_enclosing_wall_names_from_layout load lid = Raise AttributeError)
  ∧ (∀ top room z, layout = PDict top → entry top "room" = PDict room →
       entry room "walls" = PInt z → z ≠ 0%Z →
       _get_enclosing_wall_names_from_layout load lid = Raise TypeError).
Proof.
  intros Hload. split_and!.
  - intros Ht Hd. unfold _get_enclosing_wall_names_from_layout. rewrite Hload.
    cbn [outcome_of_load obind]. rewrite py_or_truthy by done.
    by destruct layout.
  - intros top -> Ht Hd. rewrite (registry_mapping load lid top Hload).
    rewrite py_or_truthy by done. by destruct (entry top "room").
  - intros top room ws w -> Hroom Hwalls Hin Hw.
    rewrite (registry_mapping load lid top Hload), Hroom.
    destruct room as [|kv room]; [done|].
    rewrite py_or_truthy by done. cbn [py_get obind].
    fold (entry (kv :: room) "walls"). rewrite Hwalls.
    destruct ws as [|w0 ws]; [by apply elem_of_nil in Hin|].
    rewrite py_or_truthy by done. cbn [py_iter obind].
    by apply (enclosing_names_of_not_record _ w).
  - intros top room z -> Hroom Hwalls Hz.
    rewrite (registry_mapping load lid top Hload), Hroom.
    destruct room as [|kv room]; [done|].
    rewrite py_or_truthy by done. cbn [py_get obind].
    fold (entry (kv :: room) "walls"). rewrite Hwalls.
    rewrite py_or_truthy; [done|].
    cbn [truthy]. by apply negb_true_iff, Z.eqb_neq.
Qed.

Lemma registry_rejects_malformed_witness :
  _get_enclosing_wall_names_from_layout
    (fun _ => Loaded (PDict [("room",
       PDict [("walls", PList [PDict [("name", PStr "wall")]; PStr "wall"])])])) 0
  = Raise AttributeError.
Proof.
  refine (proj1 (proj2 (proj2
    (registry_rejects_malformed _ 0
       (PDict [("room",
          PDict [("walls", PList [PDict [("name", PStr "wall")]; PStr "wall"])])])
       eq_refl)))
    _ [("walls", PList [PDict [("name", PStr "wall")]; PStr "wall"])]
    _ (PStr "wall") eq_refl eq_refl eq_refl _ eq_refl).
  apply elem_of_cons. right. apply elem_of_cons. by left.
Defined.

(** * Redraws *)

Lemma assign_all_same (ids : list nat) (v : Q) (buf : list Q) :
  (∀ gi, gi ∈ ids → buf !! gi = Some v) → assign_all ids v buf = buf.
Proof.
  intros Hsame. apply list_eq. intros gi.
  destruct (decide (gi ∈ ids)) as [Hin|Hout].
  - rewrite assign_all_in; [by rewrite Hsame | done |].
    apply lookup_lt_is_Some. rewrite Hsame; eauto.
  - by apply assign_all_out.
Qed.

Lemma assign_all_twice (ids : list nat) (v v' : Q) (buf : list Q) :
  assign_all ids v (assign_all ids v' buf) = assign_all ids v buf.
Proof.
  apply list_eq. intros gi.
  destruct (decide (gi ∈ ids)) as [Hin|Hout].
  - destruct (decide (gi < length buf)) as [Hlt|Hge].
    + rewrite !assign_all_in; [done..|]. by rewrite assign_all_length.
    + rewrite !lookup_ge_None_2; [done|..]; rewrite ?assign_all_length; lia.
  - by rewrite !assign_all_out.
Qed.

Lemma env_set_alpha_twice (b1 b2 : list Q) (e : Env) :
  env_set_alpha b2 (env_set_alpha b1 e) = env_set_alpha b2 e.
Proof.
  induction e as [b|inner IH]; cbn [env_set_alpha]; [|by rewrite IH].
  f_equal. unfold base_set_alpha.
  destruct b as [[[[[mdl|]]|]|] lid]; try done.
Qed.

Lemma world_set_alpha_twice (b1 b2 : list Q) (w : World) :
  world_set_alpha b2 (world_set_alpha b1 w) = world_set_alpha b2 w.
Proof.
  unfold world_set_alpha. cbn [env load_layout]. by rewrite env_set_alpha_twice.
Qed.

Lemma env_set_alpha_live (e : Env) (m : MjModel) :
  match sim (_unwrap_env e) with
  | Some (Some s) => model s
  | _ => None
  end = Some m →
  env_set_alpha (geom_rgba_alpha m) e = e.
Proof.
  induction e as [b|inner IH]; cbn [env_set_alpha _unwrap_env]; intros Hm.
  - f_equal. unfold base_set_alpha.
    destruct b as [[[[[mdl|]]|]|] lid]; try done.
    cbn in Hm. simplify_eq. cbn. by rewrite with_alpha_eta.
  - by rewrite IH.
Qed.

Lemma world_set_alpha_live (w : World) (m : MjModel) :
  live_model w = Some m → world_set_alpha (geom_rgba_alpha m) w = w.
Proof.
  intros Hm. unfold world_set_alpha. rewrite env_set_alpha_live; [|done].
  by destruct w.
Qed.

Lemma save_all_noop (ids : list nat) (buf : list Q) (sa : gmap nat Q) :
  (∀ gi, gi ∈ ids → is_Some (sa !! gi)) → save_all ids buf sa = sa.
Proof.
  intros Hall. apply map_eq. intros gi. rewrite save_all_lookup.
  destruct (sa !! gi) as [a|] eqn:Hsa; [done|].
  destruct (decide (gi ∈ ids)) as [Hin|]; [|done].
  destruct (Hall gi Hin) as [a Ha]. congruence.
Qed.

(** A write that returned had all its indices within the buffer. *)
Lemma write_alpha_returns (ids : list nat) (v : Q) (s s' : State) (m : MjModel) :
  live_model (world s) = Some m →
  write_alpha ids v s = (Ret tt, s') →
  ∀ gi, gi ∈ ids → gi < length (geom_rgba_alpha m).
Proof.
  intros Hm Hw gi Hgi. unfold write_alpha in Hw. rewrite Hm in Hw.
  destruct (forallb _ ids) eqn:Hall; [|done].
  rewrite forallb_forall in Hall.
  by apply Nat.ltb_lt, Hall, list_elem_of_In.
Qed.

(** What [_apply_or_restore] works on after the identity check. *)
Lemma apply_tail_returns_range (s1 s' : State) (m : MjModel) (ids : list nat) :
  live_model (world s1) = Some m →
  apply_tail s1 = (Ret tt, s') →
  match _geom_ids (wrapper s1) with
  | Some c => Ret c
  | None => resolve (world s1)
  end = Ret ids →
  ∀ gi, gi ∈ ids → gi < length (geom_rgba_alpha m).
Proof.
  intros Hm Hrun Hr. unfold apply_tail in Hrun.
  unfold mbind at 1 in Hrun. unfold StM_bind at 1 in Hrun.
  pose proof (get_ids_spec s1) as Hget. cbn zeta in Hget.
  rewrite Hr in Hget. rewrite Hget in Hrun. clear Hget.
  destruct ids as [|g0 ids]; [by intros gi ?%elem_of_nil|].
  set (s2 := set_geom_ids (Some (g0 :: ids)) s1) in *.
  assert (Hm2 : live_model (world s2) = Some m) by done.
  unfold mbind, StM_bind, gets in Hrun. cbn beta iota in Hrun.
  destruct (enabled (wrapper s2)).
  - destruct (save_originals_shape (g0 :: ids) s2) as (r1 & sa & Heq & _).
    rewrite Heq in Hrun. destruct r1 as [[]| |]; [|done..].
    exact (write_alpha_returns _ _ (set_saved_alpha sa s2) _ m Hm2 Hrun).
  - destruct (write_alpha (g0 :: ids) 1 s2) as [[[]| |] s3] eqn:Hw; [|done..].
    exact (write_alpha_returns _ _ _ _ m Hm2 Hw).
Qed.

(** [_apply_or_restore] on a live scene graph, as one equation, when the
    indices it works on lie within the alpha buffer. *)
Lemma apply_live_on (s : State) (m : MjModel) :
  live_model (world s) = Some m →
  let s1 := refresh_token m s in
  let r := match _geom_ids (wrapper s1) with
           | Some ids => Ret ids
           | None => resolve (world s)
           end in
  (∀ ids, r = Ret ids → ∀ gi, gi ∈ ids → gi < length (geom_rgba_alpha m)) →
  _apply_or_restore s
  = match r with
    | Ret [] => (Ret tt, set_geom_ids (Some []) s1)
    | Ret ids =>
        let s2 := set_geom_ids (Some ids) s1 in
        if enabled (wrapper s) then
          (Ret tt,
           set_world
             (world_set_alpha
                (assign_all ids (geom_rgba_cast m (alpha (wrapper s)))
                   (geom_rgba_alpha m)) (world s))
             (set_saved_alpha
                (save_all ids (geom_rgba_alpha m) (_saved_alpha (wrapper s1))) s2))
        else
          (Ret tt,
           set_saved_alpha ∅
             (set_world
                (world_set_alpha
                   (assign_all ids (geom_rgba_cast m 1) (geom_rgba_alpha m))
                   (world s))
                s2))
    | Raise e => (Raise e, s1)
    | OutOfFuel => (OutOfFuel, s1)
    end.
Proof.
  intros Hm s1 r Hrange.
  assert (Hw1 : world s1 = world s) by apply refresh_token_world.
  destruct (refresh_token_switch m s) as [He1 Ha1]. fold s1 in He1, Ha1.
  rewrite (apply_start s m Hm). fold s1. unfold apply_tail.
  unfold mbind at 1. unfold StM_bind at 1.
  pose proof (get_ids_spec s1) as Hget. cbn zeta in Hget.
  rewrite Hw1 in Hget. fold r in Hget. rewrite Hget.
  destruct r as [ids| |]; [|done..].
  destruct ids as [|gi ids]; [done|].
  specialize (Hrange _ eq_refl).
  set (s2 := set_geom_ids (Some (gi :: ids)) s1).
  assert (Hm2 : live_model (world s2) = Some m) by (by rewrite <- Hm, <- Hw1).
  unfold mbind, StM_bind, gets. cbn beta iota.
  change (enabled (wrapper s2)) with (enabled (wrapper s1)). rewrite He1.
  destruct (enabled (wrapper s)).
  - rewrite (save_originals_spec _ s2 m Hm2 Hrange).
    rewrite (write_alpha_spec _ _ _ m); [|done|done].
    change (alpha (wrapper s2)) with (alpha (wrapper s1)). rewrite Ha1.
    cbn [world set_saved_alpha]. change (world s2) with (world s1).
    by rewrite Hw1.
  - rewrite (write_alpha_spec _ _ _ m Hm2 Hrange). unfold modify.
    cbn [world]. change (world s2) with (world s1). by rewrite Hw1.
Qed.

(** A call of [_apply_or_restore] that returns leaves a settled state. *)
Lemma apply_settles (s s' : State) :
  _apply_or_restore s = (Ret tt, s') → settled s'.
Proof.
  intros Hrun.
  destruct (live_model (world s)) as [m|] eqn:Hm.
  2:{ rewrite (apply_no_model s Hm) in Hrun. simplify_eq.
      intros m' Hm'. congruence. }
  set (s1 := refresh_token m s).
  assert (Hw1 : world s1 = world s) by apply refresh_token_world.
  assert (Hp1 : _last_model_ptr (wrapper s1) = Some (py_id m))
    by apply refresh_token_ptr.
  destruct (refresh_token_switch m s) as [He1 Ha1]. fold s1 in He1, Ha1.
  assert (Hrange : ∀ ids,
            match _geom_ids (wrapper s1) with
            | Some c => Ret c
            | None => resolve (world s)
            end = Ret ids →
            ∀ gi, gi ∈ ids → gi < length (geom_rgba_alpha m)).
  { intros ids Hr. rewrite (apply_start s m Hm) in Hrun. fold s1 in Hrun.
    apply (apply_tail_returns_range s1 s' m ids); [by rewrite Hw1 | done |].
    by rewrite Hw1. }
  pose proof (apply_live_on s m Hm) as Hlive. cbn zeta in Hlive. fold s1 in Hlive.
  rewrite (Hlive Hrange) in Hrun. clear Hlive.
  destruct (match _geom_ids (wrapper s1) with
            | Some c => Ret c
            | None => resolve (world s)
            end) as [ids| |] eqn:Hr; [|done..].
  specialize (Hrange ids eq_refl).
  destruct ids as [|g0 ids].
  { simplify_eq. intros m' Hm'. cbn [world set_geom_ids] in Hm'.
    rewrite Hw1, Hm in Hm'. simplify_eq. split; [done|].
    exists []. split_and!; [done | | | done].
    - by intros gi ?%elem_of_nil.
    - by intros _ gi ?%elem_of_nil. }
  cbn zeta in Hrun. unfold settled, overlay_alpha.
  destruct (enabled (wrapper s)) eqn:Hen; simplify_eq; intros m' Hm';
    cbn [world wrapper set_world set_saved_alpha set_geom_ids alpha enabled
         _geom_ids _saved_alpha _last_model_ptr] in *;
    rewrite live_model_set_alpha, Hm in Hm';
    cbn [fmap option_fmap option_map] in Hm'; simplify_eq;
    (split; [done|]); exists (g0 :: ids); rewrite He1, ?Ha1.
  - split_and!; [done | | | done].
    + intros gi Hgi. cbn [geom_rgba_alpha geom_rgba_cast with_alpha].
      apply assign_all_in; [done | by apply Hrange].
    + intros _ gi Hgi. rewrite save_all_lookup.
      destruct (_saved_alpha (wrapper s1) !! gi); [eauto|].
      rewrite decide_True by done. apply lookup_lt_is_Some. by apply Hrange.
  - split_and!; [done | | done | done].
    intros gi Hgi. cbn [geom_rgba_alpha geom_rgba_cast with_alpha].
    apply assign_all_in; [done | by apply Hrange].
Qed.

(** On a settled state [_apply_or_restore] changes nothing. *)
Lemma apply_settled (s : State) :
  settled s → _apply_or_restore s = (Ret tt, s).
Proof.
  intros Hs.
  destruct (live_model (world s)) as [m|] eqn:Hm; [|by apply apply_no_model].
  destruct (Hs m Hm) as (Hp & ids & Hc & Hbuf & Hsaved & Hclear).
  pose proof (apply_live_on s m Hm) as Hlive. cbn zeta in Hlive.
  rewrite (refresh_token_same m s Hp), Hc in Hlive. rewrite Hlive.
  2:{ intros ids' [= <-] gi Hgi. apply lookup_lt_is_Some. rewrite Hbuf; eauto. }
  clear Hlive. destruct ids as [|g0 ids]; [by rewrite <- Hc, wrapper_eta|].
  cbn zeta.
  replace (set_geom_ids (Some (g0 :: ids)) s) with s
    by (by rewrite <- Hc, wrapper_eta).
  unfold overlay_alpha in Hbuf. destruct (enabled (wrapper s)).
  - rewrite save_all_noop by auto. rewrite saved_alpha_eta.
    rewrite assign_all_same by done.
    by rewrite (world_set_alpha_live _ m Hm), world_eta.
  - rewrite assign_all_same by done.
    rewrite (world_set_alpha_live _ m Hm), world_eta.
    rewrite <- (Hclear eq_refl); [|done]. by rewrite saved_alpha_eta.
Qed.

(** Flipping the switch of a settled state: the cached geoms get the
    alpha of the new switch position, and the state is settled again. *)
Lemma set_enabled_settled (b : bool) (s : State) :
  settled s →
  ∃ s', set_enabled b s = (Ret tt, s')
        ∧ settled s'
        ∧ enabled (wrapper s') = b
        ∧ alpha (wrapper s') = alpha (wrapper s)
        ∧ _geom_ids (wrapper s') = _geom_ids (wrapper s)
        ∧ world s'
          = match live_model (world s), _geom_ids (wrapper s) with
            | Some m, Some ids =>
                world_set_alpha
                  (assign_all ids
                     (geom_rgba_cast m (if b then alpha (wrapper s) else 1%Q))
                     (geom_rgba_alpha m))
                  (world s)
            | _, _ => world s
            end.
Proof.
  intros Hs. rewrite set_enabled_unfold.
  destruct (Bool.eqb b (enabled (wrapper s))) eqn:Hb.
  - apply Bool.eqb_prop in Hb. exists s. split_and!; try done.
    destruct (live_model (world s)) as [m|] eqn:Hm; [|done].
    destruct (Hs m Hm) as (Hp & ids & Hc & Hbuf & _). rewrite Hc.
    unfold overlay_alpha in Hbuf. rewrite <- Hb in Hbuf.
    rewrite assign_all_same by done. by rewrite (world_set_alpha_live _ m Hm).
  - set (s0 := set_enabled_attr b s).
    destruct (live_model (world s)) as [m|] eqn:Hm.
    2:{ exists s0. rewrite (apply_no_model s0 Hm). split_and!; try done.
        intros m' Hm'. change (world s0) with (world s) in Hm'. congruence. }
    destruct (Hs m Hm) as (Hp & ids & Hc & Hbuf & _). rewrite Hc.
    assert (Hm0 : live_model (world s0) = Some m) by done.
    pose proof (apply_live_on s0 m Hm0) as Hlive. cbn zeta in Hlive.
    rewrite (refresh_token_same m s0 Hp) in Hlive.
    change (_geom_ids (wrapper s0)) with (_geom_ids (wrapper s)) in Hlive.
    rewrite Hc in Hlive.
    assert (Hrange : ∀ gi, gi ∈ ids → gi < length (geom_rgba_alpha m)).
    { intros gi Hgi. apply lookup_lt_is_Some. rewrite Hbuf; eauto. }
    specialize (Hlive ltac:(by intros ids' [= <-])).
    destruct ids as [|g0 ids].
    + exists (set_geom_ids (Some []) s0). split_and!; try done.
      * by apply (apply_settles s0).
      * unfold assign_all. cbn [foldr world set_geom_ids].
        change (world s0) with (world s).
        by rewrite (world_set_alpha_live _ m Hm).
    + cbn zeta in Hlive. change (enabled (wrapper s0)) with b in Hlive.
      destruct b; (eexists; split; [exact Hlive|]);
        (split; [by apply (apply_settles s0) in Hlive|]); by split_and!.
Qed.

(** X9.  [_apply_or_restore] is idempotent: once a call has returned, a
    second call changes nothing, and neither does a [visualize] whose
    wrapped environment leaves the session alone.  The overlay is stable
    across redraws. *)
Theorem apply_twice (s s' : State) :
  _apply_or_restore s = (Ret tt, s') →
  _apply_or_restore s' = (Ret tt, s')
  ∧ visualize (fun w => w) s' = (Ret tt, s').
Proof.
  intros Hrun. apply apply_settles in Hrun.
  split.
  - by apply apply_settled.
  - rewrite visualize_unfold, world_eta. by apply apply_settled.
Qed.

Lemma apply_twice_witness :
  _apply_or_restore sample_enabled = (Ret tt, sample_enabled)
  ∧ visualize (fun w => w) sample_enabled = (Ret tt, sample_enabled).
Proof.
  apply (apply_twice sample_fresh sample_enabled). reflexivity.
Defined.

(** X10.  Toggling twice from a state a redraw has left gives the scene
    back exactly as it was, with the switch and the resolved set as they
    were; in between the switch is flipped. *)
Theorem toggle_twice_restores_scene (s0 s : State) :
  _apply_or_restore s0 = (Ret tt, s) →
  ∃ s1 s2,
    toggle s = (Ret tt, s1)
    ∧ toggle s1 = (Ret tt, s2)
    ∧ enabled (wrapper s1) = negb (enabled (wrapper s))
    ∧ enabled (wrapper s2) = enabled (wrapper s)
    ∧ _geom_ids (wrapper s2) = _geom_ids (wrapper s)
    ∧ world s2 = world s.
Proof.
  intros Hrun. apply apply_settles in Hrun as Hs.
  destruct (set_enabled_settled (negb (enabled (wrapper s))) s Hs)
    as (s1 & Ht1 & Hs1 & He1 & Ha1 & Hc1 & Hw1).
  destruct (set_enabled_settled (negb (enabled (wrapper s1))) s1 Hs1)
    as (s2 & Ht2 & Hs2 & He2 & Ha2 & Hc2 & Hw2).
  exists s1, s2. rewrite !toggle_unfold.
  split_and!; [done | done | done | | |].
  - by rewrite He2, He1, negb_involutive.
  - by rewrite Hc2.
  - rewrite Hw2. clear Hw2.
    destruct (live_model (world s)) as [m|] eqn:Hm.
    2:{ rewrite Hw1. by rewrite Hm. }
    destruct (Hs m Hm) as (Hp & ids & Hc & Hbuf & _).
    rewrite Hc in Hw1, Hc1. rewrite Hc1.
    rewrite Hw1 at 1. rewrite live_model_set_alpha, Hm.
    cbn [fmap option_fmap option_map with_alpha geom_rgba_alpha].
    rewrite Hw1, world_set_alpha_twice, assign_all_twice.
    rewrite He1, negb_involutive, Ha1.
    change (if enabled (wrapper s) then alpha (wrapper s) else 1%Q)
      with (overlay_alpha (wrapper s)).
    rewrite assign_all_same by done.
    by apply world_set_alpha_live.
Qed.

Lemma toggle_twice_restores_scene_witness :
  ∃ s1 s2,
    toggle sample_enabled = (Ret tt, s1)
    ∧ toggle s1 = (Ret tt, s2)
    ∧ enabled (wrapper s1) = negb (enabled (wrapper sample_enabled))
    ∧ enabled (wrapper s2) = enabled (wrapper sample_enabled)
    ∧ _geom_ids (wrapper s2) = _geom_ids (wrapper sample_enabled)
    ∧ world s2 = world sample_enabled.
Proof.
  apply (toggle_twice_restores_scene sample_fresh sample_enabled).
  reflexivity.
Defined.

(** X11.  [_apply_or_restore] touches nothing of the session but alpha
    values of the live scene graph: either the session is left as it was,
    or the one change is that the cached geoms hold what a store of the
    alpha the switch prescribes leaves in the buffer (the value rounded to
    the element type of [geom_rgba]).  When the call does not return
    normally, the session is left as it was. *)
Theorem apply_touches_alpha_only (s : State) :
  ∃ r s',
    _apply_or_restore s = (r, s')
    ∧ (r ≠ Ret tt → world s' = world s)
    ∧ (world s' = world s
       ∨ ∃ m ids,
           live_model (world s) = Some m
           ∧ _geom_ids (wrapper s') = Some ids
           ∧ world s'
             = world_set_alpha
                 (assign_all ids
                    (geom_rgba_cast m (overlay_alpha (wrapper s)))
                    (geom_rgba_alpha m))
                 (world s)).
Proof.
  destruct (live_model (world s)) as [m|] eqn:Hm.
  2:{ exists (Ret tt), s. rewrite (apply_no_model s Hm). by split_and!; [|..|left]. }
  set (s1 := refresh_token m s).
  assert (Hw1 : world s1 = world s) by apply refresh_token_world.
  destruct (refresh_token_switch m s) as [He1 Ha1]. fold s1 in He1, Ha1.
  rewrite (apply_start s m Hm). fold s1. unfold apply_tail.
  unfold mbind at 1. unfold StM_bind at 1.
  pose proof (get_ids_spec s1) as Hget. cbn zeta in Hget. rewrite Hget.
  clear Hget.
  destruct (match _geom_ids (wrapper s1) with
            | Some ids => Ret ids
            | None => resolve (world s1)
            end) as [ids| |];
    [|by eexists _, s1; split_and!; [| |left]..].
  destruct ids as [|g0 ids].
  { eexists _, _. split; [done|]. by split; [|left]. }
  set (s2 := set_geom_ids (Some (g0 :: ids)) s1).
  assert (Hm2 : ∀ sa, live_model (world (set_saved_alpha sa s2)) = Some m).
  { intros sa. change (live_model (world s1) = Some m). by rewrite Hw1. }
  unfold mbind, StM_bind, gets. cbn beta iota.
  change (enabled (wrapper s2)) with (enabled (wrapper s1)).
  rewrite He1. unfold overlay_alpha.
  destruct (enabled (wrapper s)).
  - destruct (save_originals_shape (g0 :: ids) s2) as (r1 & sa & Heq & _).
    rewrite Heq. destruct r1 as [[]| |];
      [|by eexists _, _; split_and!; [| |left]..].
    unfold write_alpha. rewrite (Hm2 sa).
    destruct (forallb _ (g0 :: ids));
      [|by eexists _, _; split_and!; [| |left]].
    eexists _, _. split; [done|]. split; [done|]. right.
    exists m, (g0 :: ids). split_and!; [done | done |].
    cbn [world set_world set_saved_alpha]. change (world s2) with (world s1).
    rewrite Hw1. change (alpha (wrapper s2)) with (alpha (wrapper s1)).
    by rewrite Ha1.
  - unfold write_alpha, modify. rewrite <- (saved_alpha_eta s2), (Hm2 _).
    rewrite (saved_alpha_eta s2).
    destruct (forallb _ (g0 :: ids));
      [|by eexists _, _; split_and!; [| |left]].
    eexists _, _. split; [done|]. split; [done|]. right.
    exists m, (g0 :: ids). split_and!; [done | done |].
    cbn [world set_world set_saved_alpha]. change (world s2) with (world s1).
    by rewrite Hw1.
Qed.

(** * What a filled cache saves *)

Lemma save_original_loader (load : Z -> loaded) (gi : nat) (s : State) :
  save_original gi (with_loader load s)
  = ((save_original gi s).1, with_loader load (save_original gi s).2).
Proof.
  unfold save_original, mbind, StM_bind, gets, read_alpha, modify.
  cbn beta iota.
  change (_saved_alpha (wrapper (with_loader load s)))
    with (_saved_alpha (wrapper s)).
  destruct (_saved_alpha (wrapper s) !! gi); [done|].
  change (live_model (world (with_loader load s))) with (live_model (world s)).
  destruct (live_model (world s)) as [m|]; [|done].
  by destruct (geom_rgba_alpha m !! gi).
Qed.

Lemma save_originals_loader (load : Z -> loaded) (ids : list nat) (s : State) :
  for_ ids save_original (with_loader load s)
  = ((for_ ids save_original s).1,
     with_loader load (for_ ids save_original s).2).
Proof.
  revert s. induction ids as [|gi ids IH]; intros s; [done|].
  rewrite !for_cons, save_original_loader.
  destruct (save_original gi s) as [[[]| |] s1]; cbn [fst snd]; [|done..].
  apply IH.
Qed.

Lemma write_alpha_loader (load : Z -> loaded) (ids : list nat) (v : Q)
    (s : State) :
  write_alpha ids v (with_loader load s)
  = ((write_alpha ids v s).1, with_loader load (write_alpha ids v s).2).
Proof.
  unfold write_alpha.
  change (live_model (world (with_loader load s))) with (live_model (world s)).
  destruct (live_model (world s)) as [m|]; [|done].
  by destruct (forallb _ ids).
Qed.

(** [_apply_or_restore] after the identity check, when the cache is
    filled. *)
Lemma apply_tail_hit (s : State) (ids : list nat) :
  _geom_ids (wrapper s) = Some ids →
  apply_tail s
  = match ids with
    | [] => (Ret tt, s)
    | _ =>
        if enabled (wrapper s)
        then (for_ ids save_original ;; write_alpha ids (alpha (wrapper s))) s
        else (write_alpha ids 1%Q ;; modify (set_saved_alpha ∅)) s
    end.
Proof.
  intros Hc. unfold apply_tail. unfold mbind at 1. unfold StM_bind at 1.
  pose proof (get_ids_spec s) as Hget. cbn zeta in Hget.
  rewrite Hc in Hget. rewrite Hget. rewrite <- Hc, wrapper_eta.
  destruct ids as [|g0 ids]; [done|].
  unfold mbind at 1. unfold StM_bind at 1. unfold gets. cbn beta iota.
  by destruct (enabled (wrapper s)).
Qed.

(** X12.  Once the geometry set is cached for the live scene graph, a
    redraw does not consult the layout files again: whatever the loader
    would answer (a failure included), the outcome and the effect on the
    wrapper and on the scene are those of the redraw with the original
    loader. *)
Theorem cache_hit_skips_layout (s : State) (m : MjModel) (ids : list nat)
    (load : Z -> loaded) :
  live_model (world s) = Some m →
  _last_model_ptr (wrapper s) = Some (py_id m) →
  _geom_ids (wrapper s) = Some ids →
  _apply_or_restore (with_loader load s)
  = ((_apply_or_restore s).1, with_loader load (_apply_or_restore s).2).
Proof.
  intros Hm Hp Hc.
  rewrite (apply_start (with_loader load s) m Hm), (apply_start s m Hm).
  rewrite (refresh_token_same m s Hp).
  rewrite (refresh_token_same m (with_loader load s) Hp).
  rewrite (apply_tail_hit s ids Hc), (apply_tail_hit (with_loader load s) ids Hc).
  destruct ids as [|g0 ids]; [done|].
  change (enabled (wrapper (with_loader load s))) with (enabled (wrapper s)).
  change (alpha (wrapper (with_loader load s))) with (alpha (wrapper s)).
  unfold mbind, StM_bind.
  destruct (enabled (wrapper s)).
  - rewrite save_originals_loader.
    destruct (for_ (g0 :: ids) save_original s) as [[[]| |] s1];
      cbn [fst snd]; [|done..].
    rewrite write_alpha_loader.
    by destruct (write_alpha (g0 :: ids) (alpha (wrapper s)) s1) as [[[]| |] s2].
  - rewrite write_alpha_loader.
    by destruct (write_alpha (g0 :: ids) 1 s) as [[[]| |] s1].
Qed.

Lemma cache_hit_skips_layout_witness :
  _apply_or_restore (with_loader (fun _ => LoadFailed OSError) sample_enabled)
  = ((_apply_or_restore sample_enabled).1,
     with_loader (fun _ => LoadFailed OSError)
       (_apply_or_restore sample_enabled).2)
  ∧ resolve (world (with_loader (fun _ => LoadFailed OSError) sample_enabled))
    = Raise OSError.
Proof.
  split; [|vm_compute; reflexivity].
  apply (cache_hit_skips_layout sample_enabled painted_model [0; 1; 3]);
    reflexivity.
Defined.

(** * Reset *)

(** X13.  [reset] with the overlay enabled resolves the geometry set
    again against the scene the wrapped environment's reset produced and
    applies the overlay to it, whether or not the scene-graph object is
    the one the wrapper had seen before: the resolved geoms hold the
    overlay alpha as the buffer stores it (rounded to the element type of
    [geom_rgba]) and every other geom keeps the alpha of the fresh scene. *)
Theorem reset_reapplies (s : State) (env_reset : World -> World)
    (m : MjModel) (ids : list nat) :
  enabled (wrapper s) = true →
  live_model (env_reset (world s)) = Some m →
  wf_model m →
  resolve (env_reset (world s)) = Ret ids →
  ∃ s' buf,
    reset env_reset s = (Ret tt, s')
    ∧ enabled (wrapper s') = true
    ∧ _geom_ids (wrapper s') = Some ids
    ∧ _last_model_ptr (wrapper s') = Some (py_id m)
    ∧ live_model (world s') = Some (with_alpha buf m)
    ∧ (∀ gi, gi ∈ ids → buf !! gi = Some (geom_rgba_cast m (alpha (wrapper s))))
    ∧ (∀ gi, gi ∉ ids → buf !! gi = geom_rgba_alpha m !! gi).
Proof.
  intros Hen Hm Hwf Hres. rewrite reset_unfold. cbn zeta. rewrite Hen.
  set (s0 := set_last_model_ptr None
               (set_saved_alpha ∅
                  (set_geom_ids None (set_world (env_reset (world s)) s)))).
  assert (Hnone : _geom_ids (wrapper (refresh_token m s0)) = None).
  { unfold refresh_token. by case_bool_decide. }
  destruct (apply_ok s0 m) as (ids' & buf & s' & Happ & [He Ha] & Hc & Hp & Hlive
                                 & _ & _ & Hin & Hout & Hfresh & _);
    [done | done | by intros ? ? | by eauto |].
  specialize (Hfresh Hnone). change (world s0) with (env_reset (world s)) in Hfresh.
  rewrite Hres in Hfresh. simplify_eq.
  exists s', buf. split_and!; try done.
  - by rewrite He.
  - intros gi Hgi. rewrite (Hin gi Hgi). unfold overlay_alpha.
    change (enabled (wrapper s0)) with (enabled (wrapper s)). by rewrite Hen.
Qed.

Lemma reset_reapplies_witness :
  ∃ s' buf,
    reset (fun _ => sample_world) sample_enabled = (Ret tt, s')
    ∧ enabled (wrapper s') = true
    ∧ _geom_ids (wrapper s') = Some [0; 1; 3]
    ∧ _last_model_ptr (wrapper s') = Some (py_id sample_model)
    ∧ live_model (world s') = Some (with_alpha buf sample_model)
    ∧ (∀ gi, gi ∈ [0; 1; 3] → buf !! gi = Some (13421773 # 134217728)%Q)
    ∧ (∀ gi, gi ∉ [0; 1; 3] → buf !! gi = geom_rgba_alpha sample_model !! gi).
Proof.
  apply (reset_reapplies sample_enabled (fun _ => sample_world) sample_model
           [0; 1; 3]);
    [reflexivity | reflexivity | by split_and! | vm_compute; reflexivity].
Defined.

(** * Hot keys *)

Lemma on_release_flags (k : key) (h : Session) :
  _toggle_enclosing_walls (_on_release k h)
  = (if is_esc k then Some true else _toggle_enclosing_walls h)
  ∧ _force_enclosing_walls_opaque (_on_release k h)
    = (if is_bracket k then Some true else _force_enclosing_walls_opaque h)
  ∧ overlay (_on_release k h) = overlay h
  ∧ hworld (_on_release k h) = hworld h
  ∧ _enclosing_wall_key_listener (_on_release k h)
    = _enclosing_wall_key_listener h.
Proof.
  unfold _on_release, is_esc, is_bracket.
  destruct k as [| |[c|]]; try done.
  by destruct (String.eqb c "[" || String.eqb c "]").
Qed.

Lemma releases_cons (k : key) (ks : list key) (h : Session) :
  releases (k :: ks) h = releases ks (_on_release k h).
Proof. done. Qed.

(** X14.  Between two polls key releases only raise the two request
    flags: any number of Esc releases leaves one toggle request, any
    number of bracket releases one force-opaque request, every other key
    is ignored, the order of the keys is forgotten, and neither the
    wrapper nor the scene is touched by the listener. *)
Theorem releases_coalesce (ks : list key) (h : Session) :
  flag_set (_toggle_enclosing_walls (releases ks h))
  = flag_set (_toggle_enclosing_walls h) || existsb is_esc ks
  ∧ flag_set (_force_enclosing_walls_opaque (releases ks h))
    = flag_set (_force_enclosing_walls_opaque h) || existsb is_bracket ks
  ∧ overlay (releases ks h) = overlay h
  ∧ hworld (releases ks h) = hworld h
  ∧ _enclosing_wall_key_listener (releases ks h)
    = _enclosing_wall_key_listener h.
Proof.
  revert h. induction ks as [|k ks IH]; intros h.
  - cbn [releases foldl existsb]. by rewrite !orb_false_r.
  - rewrite releases_cons. cbn [existsb].
    destruct (IH (_on_release k h)) as (Ht & Hf & Ho & Hw & Hl).
    destruct (on_release_flags k h) as (Ht1 & Hf1 & Ho1 & Hw1 & Hl1).
    rewrite Ht, Hf, Ho, Hw, Hl, Ht1, Hf1, Ho1, Hw1, Hl1.
    split_and!; try done.
    + destruct (is_esc k); [|done]. cbn [flag_set].
      by rewrite orb_true_r.
    + destruct (is_bracket k); [|done]. cbn [flag_set].
      by rewrite orb_true_r.
Qed.

Lemma on_wrapper_frame (op : M unit) (h : Session) :
  _force_enclosing_walls_opaque (on_wrapper op h).2
  = _force_enclosing_walls_opaque h
  ∧ _toggle_enclosing_walls (on_wrapper op h).2 = _toggle_enclosing_walls h
  ∧ _enclosing_wall_key_listener (on_wrapper op h).2
    = _enclosing_wall_key_listener h.
Proof. unfold on_wrapper. by destruct (overlay h). Qed.

Lemma refresh_frame (vis : option (World -> World)) (render : bool)
    (h : Session) :
  _force_enclosing_walls_opaque
    (_refresh_visualization_and_redraw vis render h).2
  = _force_enclosing_walls_opaque h
  ∧ _toggle_enclosing_walls (_refresh_visualization_and_redraw vis render h).2
    = _toggle_enclosing_walls h
  ∧ _enclosing_wall_key_listener
      (_refresh_visualization_and_redraw vis render h).2
    = _enclosing_wall_key_listener h.
Proof.
  unfold _refresh_visualization_and_redraw. destruct vis as [f|]; [|done].
  unfold mbind, StM_bind, gets. cbn beta iota. unfold id.
  destruct (overlay h); [apply on_wrapper_frame | done].
Qed.

Lemma consume_pending_idle (vis : option (World -> World)) (render : bool)
    (h : Session) :
  flag_set (_force_enclosing_walls_opaque h) = false →
  flag_set (_toggle_enclosing_walls h) = false →
  consume_pending vis render h = (Ret false, h).
Proof.
  intros Hf Ht. unfold consume_pending, mbind, StM_bind, gets, id.
  cbn beta iota. by rewrite Hf, Ht.
Qed.

Lemma consume_pending_toggle (vis : option (World -> World)) (render : bool)
    (h : Session) :
  flag_set (_force_enclosing_walls_opaque h) = false →
  flag_set (_toggle_enclosing_walls h) = true →
  consume_pending vis render h
  = match on_wrapper toggle h with
    | (Ret _, h1) =>
        match _refresh_visualization_and_redraw vis render
                (set_toggle_flag (Some false) h1)
        with
        | (Ret _, h2) => (Ret true, h2)
        | (Raise e, h2) => (Raise e, h2)
        | (OutOfFuel, h2) => (OutOfFuel, h2)
        end
    | (Raise e, h1) => (Raise e, h1)
    | (OutOfFuel, h1) => (OutOfFuel, h1)
    end.
Proof.
  intros Hf Ht. unfold consume_pending, mbind, StM_bind, gets, modify, id.
  cbn beta iota. rewrite Hf, Ht. cbn [negb andb].
  destruct (on_wrapper toggle h) as [[[]|e|] h1]; [|done..].
  by destruct (_refresh_visualization_and_redraw vis render _) as [[[]|e|] h2].
Qed.

(** X15.  [consume_pending] returns [False] exactly when no request is
    pending, and then it has changed nothing. *)
Theorem consume_reports_requests (vis : option (World -> World))
    (render : bool) (h : Session) :
  ((consume_pending vis render h).1 = Ret false
   ↔ flag_set (_force_enclosing_walls_opaque h) = false
     ∧ flag_set (_toggle_enclosing_walls h) = false)
  ∧ ((consume_pending vis render h).1 = Ret false →
     (consume_pending vis render h).2 = h).
Proof.
  destruct (flag_set (_force_enclosing_walls_opaque h)) eqn:Hf.
  - rewrite (consume_pending_force vis render h Hf).
    destruct (on_wrapper (set_enabled false) h) as [[[]|e|] h1];
      [|by split; [split; [|intros []]|]..].
    destruct (_refresh_visualization_and_redraw vis render _) as [[[]|e|] h2];
      by split; [split; [|intros []]|].
  - destruct (flag_set (_toggle_enclosing_walls h)) eqn:Ht.
    + rewrite (consume_pending_toggle vis render h Hf Ht).
      destruct (on_wrapper toggle h) as [[[]|e|] h1];
        [|by split; [split; [|intros []]|]..].
      destruct (_refresh_visualization_and_redraw vis render _) as [[[]|e|] h2];
        by split; [split; [|intros []]|].
    + by rewrite (consume_pending_idle vis render h Hf Ht).
Qed.

(** X16.  A request is consumed once: after a poll that returned [True]
    the next poll finds nothing pending, returns [False] and changes
    nothing. *)
Theorem consume_once (vis vis' : option (World -> World))
    (render render' : bool) (h h' : Session) :
  consume_pending vis render h = (Ret true, h') →
  consume_pending vis' render' h' = (Ret false, h').
Proof.
  intros Hrun.
  destruct (flag_set (_force_enclosing_walls_opaque h)) eqn:Hf.
  - rewrite (consume_pending_force vis render h Hf) in Hrun.
    destruct (on_wrapper (set_enabled false) h) as [[[]|e|] h1]; [|done..].
    destruct (refresh_frame vis render
                (set_toggle_flag (Some false) (set_force_flag (Some false) h1)))
      as (Hf2 & Ht2 & _).
    destruct (_refresh_visualization_and_redraw vis render _) as [[[]|e|] h2];
      [|done..].
    cbn [snd] in Hf2, Ht2. simplify_eq. apply consume_pending_idle.
    + by rewrite Hf2.
    + by rewrite Ht2.
  - destruct (flag_set (_toggle_enclosing_walls h)) eqn:Ht.
    2:{ by rewrite (consume_pending_idle vis render h Hf Ht) in Hrun. }
    rewrite (consume_pending_toggle vis render h Hf Ht) in Hrun.
    destruct (on_wrapper_frame toggle h) as (Hf1 & _).
    destruct (on_wrapper toggle h) as [[[]|e|] h1]; [|done..].
    destruct (refresh_frame vis render (set_toggle_flag (Some false) h1))
      as (Hf2 & Ht2 & _).
    destruct (_refresh_visualization_and_redraw vis render _) as [[[]|e|] h2];
      [|done..].
    cbn [snd] in Hf1, Hf2, Ht2. simplify_eq. apply consume_pending_idle.
    + rewrite Hf2. cbn [set_toggle_flag _force_enclosing_walls_opaque].
      by rewrite Hf1.
    + by rewrite Ht2.
Qed.

Lemma consume_once_witness :
  consume_pending None false
    (consume_pending (Some (fun w => w)) true pending_session).2
  = (Ret false, (consume_pending (Some (fun w => w)) true pending_session).2).
Proof.
  apply (consume_once (Some (fun w => w)) None true false pending_session).
  reflexivity.
Defined.

(** The redraw keeps the overlay's switch and alpha. *)
Lemma refresh_switch (vis : option (World -> World)) (render : bool)
    (h : Session) (w : Wrapper) :
  overlay h = Some w →
  ∃ r h' w',
    _refresh_visualization_and_redraw vis render h = (r, h')
    ∧ r ≠ OutOfFuel
    ∧ overlay h' = Some w'
    ∧ enabled w' = enabled w
    ∧ alpha w' = alpha w.
Proof.
  intros Ho. unfold _refresh_visualization_and_redraw.
  destruct vis as [f|]; [|by exists (Ret tt), h, w].
  unfold mbind, StM_bind, gets. cbn beta iota. unfold id.
  rewrite Ho. unfold on_wrapper. rewrite Ho, visualize_unfold.
  destruct (apply_frame (set_world (f (world {| wrapper := w; world := hworld h |}))
                           {| wrapper := w; world := hworld h |}))
    as (r & s' & -> & Hr & He & Ha).
  eexists _, _, _. split; [done|]. by split_and!.
Qed.

(** X17.  A pending toggle request (and no force-opaque request) flips
    the overlay's switch exactly once, whether or not the call returns
    normally; the force-opaque flag is left alone, and on return the
    toggle request is cleared.  In a healthy session the call returns
    [True]. *)
Theorem consume_toggle_flips (vis : option (World -> World)) (render : bool)
    (h : Session) (w : Wrapper) :
  flag_set (_force_enclosing_walls_opaque h) = false →
  flag_set (_toggle_enclosing_walls h) = true →
  overlay h = Some w →
  ∃ r h' w',
    consume_pending vis render h = (r, h')
    ∧ r ≠ OutOfFuel ∧ r ≠ Ret false
    ∧ overlay h' = Some w'
    ∧ enabled w' = negb (enabled w)
    ∧ alpha w' = alpha w
    ∧ _force_enclosing_walls_opaque h' = _force_enclosing_walls_opaque h
    ∧ (r = Ret true → _toggle_enclosing_walls h' = Some false)
    ∧ (healthy (hworld h) → coherent {| wrapper := w; world := hworld h |} →
       (∀ f, vis = Some f → well_behaved f) → r = Ret true).
Proof.
  intros Hf Ht Ho. rewrite (consume_pending_toggle vis render h Hf Ht).
  unfold on_wrapper at 1. rewrite Ho. rewrite toggle_unfold.
  set (s := {| wrapper := w; world := hworld h |}).
  change (enabled (wrapper s)) with (enabled w).
  destruct (set_enabled_frame (negb (enabled w)) s)
    as (r1 & s1 & Hrun1 & Hr1 & He1 & Ha1).
  rewrite Hrun1. cbn [fst snd].
  destruct r1 as [[]|e|]; [| |done].
  2:{ eexists _, _, _. split; [done|]. split_and!; try done. intros Hh Hcoh _.
      destruct (set_enabled_healthy (negb (enabled w)) s Hh Hcoh)
        as (s1' & Hrun1' & _). congruence. }
  set (h1 := set_toggle_flag (Some false) (set_overlay_state s1 h)).
  destruct (refresh_switch vis render h1 (wrapper s1) eq_refl)
    as (r2 & h2 & w2 & Hrun2 & Hr2 & Ho2 & He2 & Ha2).
  destruct (refresh_frame vis render h1) as (Hf2 & Ht2 & _).
  rewrite Hrun2 in Hf2, Ht2 |- *. cbn [snd] in Hf2, Ht2.
  exists (match r2 with Ret _ => Ret true | Raise e => Raise e
                   | OutOfFuel => OutOfFuel end), h2, w2.
  split; [by destruct r2 as [[]| |]|].
  split_and!.
  - by destruct r2.
  - by destruct r2.
  - done.
  - by rewrite He2, He1.
  - by rewrite Ha2, Ha1.
  - by rewrite Hf2.
  - intros _. by rewrite Ht2.
  - intros Hh Hcoh Hvis.
    destruct (set_enabled_healthy (negb (enabled w)) s Hh Hcoh)
      as (s1' & Hrun1' & Hh1 & Hcoh1 & _).
    rewrite Hrun1 in Hrun1'. simplify_eq.
    unfold _refresh_visualization_and_redraw in Hrun2.
    destruct vis as [f|]; [|unfold mret, StM_ret in Hrun2; by simplify_eq].
    unfold mbind, StM_bind, gets, id in Hrun2. cbn beta iota in Hrun2.
    change (overlay h1) with (Some (wrapper s1')) in Hrun2.
    cbn beta iota in Hrun2. unfold on_wrapper in Hrun2.
    change (overlay h1) with (Some (wrapper s1')) in Hrun2.
    change (hworld h1) with (world s1') in Hrun2.
    cbn beta iota zeta in Hrun2. rewrite state_eta in Hrun2.
    destruct (visualize_healthy f s1' (Hvis f eq_refl) Hh1 Hcoh1)
      as (s2 & Hv & _).
    rewrite Hv in Hrun2. by simplify_eq.
Qed.

Lemma consume_toggle_flips_witness :
  ∃ r h' w',
    consume_pending None true toggle_session = (r, h')
    ∧ r ≠ OutOfFuel ∧ r ≠ Ret false
    ∧ overlay h' = Some w'
    ∧ enabled w' = negb (enabled (wrapper sample_enabled))
    ∧ alpha w' = alpha (wrapper sample_enabled)
    ∧ _force_enclosing_walls_opaque h'
      = _force_enclosing_walls_opaque toggle_session
    ∧ (r = Ret true → _toggle_enclosing_walls h' = Some false)
    ∧ (healthy (hworld toggle_session) →
       coherent {| wrapper := wrapper sample_enabled;
                   world := hworld toggle_session |} →
       (∀ f, None = Some f → well_behaved f) → r = Ret true).
Proof.
  apply (consume_toggle_flips None true toggle_session (wrapper sample_enabled));
    vm_compute; reflexivity.
Defined.

Lemma releases_listener (ks : list key) (h : Session) :
  _enclosing_wall_key_listener (releases ks h) = _enclosing_wall_key_listener h.
Proof.
  revert h. induction ks as [|k ks IH]; intros h; [done|].
  rewrite releases_cons, IH. by destruct (on_release_flags k h) as (_ & _ & _ & _ & ?).
Qed.

(** X18.  Installing the hot keys a second time changes nothing: requests
    raised since the first installation stay pending.  Right after a
    first installation nothing is pending, whatever the flags held
    before. *)
Theorem install_keeps_requests (ks : list key) (h : Session)
    (vis : option (World -> World)) (render : bool) :
  install_enclosing_wall_hotkeys
    (releases ks (install_enclosing_wall_hotkeys h))
  = releases ks (install_enclosing_wall_hotkeys h)
  ∧ (_enclosing_wall_key_listener h = false →
     consume_pending vis render (install_enclosing_wall_hotkeys h)
     = (Ret false, install_enclosing_wall_hotkeys h)).
Proof.
  split.
  - unfold install_enclosing_wall_hotkeys at 1. rewrite releases_listener.
    unfold install_enclosing_wall_hotkeys.
    by destruct (_enclosing_wall_key_listener h) eqn:Hl0; [rewrite Hl0|].
  - intros Hl. apply consume_pending_idle;
      unfold install_enclosing_wall_hotkeys; by rewrite Hl.
Qed.

Lemma install_keeps_requests_witness :
  install_enclosing_wall_hotkeys pending_session = pending_session
  ∧ consume_pending None true idle_session = (Ret false, idle_session).
Proof.
  split.
  - apply (install_keeps_requests [KeyCode (Some "]"); Key_esc] sample_session
             None true).
  - apply (install_keeps_requests [] sample_session None true). reflexivity.
Defined.

(** * Finding the overlay in a chain *)

(** X19.  [_find_enclosing_wall_render_wrapper] returns the outermost
    overlay wrapper of the chain, and [None] exactly when the chain has
    none; the wrapper it returns reaches the same innermost environment
    as the chain it was found in. *)
Theorem find_wrapper_outermost (o : Obj) :
  _find_enclosing_wall_render_wrapper o
  = head (filter (fun x => isinstance_overlay x = true) (chain o))
  ∧ (_find_enclosing_wall_render_wrapper o = None
     ↔ ∀ x, x ∈ chain o → isinstance_overlay x = false)
  ∧ (∀ r, _find_enclosing_wall_render_wrapper o = Some r →
       isinstance_overlay r = true
       ∧ _unwrap_env (obj_env r) = _unwrap_env (obj_env o)).
Proof.
  assert (Hhead : _find_enclosing_wall_render_wrapper o
                  = head (filter (fun x => isinstance_overlay x = true) (chain o))).
  { induction o as [c b|c inner IH]; cbn [_find_enclosing_wall_render_wrapper chain].
    - destruct c.
      + by rewrite filter_cons_True.
      + by rewrite filter_cons_False.
    - destruct c.
      + by rewrite filter_cons_True.
      + by rewrite filter_cons_False. }
  split_and!; [done | |].
  - rewrite Hhead. rewrite head_None.
    split.
    + intros Hnil x Hx. destruct (isinstance_overlay x) eqn:Hc; [|done].
      assert (x ∈ filter (fun x => isinstance_overlay x = true) (chain o))
        as Hin by (by apply list_elem_of_filter).
      rewrite Hnil in Hin. by apply elem_of_nil in Hin.
    + intros Hall.
      destruct (filter _ (chain o)) as [|x l] eqn:Hfl; [done|].
      assert (x ∈ filter (fun x => isinstance_overlay x = true) (chain o))
        as Hin by (rewrite Hfl; by left).
      apply list_elem_of_filter in Hin as [Hc Hin]. rewrite (Hall x Hin) in Hc.
      done.
  - clear Hhead.
    induction o as [c b|c inner IH]; intros r;
      cbn [_find_enclosing_wall_render_wrapper]; destruct c; intros Hr;
      simplify_eq; try done.
    destruct (IH r Hr) as [Hc Hbase]. split; [done|]. by rewrite Hbase.
Qed.

Lemma find_wrapper_outermost_witness :
  _find_enclosing_wall_render_wrapper sample_chain
  = Some (Node true (Node false (Node true
            (Leaf false {| sim := None; layout_id := Some 3%Z |}))))
  ∧ _unwrap_env (obj_env (Node true (Node false (Node true
            (Leaf false {| sim := None; layout_id := Some 3%Z |})))))
    = _unwrap_env (obj_env sample_chain).
Proof.
  split; [reflexivity|].
  apply (proj2 (proj2 (find_wrapper_outermost sample_chain))). reflexivity.
Defined.

(** * What can go wrong *)

Lemma for_each_ret_or {S X} (body : S -> X -> outcome S) (xs : list X) (s : S)
    (e : exn) :
  (∀ s1 x, x ∈ xs → (∃ s2, body s1 x = Ret s2) ∨ body s1 x = Raise e) →
  (∃ s', for_each body xs s = Ret s') ∨ for_each body xs s = Raise e.
Proof.
  revert s. induction xs as [|x xs IH]; intros s Hall; [left; by exists s|].
  cbn [for_each].
  destruct (Hall s x) as [[s2 ->]| ->]; [by left | | by right].
  cbn [obind]. apply IH. intros s1 x' Hx'. apply Hall. by right.
Qed.

Lemma matches_any_outcomes (name : string) (names : list pyval) :
  (∃ r, matches_any name names = Ret r)
  ∨ matches_any name names = Raise TypeError.
Proof.
  induction names as [|v names IH]; [left; by exists false|].
  cbn [matches_any]. destruct v as [| | |w| |]; cbn [match_name obind]; auto.
  destruct (name_matches name w); [left; by exists true | done].
Qed.

(** On a well-formed scene graph the resolver returns or raises
    [TypeError]. *)
Lemma match_geom_ids_outcomes (m : MjModel) (names : list pyval) :
  wf_model m →
  (∃ G, _match_geom_ids m names = Ret G)
  ∨ _match_geom_ids m names = Raise TypeError.
Proof.
  intros (Hparent & Hgeom & _). unfold _match_geom_ids.
  destruct names as [|v names]; [left; by exists []|].
  destruct (for_each_ret_or (match_body m (v :: names)) (range (nbody m)) ∅
              TypeError) as [[matched ->]| ->]; [| |by right].
  { intros ids b _. unfold match_body.
    destruct (body_id2name m b) as [name|]; [|left; eauto].
    destruct (matches_any_outcomes name (v :: names)) as [[r ->]| ->];
      cbn [obind]; [left; eauto | by right]. }
  cbn [obind].
  destruct (closure_loop_returns m (S (nbody m)) matched Hparent) as [body_ids ->].
  { pose proof (size_unvisited_le m matched). lia. }
  cbn [obind]. apply for_each_ret_or. intros G i Hi%elem_of_range.
  unfold match_geom.
  destruct (lookup_lt_is_Some_2 (geom_bodyid m) i) as [owner ->]; [lia|].
  case_bool_decide; [left; eauto|].
  destruct (geom_id2name m i) as [gname|]; [|left; eauto].
  destruct (matches_any_outcomes gname (v :: names)) as [[r ->]| ->];
    cbn [obind]; [left; eauto | by right].
Qed.

(** X20.  On a well-formed scene graph the resolver either returns or
    raises [TypeError]: it raises no [IndexError] and never exhausts its
    loop.  With string wall names it returns; a [TypeError] means that
    some wall name is not a string. *)
Theorem match_geom_ids_on_wf_model (m : MjModel) (names : list pyval) :
  wf_model m →
  ((∃ G, _match_geom_ids m names = Ret G)
   ∨ _match_geom_ids m names = Raise TypeError)
  ∧ (forallb is_str names = true → ∃ G, _match_geom_ids m names = Ret G)
  ∧ (_match_geom_ids m names = Raise TypeError →
     ∃ v, v ∈ names ∧ is_str v = false).
Proof.
  intros Hwf. split_and!.
  - by apply match_geom_ids_outcomes.
  - by apply match_geom_ids_returns.
  - intros Hraise.
    destruct (forallb is_str names) eqn:Hstr.
    + destruct (match_geom_ids_returns m names Hwf Hstr) as [G HG]. congruence.
    + clear Hraise. induction names as [|v names IH]; [done|].
      cbn [forallb] in Hstr. apply andb_false_iff in Hstr as [Hv|Hrest].
      * exists v. split; [by left | done].
      * destruct (IH Hrest) as (v' & Hin & Hv'). exists v'. split; [by right|done].
Qed.

Lemma match_geom_ids_on_wf_model_witness :
  ((∃ G, _match_geom_ids sample_model [PStr "wall"; PNone] = Ret G)
   ∨ _match_geom_ids sample_model [PStr "wall"; PNone] = Raise TypeError)
  ∧ (forallb is_str [PStr "wall"; PNone] = true →
     ∃ G, _match_geom_ids sample_model [PStr "wall"; PNone] = Ret G)
  ∧ (_match_geom_ids sample_model [PStr "wall"; PNone] = Raise TypeError →
     ∃ v, v ∈ [PStr "wall"; PNone] ∧ is_str v = false).
Proof.
  apply (match_geom_ids_on_wf_model sample_model [PStr "wall"; PNone]).
  by split_and!.
Defined.

Lemma enclosing_names_of_outcomes (ws : list pyval) :
  (∃ names, enclosing_names_of ws = Ret names)
  ∨ enclosing_names_of ws = Raise AttributeError.
Proof.
  induction ws as [|w ws IH]; [left; by exists []|].
  cbn [enclosing_names_of].
  destruct w as [| | | | |d]; cbn [py_get obind]; auto.
  destruct IH as [[names ->]| ->]; destruct (is_True _); cbn [obind]; eauto.
Qed.

Lemma py_get_outcomes (v : pyval) (k : string) (dflt : pyval) :
  (∃ r, py_get v k dflt = Ret r) ∨ py_get v k dflt = Raise AttributeError.
Proof. destruct v; cbn; eauto. Qed.

(** The registry returns, raises [AttributeError] or [TypeError] on a
    document of the wrong shape, or passes on the loader's failure. *)
Lemma registry_outcomes (load : Z -> loaded) (lid : Z) :
  (∃ names, _get_enclosing_wall_names_from_layout load lid = Ret names)
  ∨ _get_enclosing_wall_names_from_layout load lid = Raise AttributeError
  ∨ _get_enclosing_wall_names_from_layout load lid = Raise TypeError
  ∨ ∃ e, load lid = LoadFailed e
         ∧ _get_enclosing_wall_names_from_layout load lid = Raise e.
Proof.
  unfold _get_enclosing_wall_names_from_layout.
  destruct (load lid) as [v|e]; cbn [outcome_of_load obind];
    [|right; right; right; by exists e].
  destruct (py_get_outcomes (py_or v (PDict [])) "room" PNone) as [[room ->]| ->];
    cbn [obind]; [|auto].
  destruct (py_get_outcomes (py_or room (PDict [])) "walls" PNone)
    as [[walls ->]| ->]; cbn [obind]; [|auto].
  destruct (py_or walls (PList [])) as [| | |c|l|d]; cbn [py_iter obind]; auto.
  - destruct (enclosing_names_of_outcomes (chars c)) as [?| ->]; auto.
  - destruct (enclosing_names_of_outcomes l) as [?| ->]; auto.
  - destruct (enclosing_names_of_outcomes (map (fun kv => PStr kv.1) d))
      as [?| ->]; auto.
Qed.

(** The outcomes of [_apply_or_restore] on a well-formed session whose
    cache is coherent. *)
Lemma apply_outcomes (s : State) :
  wf_world (world s) → coherent s →
  ∃ r s', _apply_or_restore s = (r, s')
    ∧ (r = Ret tt ∨ r = Raise TypeError ∨ r = Raise AttributeError
       ∨ ∃ e lid, layout_id (_unwrap_env (env (world s))) = Some lid
                  ∧ load_layout (world s) lid = LoadFailed e
                  ∧ r = Raise e).
Proof.
  intros Hwf Hcoh.
  destruct (live_model (world s)) as [m|] eqn:Hm.
  2:{ exists (Ret tt), s. rewrite (apply_no_model s Hm). auto. }
  assert (Hrange : cache_in_range s m).
  { intros ids Hc _. by apply (Hcoh m ids). }
  assert (Hok : (∃ ids0, resolve (world s) = Ret ids0)
                ∨ _geom_ids (wrapper (refresh_token m s)) ≠ None →
                ∃ r s', _apply_or_restore s = (r, s') ∧ r = Ret tt).
  { intros Hcase.
    destruct (apply_ok s m Hm (Hwf m Hm) Hrange) as (ids & buf & s' & Happ & _).
    - intros Hnone. destruct Hcase as [?|Hne]; [done|]. by destruct Hne.
    - by exists (Ret tt), s'. }
  destruct (_geom_ids (wrapper (refresh_token m s))) as [c|] eqn:Hc.
  { destruct Hok as (r & s' & Hrun & ->); [by right|]. exists (Ret tt), s'. auto. }
  pose proof (Hwf m Hm) as Hwfm.
  unfold live_model in Hm.
  destruct (resolve (world s)) as [ids0|e|] eqn:Hres.
  - destruct Hok as (r & s' & Hrun & ->); [left; eauto|].
    exists (Ret tt), s'. auto.
  - exists (Raise e), (refresh_token m s).
    split; [by apply (apply_resolve_raises s m e)|].
    right. unfold resolve in Hres.
    destruct (sim (_unwrap_env (env (world s)))) as [[the_sim|]|]; [|done..].
    destruct (layout_id (_unwrap_env (env (world s)))) as [lid|]; [|done].
    rewrite Hm in Hres.
    destruct (registry_outcomes (load_layout (world s)) lid)
      as [[names Hn]|[Hn|[Hn|(e' & Hload & Hn)]]]; rewrite Hn in Hres;
      cbn [obind] in Hres.
    + destruct (match_geom_ids_outcomes m names Hwfm) as [[G HG]|HG];
        rewrite HG in Hres; simplify_eq. auto.
    + simplify_eq. auto.
    + simplify_eq. auto.
    + simplify_eq. right. right. by exists e, lid.
  - by apply resolve_no_fuel in Hres.
Qed.

(** X21.  What [set_enabled] can raise on a session whose scene graph is
    well formed and whose cache belongs to it: nothing but the [TypeError]
    and [AttributeError] of a layout of the wrong shape and the failure of
    the layout loader.  No [IndexError] reaches the caller, and the call
    always ends.  The switch holds the requested value in every case. *)
Theorem set_enabled_error_surface (b : bool) (s : State) :
  wf_world (world s) → coherent s →
  ∃ r s',
    set_enabled b s = (r, s')
    ∧ enabled (wrapper s') = b
    ∧ (r = Ret tt ∨ r = Raise TypeError ∨ r = Raise AttributeError
       ∨ ∃ e lid, layout_id (_unwrap_env (env (world s))) = Some lid
                  ∧ load_layout (world s) lid = LoadFailed e
                  ∧ r = Raise e).
Proof.
  intros Hwf Hcoh.
  destruct (set_enabled_frame b s) as (r & s' & Hrun & _ & He & _).
  exists r, s'. split_and!; [done | done |].
  rewrite set_enabled_unfold in Hrun.
  destruct (Bool.eqb b (enabled (wrapper s))); [simplify_eq; auto|].
  destruct (apply_outcomes (set_enabled_attr b s)) as (r0 & s0 & Hrun0 & Hcases);
    [done | done |].
  rewrite Hrun in Hrun0. by simplify_eq.
Qed.

Lemma set_enabled_error_surface_witness :
  ∃ r s',
    set_enabled true unnamed_wall_state = (r, s')
    ∧ enabled (wrapper s') = true
    ∧ (r = Ret tt ∨ r = Raise TypeError ∨ r = Raise AttributeError
       ∨ ∃ e lid,
           layout_id (_unwrap_env (env (world unnamed_wall_state))) = Some lid
           ∧ load_layout (world unnamed_wall_state) lid = LoadFailed e
           ∧ r = Raise e).
Proof.
  apply (set_enabled_error_surface true unnamed_wall_state).
  - intros m Hm. change (Some sample_model = Some m) in Hm. simplify_eq.
    by split_and!.
  - intros m ids Hm Hc. vm_compute in Hc. discriminate.
Defined.

(** X22.  [_get_enclosing_wall_geom_ids] caches what it returns and
    nothing else: after a call that returned, the result is in the cache,
    the scene is as it was, and the next call returns the same indices
    without resolving again, whatever the layout loader would now answer.
    A call that raised has cached nothing and changed nothing, so the next
    call tries again. *)
Theorem geom_ids_cached (s : State) :
  ∃ r s',
    _get_enclosing_wall_geom_ids s = (r, s')
    ∧ world s' = world s
    ∧ (∀ ids, r = Ret ids →
         _geom_ids (wrapper s') = Some ids
         ∧ ∀ load,
             _get_enclosing_wall_geom_ids (with_loader load s')
             = (Ret ids, with_loader load s'))
    ∧ ((∀ ids, r ≠ Ret ids) → s' = s).
Proof.
  pose proof (get_ids_spec s) as Hget. cbn zeta in Hget.
  destruct (match _geom_ids (wrapper s) with
            | Some ids => Ret ids
            | None => resolve (world s)
            end) as [ids|e|] eqn:Hr.
  - exists (Ret ids), (set_geom_ids (Some ids) s).
    split_and!; [done | done | | by intros Hne; destruct (Hne ids)].
    intros ids' [= <-]. split; [done|]. intros load.
    pose proof (get_ids_spec (with_loader load (set_geom_ids (Some ids) s)))
      as Hget'.
    cbn zeta in Hget'. exact Hget'.
  - exists (Raise e), s. by split_and!.
  - exists OutOfFuel, s. by split_and!.
Qed.

(** X23.  [visualize] lets the wrapped environment draw first and then
    asserts the overlay again: when the scene-graph object is still the
    one the geometry set was cached for, the call returns, the cached
    geoms hold what a store of the alpha the switch prescribes leaves in
    the buffer (the value rounded to the element type of [geom_rgba])
    whatever the wrapped [visualize] wrote there, and everything else is
    as the wrapped [visualize] left it. *)
Theorem visualize_reasserts (s : State) (env_visualize : World -> World)
    (m : MjModel) (ids : list nat) :
  live_model (env_visualize (world s)) = Some m →
  _last_model_ptr (wrapper s) = Some (py_id m) →
  _geom_ids (wrapper s) = Some ids →
  (∀ gi, gi ∈ ids → gi < length (geom_rgba_alpha m)) →
  ∃ s',
    visualize env_visualize s = (Ret tt, s')
    ∧ enabled (wrapper s') = enabled (wrapper s)
    ∧ alpha (wrapper s') = alpha (wrapper s)
    ∧ _geom_ids (wrapper s') = Some ids
    ∧ world s'
      = world_set_alpha
          (assign_all ids (geom_rgba_cast m (overlay_alpha (wrapper s)))
             (geom_rgba_alpha m))
          (env_visualize (world s)).
Proof.
  intros Hm Hp Hc Hrange. rewrite visualize_unfold.
  set (s0 := set_world (env_visualize (world s)) s).
  assert (Hm0 : live_model (world s0) = Some m) by done.
  pose proof (apply_live_on s0 m Hm0) as Hlive. cbn zeta in Hlive.
  rewrite (refresh_token_same m s0 Hp) in Hlive.
  change (_geom_ids (wrapper s0)) with (_geom_ids (wrapper s)) in Hlive.
  rewrite Hc in Hlive. rewrite Hlive by (by intros ids' [= <-]). clear Hlive.
  unfold overlay_alpha.
  destruct ids as [|g0 ids].
  - eexists. split; [done|]. split_and!; try done.
    unfold assign_all. cbn [foldr world set_geom_ids].
    change (world s0) with (env_visualize (world s)).
    by rewrite (world_set_alpha_live _ m Hm).
  - cbn zeta. change (enabled (wrapper s0)) with (enabled (wrapper s)).
    destruct (enabled (wrapper s)) eqn:Hen; eexists; (split; [done|]);
      by split_and!.
Qed.

Lemma visualize_reasserts_witness :
  ∃ s',
    visualize repaint sample_enabled = (Ret tt, s')
    ∧ enabled (wrapper s') = enabled (wrapper sample_enabled)
    ∧ alpha (wrapper s') = alpha (wrapper sample_enabled)
    ∧ _geom_ids (wrapper s') = Some [0; 1; 3]
    ∧ world s'
      = world_set_alpha
          [13421773 # 134217728; 13421773 # 134217728; 1 # 2;
           13421773 # 134217728]%Q
          (repaint (world sample_enabled)).
Proof.
  apply (visualize_reasserts sample_enabled repaint
           (with_alpha [1 # 2; 1 # 2; 1 # 2; 1 # 2]%Q sample_model) [0; 1; 3]);
    [reflexivity.. |].
  intros gi Hgi. cbn [geom_rgba_alpha with_alpha length].
  rewrite !elem_of_cons, elem_of_nil in Hgi. lia.
Defined.
